(** * Incremental Delaunay triangulation: a shallow embedding

    The development follows the four source units of the repository:
    [point.js] (points and the planar squared distance), [queue.js] (the
    binary heap with a sentinel at index 0), [triangle.js] (a mesh cell and
    its geometric predicates) and [triangulation.js] (bounding triangle,
    point location, split, repair by edge flips, harvest).

    JavaScript objects live on a heap and are compared by reference.  A
    [Triangle] object is an index into an arena of cell records; a [Point]
    object that is stored in the mesh carries its heap identity ([Vertex]).
    Numbers are kept abstract behind [Number]: the code is instantiated at
    IEEE binary64 ([float], what a JavaScript engine computes) and at the
    real numbers (arithmetic read exactly). *)

From Stdlib Require Import ZArith QArith List Bool Lia Floats Reals Lra Psatz.
From stdpp Require Import base tactics option list sorting.

Set Default Proof Using "Type".

(** ** Numbers *)

Class Number (F : Type) := {
  nadd : F -> F -> F;
  nsub : F -> F -> F;
  nmul : F -> F -> F;
  ndiv : F -> F -> F;
  nopp : F -> F;
  nabs : F -> F;                (* Math.abs *)
  nsqrt : F -> F;               (* Math.sqrt *)
  nlt : F -> F -> bool;         (* <  *)
  nle : F -> F -> bool;         (* <= *)
  neq : F -> F -> bool;         (* == on numbers *)
  nconst : Q -> F               (* a decimal literal of the source text *)
}.

Declare Scope num_scope.
Delimit Scope num_scope with num.
Notation "a + b" := (nadd a b) : num_scope.
Notation "a - b" := (nsub a b) : num_scope.
Notation "a * b" := (nmul a b) : num_scope.
Notation "a / b" := (ndiv a b) : num_scope.
Notation "- a" := (nopp a) : num_scope.
Notation "a < b" := (nlt a b) : num_scope.
Notation "a <= b" := (nle a b) : num_scope.
Notation "a >= b" := (nle b a) : num_scope.
Notation "a == b" := (neq a b) (at level 70, no associativity) : num_scope.
Notation "'lit' q" := (nconst q%Q) (at level 1, q at level 0, format "'lit'  q") : num_scope.

(** IEEE binary64.  An integer or short decimal literal [m/10^k] denotes the
    double nearest to it, which is what the correctly rounded quotient of
    the two exactly representable integers yields. *)
Definition float_of_Z (n : Z) : float :=
  match n with
  | Z0 => PrimFloat.zero
  | Zpos _ => PrimFloat.of_uint63 (Uint63.of_Z n)
  | Zneg _ => PrimFloat.opp (PrimFloat.of_uint63 (Uint63.of_Z (Z.opp n)))
  end.

Definition float_of_Q (q : Q) : float :=
  match Qden q with
  | xH => float_of_Z (Qnum q)
  | d => PrimFloat.div (float_of_Z (Qnum q)) (float_of_Z (Zpos d))
  end.

#[global] Instance floatNumber : Number float := {|
  nadd := PrimFloat.add;
  nsub := PrimFloat.sub;
  nmul := PrimFloat.mul;
  ndiv := PrimFloat.div;
  nopp := PrimFloat.opp;
  nabs := PrimFloat.abs;
  nsqrt := PrimFloat.sqrt;
  nlt := PrimFloat.ltb;
  nle := PrimFloat.leb;
  neq := PrimFloat.eqb;
  nconst := float_of_Q
|}.

(** Exact arithmetic over the reals. *)
Definition Rltb (a b : R) : bool := if Rlt_dec a b then true else false.
Definition Rleb (a b : R) : bool := if Rle_dec a b then true else false.
Definition Reqb (a b : R) : bool := if Req_dec_T a b then true else false.

#[global] Instance realNumber : Number R := {|
  nadd := Rplus;
  nsub := Rminus;
  nmul := Rmult;
  ndiv := Rdiv;
  nopp := Ropp;
  nabs := Rabs;
  nsqrt := sqrt;
  nlt := Rltb;
  nle := Rleb;
  neq := Reqb;
  nconst := Q2R
|}.

(** ** Outcomes of a call

    [Ok] is a normal return.  [Fault] marks a run that leaves what the
    source accounts for: a value that its (disabled) assertions require to
    be an object or an index is [null]/[undefined].  A JavaScript engine
    raises a TypeError when a field is read through such a value, and
    carries on with a coerced value when it is used as an array index; the
    model stops at the first such use and follows the run no further.
    [Timeout] is only produced when the fuel of a loop runs out. *)
Inductive res (A : Type) : Type :=
| Ok (a : A)
| Fault
| Timeout.
Arguments Ok {A} a.
Arguments Fault {A}.
Arguments Timeout {A}.

Definition rbind {A B} (m : res A) (k : A -> res B) : res B :=
  match m with
  | Ok a => k a
  | Fault => Fault
  | Timeout => Timeout
  end.

Notation "'let*' x ':=' m 'in' k" := (rbind m (fun x => k))
  (at level 10, x pattern, m at level 100, k at level 200).

(** [o] read as a value that must not be [null]/[undefined]. *)
Definition deref {A} (o : option A) : res A :=
  match o with
  | Some a => Ok a
  | None => Fault
  end.

(** ** JavaScript arrays *)

(** [a[i] = v]: in range the slot is overwritten, past the end the array
    grows (holes read as [undefined], here [None]). *)
Definition array_set {A} (a : list (option A)) (i : nat) (v : option A) : list (option A) :=
  if decide (i < length a)%nat then <[i := v]> a
  else a ++ replicate (i - length a) None ++ [v].

(** [a[i]]: out of range reads give [undefined]. *)
Definition array_get {A} (a : list (option A)) (i : nat) : option A :=
  mjoin (a !! i).

(** [a.pop()]: the removed last element ([undefined] on an empty array) and
    the shortened array. *)
Definition array_pop {A} (a : list (option A)) : option A * list (option A) :=
  (mjoin (last a), removelast a).

(** [a.indexOf(v)] with [-1] rendered as [None]; [same] is reference
    equality of the elements. *)
Fixpoint indexOf {A} (same : A -> A -> bool) (a : list A) (v : A) : option nat :=
  match a with
  | [] => None
  | e :: a' => if same e v then Some 0%nat else S <$> indexOf same a' v
  end.

Section Geometry.
Context {F : Type} {NF : Number F}.
Local Open Scope num_scope.

(** ** point.js *)

(** The fields of a [Point] object. *)
Record Point := mkPoint { px : F; py : F; pz : F }.

(** A [Point] object held by the mesh: its heap identity and its fields.
    [indexOf] and [!=] on points compare [vid] only. *)
Record Vertex := mkVertex { vid : nat; vpoint :> Point }.

Definition same_vertex (a b : Vertex) : bool := Nat.eqb (vid a) (vid b).

Definition calculateDistanceSquarePlane (p1 p2 : Point) : F :=
  let x := px p2 - px p1 in
  let y := py p2 - py p1 in
  x * x + y * y.

(** ** triangle.js *)

(** A mesh cell.  [neighbors] holds references into the arena ([None] is
    [null]); [center], [circumcenter] and [radius] are the lazily filled
    caches; [search] is the visitation stamp ([None] until first set). *)
Record Triangle := mkTriangle {
  points : list Vertex;
  neighbors : list (option nat);
  center : option Point;
  circumcenter : option Point;
  radius : option F;
  search : option nat
}.

(** [new Triangle(points, neighbors)] *)
Definition newTriangle (pts : list Vertex) (nbs : list (option nat)) : Triangle :=
  mkTriangle pts nbs None None None None.

(** [points[i]] followed by a field read. *)
Definition getPoint (pts : list Vertex) (i : nat) : res Vertex := deref (pts !! i).

(** The divisor shared by the two quotients of [calculateCircumcentre]. *)
Definition circumcentreDenominator (x1 y1 x2 y2 x3 y3 : F) : F :=
  (lit 2*x2-lit 2*x1)*y3+(lit 2*x1-lit 2*x3)*y2+(lit 2*x3-lit 2*x2)*y1.

Definition calculateCircumcentre (pts : list Vertex) : res Point :=
  let* p1 := getPoint pts 0 in
  let* p2 := getPoint pts 1 in
  let* p3 := getPoint pts 2 in
  let x1 := px p1 in let y1 := py p1 in let z1 := pz p1 in
  let x2 := px p2 in let y2 := py p2 in let z2 := pz p2 in
  let x3 := px p3 in let y3 := py p3 in let z3 := pz p3 in
  let u := (- ((y2-y1)*(y3*y3)+(-(y2*y2)+(y1*y1)-(x2*x2)+(x1*x1))*y3+y1*(y2*y2)
               +(-(y1*y1)+(x3*x3)-(x1*x1))*y2+((x2*x2)-(x3*x3))*y1))
           / circumcentreDenominator x1 y1 x2 y2 x3 y3 in
  let v := ((x2-x1)*(y3*y3)+(x1-x3)*(y2*y2)+(x3-x2)*(y1*y1)+(x2-x1)*(x3*x3)
            +((x1*x1)-(x2*x2))*x3+x1*(x2*x2)-(x1*x1)*x2)
           / circumcentreDenominator x1 y1 x2 y2 x3 y3 in
  let w :=
    if negb ((z1 == z2) && (z2 == z3)) then
      let r := (- ((-x1)*y3+u*y3+x3*(y1-v))) / (x3*y2-x2*y3) in
      let s := ((-x1)*y2+u*y2+x2*(y1-v)) / (x3*y2-x2*y3) in
      z1 + r * z2 + s * z3
    else z1 in
  Ok (mkPoint u v w).

Definition calculateCenter (pts : list Vertex) : Point :=
  let n := nconst (inject_Z (Z.of_nat (length pts))) in
  let '(x, y, z) :=
    fold_left (fun '(x, y, z) (p : Vertex) => (x + px p, y + py p, z + pz p))
              pts (lit 0, lit 0, lit 0) in
  mkPoint (x / n) (y / n) (z / n).

(** The two quotients of [isPointInTriangle] and their common divisor. *)
Definition containmentDenominator (x1 y1 x2 y2 x3 y3 : F) : F :=
  x1*(y3-y2)+x2*(y1-y3)+x3*(y2-y1).

Definition containmentU (p1 p2 p3 point : Point) : F :=
  let x := px point in let y := py point in
  let x1 := px p1 in let y1 := py p1 in
  let x2 := px p2 in let y2 := py p2 in
  let x3 := px p3 in let y3 := py p3 in
  (- (x*(y3-y1)+x1*(y-y3)+x3*(y1-y))) / containmentDenominator x1 y1 x2 y2 x3 y3.

Definition containmentV (p1 p2 p3 point : Point) : F :=
  let x := px point in let y := py point in
  let x1 := px p1 in let y1 := py p1 in
  let x2 := px p2 in let y2 := py p2 in
  let x3 := px p3 in let y3 := py p3 in
  (x*(y2-y1)+x1*(y-y2)+x2*(y1-y)) / containmentDenominator x1 y1 x2 y2 x3 y3.

Definition isPointInTriangle (triangle : Triangle) (point : Point) : res bool :=
  let* p1 := getPoint (points triangle) 0 in
  let* p2 := getPoint (points triangle) 1 in
  let* p3 := getPoint (points triangle) 2 in
  let u := containmentU p1 p2 p3 point in
  let v := containmentV p1 p2 p3 point in
  Ok ((u >= lit 0) && (v >= lit 0) && (u + v <= lit 1)).

(** ** queue.js (the binary heap) *)

Section Queue.
Context {A : Type}.
(** [this.compare]; the arguments are array slots, so they may be
    [null]/[undefined]. *)
Variable compare : option A -> option A -> res F.

Record Queue := mkQueue { elements : list (option A) }.

(** [new Queue(compare)] *)
Definition newQueue : Queue := mkQueue [None].

Definition parentIndex (index : nat) : nat := (index / 2)%nat.
Definition leftChildIndex (index : nat) : nat := (index * 2)%nat.
Definition rightChildIndex (index : nat) : nat := (index * 2 + 1)%nat.

Definition less (els : list (option A)) (lhs rhs : nat) : res bool :=
  let* c := compare (array_get els lhs) (array_get els rhs) in
  Ok (c < lit 0).

Definition swap (els : list (option A)) (lhs rhs : nat) : list (option A) :=
  let element := array_get els lhs in
  let els := array_set els lhs (array_get els rhs) in
  array_set els rhs element.

(** [while (index > 1)]: the index at least halves in every round, so
    [fuel = index] rounds are never used up. *)
Fixpoint cascadeUp (fuel : nat) (els : list (option A)) (index : nat)
  : res (list (option A)) :=
  match fuel with
  | O => Timeout
  | S fuel =>
      if decide (1 < index)%nat then
        let p := parentIndex index in
        let* b := less els index p in
        if b then cascadeUp fuel (swap els index p) p else Ok els
      else Ok els
  end.

(** [while (true)] of [cascadeDown]; [size] is [this.elements.length - 1],
    read once before the loop. *)
Fixpoint cascadeDownLoop (fuel : nat) (size : Z) (els : list (option A)) (index : nat)
  : res (list (option A)) :=
  match fuel with
  | O => Timeout
  | S fuel =>
      let left_child := leftChildIndex index in
      let right_child := rightChildIndex index in
      let* min_child :=
        if decide (Z.of_nat right_child <= size)%Z then
          let* b := less els left_child right_child in
          Ok (Some (if b then left_child else right_child))
        else if decide (Z.of_nat left_child <= size)%Z then Ok (Some left_child)
        else Ok None in
      match min_child with
      | None => Ok els
      | Some min_child =>
          let* b := less els index min_child in
          if negb b then cascadeDownLoop fuel size (swap els min_child index) min_child
          else Ok els
      end
  end.

Definition cascadeDown (els : list (option A)) (index : nat) : res (list (option A)) :=
  cascadeDownLoop (S (length els)) (Z.of_nat (length els) - 1) els index.

Definition insert (q : Queue) (element : A) : res Queue :=
  let size := length (elements q) in
  let els := elements q ++ [Some element] in
  let* els := cascadeUp (S size) els size in
  Ok (mkQueue els).

(** [value = elements[1]; elements[1] = elements.pop(); cascadeDown(1)].
    The assignment target is fixed first, then [pop()] shortens the array,
    then the removed element is stored at index 1. *)
Definition pop (q : Queue) : res (option A * Queue) :=
  let value := array_get (elements q) 1 in
  let '(removed, rest) := array_pop (elements q) in
  let els := array_set rest 1 removed in
  let* els := cascadeDown els 1 in
  Ok (value, mkQueue els).

Definition isEmpty (q : Queue) : bool := (length (elements q) <=? 1)%nat.

End Queue.
Arguments Queue A : clear implicits.

(** ** The arena of cells *)

Local Abbreviation Heap := (list Triangle).

Definition getTriangle (h : Heap) (t : nat) : res Triangle := deref (h !! t).

Definition with_points (tri : Triangle) (pts : list Vertex) : Triangle :=
  mkTriangle pts (neighbors tri) (center tri) (circumcenter tri) (radius tri) (search tri).
Definition with_neighbors (tri : Triangle) (nbs : list (option nat)) : Triangle :=
  mkTriangle (points tri) nbs (center tri) (circumcenter tri) (radius tri) (search tri).
Definition with_center (tri : Triangle) (c : option Point) : Triangle :=
  mkTriangle (points tri) (neighbors tri) c (circumcenter tri) (radius tri) (search tri).
Definition with_circumcenter (tri : Triangle) (c : option Point) : Triangle :=
  mkTriangle (points tri) (neighbors tri) (center tri) c (radius tri) (search tri).
Definition with_radius (tri : Triangle) (r : option F) : Triangle :=
  mkTriangle (points tri) (neighbors tri) (center tri) (circumcenter tri) r (search tri).
Definition with_search (tri : Triangle) (s : option nat) : Triangle :=
  mkTriangle (points tri) (neighbors tri) (center tri) (circumcenter tri) (radius tri) s.

(** *** Methods of [Triangle] (the receiver is a reference [t]) *)

Definition getCenter (h : Heap) (t : nat) : res (Point * Heap) :=
  let* tri := getTriangle h t in
  match center tri with
  | Some c => Ok (c, h)
  | None =>
      let c := calculateCenter (points tri) in
      Ok (c, <[t := with_center tri (Some c)]> h)
  end.

Definition getCircumcenter (h : Heap) (t : nat) : res (Point * Heap) :=
  let* tri := getTriangle h t in
  match circumcenter tri with
  | Some c => Ok (c, h)
  | None =>
      let* c := calculateCircumcentre (points tri) in
      Ok (c, <[t := with_circumcenter tri (Some c)]> h)
  end.

Definition getRadius (h : Heap) (t : nat) : res (F * Heap) :=
  let* tri := getTriangle h t in
  match radius tri with
  | Some r => Ok (r, h)
  | None =>
      let* (c, h) := getCircumcenter h t in
      let* p0 := getPoint (points tri) 0 in
      let r := calculateDistanceSquarePlane c p0 in
      let* tri := getTriangle h t in
      Ok (r, <[t := with_radius tri (Some r)]> h)
  end.

(** [this.points[index] = point] and the caches are dropped.  Every call
    site passes an index below [points.length = 3]. *)
Definition setPoint (h : Heap) (t : nat) (index : nat) (point : Vertex) : res Heap :=
  let* tri := getTriangle h t in
  Ok (<[t := mkTriangle (<[index := point]> (points tri)) (neighbors tri)
                        None None None (search tri)]> h).

Definition distanceToCircumcenter (h : Heap) (t : nat) (point : Point) : res (F * Heap) :=
  let* (c, h) := getCircumcenter h t in
  Ok (calculateDistanceSquarePlane c point, h).

Definition distanceToCenter (h : Heap) (t : nat) (point : Point) : res (F * Heap) :=
  let* (c, h) := getCenter h t in
  Ok (calculateDistanceSquarePlane c point, h).

Definition containsPoint (h : Heap) (t : nat) (point : Point) : res bool :=
  let* tri := getTriangle h t in
  isPointInTriangle tri point.

(** [t.neighbors[i] = v] *)
Definition setNeighbor (h : Heap) (t : nat) (i : nat) (v : option nat) : res Heap :=
  let* tri := getTriangle h t in
  Ok (<[t := with_neighbors tri (array_set (neighbors tri) i v)]> h).

(** [t.neighbors[i]] *)
Definition getNeighbor (h : Heap) (t : nat) (i : nat) : res (option nat) :=
  let* tri := getTriangle h t in
  Ok (array_get (neighbors tri) i).

(** ** triangulation.js *)

(** [triangle.search == search] *)
Definition stamped (tri : Triangle) (s : nat) : bool :=
  match search tri with
  | Some s' => Nat.eqb s' s
  | None => false
  end.

Definition minimalDistance (point : Point) (triangle : Triangle) : res F :=
  let* p0 := getPoint (points triangle) 0 in
  let minimal := calculateDistanceSquarePlane point p0 in
  Ok (fold_left
        (fun minimal (p : Vertex) =>
           let distance := calculateDistanceSquarePlane point p in
           let distance := if distance < minimal then minimal else distance in
           minimal)
        (drop 1 (points triangle)) minimal).

Definition compareTriangles (h : Heap) (point : Point) (triangle1 triangle2 : option nat)
  : res F :=
  let* t1 := deref triangle1 in
  let* tri1 := getTriangle h t1 in
  let* d1 := minimalDistance point tri1 in
  let* t2 := deref triangle2 in
  let* tri2 := getTriangle h t2 in
  let* d2 := minimalDistance point tri2 in
  Ok (d1 - d2).

(** The [for] loop of [findContainingTriangle] over the neighbours of the
    cell just rejected. *)
Fixpoint enqueueNeighbors (s : nat) (point : Point) (h : Heap) (q : Queue nat)
    (nbs : list (option nat)) : res (Heap * Queue nat) :=
  match nbs with
  | [] => Ok (h, q)
  | None :: nbs => enqueueNeighbors s point h q nbs
  | Some n :: nbs =>
      let* tn := getTriangle h n in
      if negb (stamped tn s) then
        let h := <[n := with_search tn (Some s)]> h in
        let* q := insert (compareTriangles h point) q n in
        enqueueNeighbors s point h q nbs
      else enqueueNeighbors s point h q nbs
  end.

(** [while (!queue.isEmpty())] *)
Fixpoint findLoop (fuel : nat) (s : nat) (point : Point) (h : Heap) (q : Queue nat)
  : res (option nat * Heap) :=
  match fuel with
  | O => Timeout
  | S fuel =>
      if isEmpty q then Ok (None, h)
      else
        let* (triangle, q) := pop (compareTriangles h point) q in
        let* t := deref triangle in
        let* inside := containsPoint h t point in
        if inside then Ok (Some t, h)
        else
          let* tri := getTriangle h t in
          let* (h, q) := enqueueNeighbors s point h q (neighbors tri) in
          findLoop fuel s point h q
  end.

Definition findContainingTriangle (fuel : nat) (s : nat) (root : option nat)
    (point : Point) (h : Heap) : res (option nat * Heap) :=
  match root with
  | None => Ok (None, h)
  | Some r =>
      let* tri := getTriangle h r in
      if stamped tri s then Ok (None, h)
      else
        let* q := insert (compareTriangles h point) newQueue r in
        findLoop fuel s point h q
  end.

(** [triangle.neighbors.indexOf(oldNeighbor)]; when it is [-1] the store
    creates a property named "-1" and no array element changes. *)
Definition replaceNeighbor (h : Heap) (triangle : option nat) (oldNeighbor newNeighbor : nat)
  : res Heap :=
  match triangle with
  | None => Ok h
  | Some t =>
      let* tri := getTriangle h t in
      match indexOf (fun a b : option nat => bool_decide (a = b))
                    (neighbors tri) (Some oldNeighbor) with
      | Some index => setNeighbor h t index (Some newNeighbor)
      | None => Ok h
      end
  end.

Fixpoint findNotContainedPointFrom (i : nat) (points1 points2 : list Vertex) : option nat :=
  match points1 with
  | [] => None
  | p :: points1 =>
      match indexOf same_vertex points2 p with
      | None => Some i
      | Some _ => findNotContainedPointFrom (S i) points1 points2
      end
  end.

Definition findNotContainedPoint (points1 points2 : list Vertex) : option nat :=
  findNotContainedPointFrom 0 points1 points2.

Fixpoint findRemainingIndexFrom (i : nat) (pts : list Vertex) (point1 point2 : Vertex)
  : option nat :=
  match pts with
  | [] => None
  | p :: pts =>
      if negb (same_vertex p point1) && negb (same_vertex p point2) then Some i
      else findRemainingIndexFrom (S i) pts point1 point2
  end.

Definition findRemainingIndex (pts : list Vertex) (point1 point2 : Vertex) : option nat :=
  findRemainingIndexFrom 0 pts point1 point2.

(** [flip]: a [null] index (every vertex of one cell is also a vertex of
    the other; the source's disabled assertions exclude it) is a [Fault]. *)
Definition flip (h : Heap) (triangle1 triangle2 : nat) : res Heap :=
  let* tri1 := getTriangle h triangle1 in
  let* tri2 := getTriangle h triangle2 in
  let* index1 := deref (findNotContainedPoint (points tri1) (points tri2)) in
  let* index2 := deref (findNotContainedPoint (points tri2) (points tri1)) in
  let swapIndex1 := ((index1 + 1) mod 3)%nat in
  let* off2 := getPoint (points tri2) index2 in
  let* shared := getPoint (points tri1) swapIndex1 in
  let* swapIndex2 := deref (findRemainingIndex (points tri2) off2 shared) in
  let* h := setPoint h triangle1 swapIndex1 off2 in
  let* tri1 := getTriangle h triangle1 in
  let* off1 := getPoint (points tri1) index1 in
  let* h := setPoint h triangle2 swapIndex2 off1 in
  let* tri1 := getTriangle h triangle1 in
  let* tri2 := getTriangle h triangle2 in
  let oldNeighbors1 := neighbors tri1 in
  let oldNeighbors2 := neighbors tri2 in
  let index11 := ((swapIndex1 + 2) mod 3)%nat in
  let index12 := swapIndex1 in
  let index21 := ((swapIndex2 + 2) mod 3)%nat in
  let index22 := swapIndex2 in
  let* nb := getNeighbor h triangle1 index11 in
  let* h := replaceNeighbor h nb triangle1 triangle2 in
  let* h := setNeighbor h triangle1 index11 (Some triangle2) in
  let* h := setNeighbor h triangle1 index12 (array_get oldNeighbors2 index2) in
  let* nb := getNeighbor h triangle2 index21 in
  let* h := replaceNeighbor h nb triangle2 triangle1 in
  let* h := setNeighbor h triangle2 index21 (Some triangle1) in
  setNeighbor h triangle2 index22 (array_get oldNeighbors1 index1).

Definition strictlyLessThan (a b : F) : bool :=
  a + lit 0.00001 * nabs a < b.

(** The [for] loop of [investigateAndFixTriangle] over [neighbor.points]. *)
Fixpoint investigateLoop (h : Heap) (triangle neighbor : nat) (pts : list Vertex)
  : res (bool * Heap) :=
  match pts with
  | [] => Ok (false, h)
  | p :: pts =>
      let* (distance, h) := distanceToCircumcenter h triangle p in
      let* (rad, h) := getRadius h triangle in
      if strictlyLessThan distance rad then
        let* h := flip h triangle neighbor in
        Ok (true, h)
      else investigateLoop h triangle neighbor pts
  end.

Definition investigateAndFixTriangle (h : Heap) (triangle neighbor : nat)
  : res (bool * Heap) :=
  let* tn := getTriangle h neighbor in
  investigateLoop h triangle neighbor (points tn).

(** [findAndFixViolatedTriangles(triangle)] entered at loop index [i]; the
    source's call starts at [i = 0]. *)
Fixpoint findAndFixFrom (fuel : nat) (h : Heap) (triangle : nat) (i : nat) : res Heap :=
  match fuel with
  | O => Timeout
  | S fuel =>
      let* tri := getTriangle h triangle in
      if decide (i < length (neighbors tri))%nat then
        match array_get (neighbors tri) i with
        | Some neighbor =>
            let* (fixed, h) := investigateAndFixTriangle h triangle neighbor in
            if fixed then
              let* h := findAndFixFrom fuel h neighbor 0 in
              findAndFixFrom fuel h triangle 0
            else findAndFixFrom fuel h triangle (S i)
        | None => findAndFixFrom fuel h triangle (S i)
        end
      else Ok h
  end.

Definition findAndFixViolatedTriangles (fuel : nat) (h : Heap) (triangle : nat) : res Heap :=
  findAndFixFrom fuel h triangle 0.

(** [new Triangle] allocates at the end of the arena. *)
Definition splitTriangle (fuel : nat) (h : Heap) (triangle : nat) (point : Vertex)
  : res (nat * Heap) :=
  let* tri := getTriangle h triangle in
  let pts := points tri in
  let nbs := neighbors tri in
  let* p0 := getPoint pts 0 in
  let* p1 := getPoint pts 1 in
  let* p2 := getPoint pts 2 in
  let triangle1 := length h in
  let triangle2 := S (length h) in
  let triangle3 := S (S (length h)) in
  let h := h ++ [newTriangle [p0; p1; point] [None; None; None];
                 newTriangle [point; p1; p2] [None; None; None];
                 newTriangle [p0; point; p2] [None; None; None]] in
  let* h := setNeighbor h triangle1 0 (array_get nbs 0) in
  let* h := setNeighbor h triangle1 1 (Some triangle2) in
  let* h := setNeighbor h triangle1 2 (Some triangle3) in
  let* nb := getNeighbor h triangle1 0 in
  let* h := replaceNeighbor h nb triangle triangle1 in
  let* h := setNeighbor h triangle2 0 (Some triangle1) in
  let* h := setNeighbor h triangle2 1 (array_get nbs 1) in
  let* h := setNeighbor h triangle2 2 (Some triangle3) in
  let* nb := getNeighbor h triangle2 1 in
  let* h := replaceNeighbor h nb triangle triangle2 in
  let* h := setNeighbor h triangle3 0 (Some triangle1) in
  let* h := setNeighbor h triangle3 1 (Some triangle2) in
  let* h := setNeighbor h triangle3 2 (array_get nbs 2) in
  let* nb := getNeighbor h triangle3 2 in
  let* h := replaceNeighbor h nb triangle triangle3 in
  let* h := findAndFixViolatedTriangles fuel h triangle1 in
  let* h := findAndFixViolatedTriangles fuel h triangle2 in
  let* h := findAndFixViolatedTriangles fuel h triangle3 in
  Ok (triangle1, h).

(** *** The engine *)

(** The [Delaunay] object together with the arena its cells live in.
    [searchId] is the field [this.search]; [console] collects the points
    reported through [console.log]. *)
Record Delaunay := mkDelaunay {
  point1 : Vertex;
  point2 : Vertex;
  point3 : Vertex;
  root : nat;
  searchId : nat;
  heap : Heap;
  console : list Vertex
}.

(** [new Delaunay(min_x, max_x, min_y, max_y)]; the three corner points are
    the objects with identities 0, 1 and 2. *)
Definition newDelaunay (min_x max_x min_y max_y : F) : Delaunay :=
  let slack := lit 1.5 in
  let center_x := (min_x + max_x) / lit 2 in
  let center_y := (min_y + max_y) / lit 2 in
  let rectangle_a := max_x - min_x in
  let rectangle_b := max_y - min_y in
  let rad := nsqrt (rectangle_a*rectangle_a + rectangle_b*rectangle_b) / lit 2 in
  let side := lit 6.0 * rad * slack / nsqrt (lit 3.0) in
  let height := side * nsqrt (lit 3.0) / lit 2 in
  let p1 := mkVertex 0 (mkPoint (center_x - side / lit 2) (center_y - rad) (lit 0)) in
  let p2 := mkVertex 1 (mkPoint center_x (center_y + height) (lit 0)) in
  let p3 := mkVertex 2 (mkPoint (center_x + side / lit 2) (center_y - rad) (lit 0)) in
  mkDelaunay p1 p2 p3 0 0 [newTriangle [p1; p2; p3] [None; None; None]] [].

(** One round of the loop of [Delaunay.prototype.insert]. *)
Definition insertPoint (fuel : nat) (d : Delaunay) (point : Vertex) : res Delaunay :=
  let s := searchId d in
  let* (triangle, h) := findContainingTriangle fuel s (Some (root d)) point (heap d) in
  match triangle with
  | Some t =>
      let* (r, h) := splitTriangle fuel h t point in
      Ok (mkDelaunay (point1 d) (point2 d) (point3 d) r (S s) h (console d))
  | None =>
      Ok (mkDelaunay (point1 d) (point2 d) (point3 d) (root d) (S s) h
                     (console d ++ [point]))
  end.

Fixpoint insertPoints (fuel : nat) (d : Delaunay) (pts : list Vertex) : res Delaunay :=
  match pts with
  | [] => Ok d
  | point :: pts =>
      let* d := insertPoint fuel d point in
      insertPoints fuel d pts
  end.

(** *** Harvest *)

(** [a.indexOf(p) < 0] *)
Definition notIn (pts : list Vertex) (p : Vertex) : bool :=
  match indexOf same_vertex pts p with
  | None => true
  | Some _ => false
  end.

(** The filter of [addTriangle]: none of the three initial forming points
    is a vertex of the cell. *)
Definition avoidsFormingPoints (d : Delaunay) (tri : Triangle) : bool :=
  notIn (points tri) (point1 d) && notIn (points tri) (point2 d)
  && notIn (points tri) (point3 d).

Definition addTriangle (d : Delaunay) (s : nat) (triangles : list nat) (h : Heap)
    (triangle : option nat) : res (bool * list nat * Heap) :=
  match triangle with
  | None => Ok (false, triangles, h)
  | Some t =>
      let* tri := getTriangle h t in
      if negb (stamped tri s) then
        let h := <[t := with_search tri (Some s)]> h in
        if avoidsFormingPoints d tri then Ok (true, triangles ++ [t], h)
        else Ok (false, triangles, h)
      else Ok (false, triangles, h)
  end.

(** The [for] loop of [addRoot]; [rec] is the recursive call. *)
Fixpoint addRootLoop (rec : list nat -> Heap -> option nat -> res (bool * list nat * Heap))
    (s : nat) (triangles : list nat) (h : Heap) (nbs : list (option nat))
  : res (bool * list nat * Heap) :=
  match nbs with
  | [] => Ok (false, triangles, h)
  | None :: nbs => addRootLoop rec s triangles h nbs
  | Some n :: nbs =>
      let* tn := getTriangle h n in
      if negb (stamped tn s) then
        let* (found, triangles, h) := rec triangles h (Some n) in
        if found then Ok (true, triangles, h)
        else addRootLoop rec s triangles h nbs
      else addRootLoop rec s triangles h nbs
  end.

Fixpoint addRoot (fuel : nat) (d : Delaunay) (s : nat) (triangles : list nat) (h : Heap)
    (rt : option nat) : res (bool * list nat * Heap) :=
  match fuel with
  | O => Timeout
  | S fuel =>
      let* (added, triangles, h) := addTriangle d s triangles h rt in
      if added then Ok (true, triangles, h)
      else
        match rt with
        | None => Ok (false, triangles, h)
        | Some r =>
            let* tri := getTriangle h r in
            addRootLoop (addRoot fuel d s) s triangles h (neighbors tri)
        end
  end.

Fixpoint addNeighborsLoop (d : Delaunay) (s : nat) (triangles : list nat) (h : Heap)
    (nbs : list (option nat)) : res (list nat * Heap) :=
  match nbs with
  | [] => Ok (triangles, h)
  | nb :: nbs =>
      let* (_, triangles, h) := addTriangle d s triangles h nb in
      addNeighborsLoop d s triangles h nbs
  end.

Definition addNeighbors (d : Delaunay) (s : nat) (triangles : list nat) (h : Heap)
    (triangle : nat) : res (list nat * Heap) :=
  let* tri := getTriangle h triangle in
  addNeighborsLoop d s triangles h (neighbors tri).

(** [for (var i = 0; i < triangles.length; i++)] of [collectTriangles]. *)
Fixpoint collectLoop (fuel : nat) (d : Delaunay) (s : nat) (i : nat) (triangles : list nat)
    (h : Heap) : res (list nat * Heap) :=
  match fuel with
  | O => Timeout
  | S fuel =>
      match triangles !! i with
      | None => Ok (triangles, h)
      | Some t =>
          let* (triangles, h) := addNeighbors d s triangles h t in
          collectLoop fuel d s (S i) triangles h
      end
  end.

Definition collectTriangles (fuel : nat) (d : Delaunay) (s : nat) (rt : option nat)
    (h : Heap) : res (list nat * Heap) :=
  let* (_, triangles, h) := addRoot fuel d s [] h rt in
  collectLoop fuel d s 0 triangles h.

Definition getTriangles (fuel : nat) (d : Delaunay) : res (list nat * Delaunay) :=
  let s := searchId d in
  let* (triangles, h) := collectTriangles fuel d s (Some (root d)) (heap d) in
  Ok (triangles,
      mkDelaunay (point1 d) (point2 d) (point3 d) (root d) (S s) h (console d)).

End Geometry.

Arguments Point F : clear implicits.
Arguments Vertex F : clear implicits.
Arguments Triangle F : clear implicits.
Arguments Queue A : clear implicits.
Arguments Delaunay F : clear implicits.

(** The arena: cell references are positions in this list. *)
Abbreviation Heap F := (list (Triangle F)).

Arguments mkPoint {F} _ _ _.
Arguments mkVertex {F} _ _.

(** ** queue.js, the sorted array

    The repository holds two texts named [queue.js]: the binary heap above
    and this earlier one, which keeps its array sorted and takes elements
    from the end. *)

Module SortedQueue.
Section SortedQueue.
Context {F : Type} {NF : Number F} {A : Type}.
Local Open Scope num_scope.
(** [this.compare]; the second argument is an array slot. *)
Variable compare : option A -> option A -> res F.

Record Queue := mkQueue { elements : list A }.

(** [new Queue(compare)] *)
Definition newQueue : Queue := mkQueue [].

(** [elements[i]] for a number [i]. *)
Definition nth_slot (elements : list A) (i : Z) : option A :=
  if (i <? 0)%Z then None else elements !! Z.to_nat i.

(** [while (true)] of [searchBinary]; [i] enters as the previous middle. *)
Fixpoint searchLoop (fuel : nat) (elements : list A) (element : A) (begin end_ i : Z)
  : res Z :=
  match fuel with
  | O => Timeout
  | S fuel =>
      let j := i in
      let i := (begin + (end_ - begin) / 2)%Z in
      let* c := compare (Some element) (nth_slot elements i) in
      if lit 0 < c then
        let begin := i in
        if (i =? j)%Z then Ok (if c < lit 0 then i else (i + 1)%Z)
        else searchLoop fuel elements element begin end_ i
      else if c < lit 0 then
        let end_ := i in
        if (i =? j)%Z then Ok (if c < lit 0 then i else (i + 1)%Z)
        else searchLoop fuel elements element begin end_ i
      else Ok i
  end.

(** The interval between [begin] and [end] at least halves in every round
    but possibly one, so [2 * length + 2] rounds are never used up. *)
Definition searchBinary (elements : list A) (element : A) : res Z :=
  if (Z.of_nat (length elements) <=? 0)%Z then Ok 0%Z
  else searchLoop (2 * length elements + 2) elements element
                  0 (Z.of_nat (length elements)) 0.

(** [a.splice(index, 0, v)]: a negative index counts from the end, and the
    start is clamped to the array. *)
Definition splice (a : list A) (index : Z) (v : A) : list A :=
  let len := Z.of_nat (length a) in
  let start := if (index <? 0)%Z then Z.max (len + index) 0 else Z.min index len in
  take (Z.to_nat start) a ++ v :: drop (Z.to_nat start) a.

Definition insert (q : Queue) (element : A) : res Queue :=
  let* index := searchBinary (elements q) element in
  Ok (mkQueue (splice (elements q) index element)).

(** [return this.elements.pop()] *)
Definition pop (q : Queue) : option A * Queue :=
  (last (elements q), mkQueue (removelast (elements q))).

Definition isEmpty (q : Queue) : bool := (length (elements q) =? 0)%nat.

End SortedQueue.
Arguments Queue A : clear implicits.
End SortedQueue.

(** ** triangulation.js over queue.js, the sorted array *)

Section SortedLocatorDefs.
Context {F : Type} {NF : Number F}.
Implicit Types (h : Heap F).

(** [findContainingTriangle] as it runs when the page loads the
    sorted-array [queue.js]: the text of the function is the same, only
    [new Queue], [insert], [pop] and [isEmpty] are the other file's. *)
Fixpoint enqueueNeighborsSorted (s : nat) (point : Point F) h (q : SortedQueue.Queue nat)
    (nbs : list (option nat)) : res (Heap F * SortedQueue.Queue nat) :=
  match nbs with
  | [] => Ok (h, q)
  | None :: nbs => enqueueNeighborsSorted s point h q nbs
  | Some n :: nbs =>
      let* tn := getTriangle h n in
      if negb (stamped tn s) then
        let h := <[n := with_search tn (Some s)]> h in
        let* q := SortedQueue.insert (compareTriangles h point) q n in
        enqueueNeighborsSorted s point h q nbs
      else enqueueNeighborsSorted s point h q nbs
  end.

Fixpoint findLoopSorted (fuel : nat) (s : nat) (point : Point F) h
    (q : SortedQueue.Queue nat) : res (option nat * Heap F) :=
  match fuel with
  | O => Timeout
  | S fuel =>
      if SortedQueue.isEmpty q then Ok (None, h)
      else
        let '(triangle, q) := SortedQueue.pop q in
        let* t := deref triangle in
        let* inside := containsPoint h t point in
        if inside then Ok (Some t, h)
        else
          let* tri := getTriangle h t in
          let* (h, q) := enqueueNeighborsSorted s point h q (neighbors tri) in
          findLoopSorted fuel s point h q
  end.

Definition findContainingTriangleSorted (fuel : nat) (s : nat) (root : option nat)
    (point : Point F) h : res (option nat * Heap F) :=
  match root with
  | None => Ok (None, h)
  | Some r =>
      let* tri := getTriangle h r in
      if stamped tri s then Ok (None, h)
      else
        let* q := SortedQueue.insert (compareTriangles h point) SortedQueue.newQueue r in
        findLoopSorted fuel s point h q
  end.

(** Cell [t] exists and has a first vertex: it can be compared. *)
Definition comparable h (t : nat) : Prop :=
  exists tri (p0 : Vertex F), h !! t = Some tri /\ points tri !! 0%nat = Some p0.

(** Every cell has a first vertex and links that refer to cells, and none
    contains [point]. *)
Definition nowhere (point : Point F) h : Prop :=
  forall t tri, h !! t = Some tri ->
    (exists p0 : Vertex F, points tri !! 0%nat = Some p0) /\
    (forall m, In (Some m) (neighbors tri) -> (m < length h)%nat) /\
    isPointInTriangle tri point = Ok false.

End SortedLocatorDefs.

(** ** Statements of the specification *)

Section Statements.
Context {F : Type} {NF : Number F}.
Local Open Scope num_scope.

(** The heuristic as the specification words it: the squared planar
    distance from [point] to the nearest of the cell's three vertices. *)
Definition nearestVertexDistance (point : Point F) (triangle : Triangle F) : res F :=
  let* p0 := getPoint (points triangle) 0 in
  let* p1 := getPoint (points triangle) 1 in
  let* p2 := getPoint (points triangle) 2 in
  let nmin (a b : F) := if a < b then a else b in
  Ok (nmin (nmin (calculateDistanceSquarePlane point p0)
                 (calculateDistanceSquarePlane point p1))
           (calculateDistanceSquarePlane point p2)).

(** [point] lies inside the circumcircle of cell [t] by the tolerance test
    of [investigateAndFixTriangle]: [d + eps * |d| < r^2]. *)
Definition insideCircumcircle (h : Heap F) (t : nat) (point : Point F) : res bool :=
  let* (d, h) := distanceToCircumcenter h t point in
  let* (r, h) := getRadius h t in
  Ok (strictlyLessThan d r).

(** Cell [u] can be reached from cell [t] over neighbour links. *)
Inductive reachableCell (h : Heap F) : nat -> nat -> Prop :=
| reach_here (t : nat) : reachableCell h t t
| reach_link (t n u : nat) (tri : Triangle F) :
    h !! t = Some tri -> In (Some n) (neighbors tri) ->
    reachableCell h n u -> reachableCell h t u.

(** The Delaunay property of the specification for the points [inserted]:
    for every cell reachable from the root and every inserted point, the
    point is a vertex of the cell (by identity) or the tolerance test does
    not place it inside the cell's circumcircle. *)
Definition delaunayProperty (d : Delaunay F) (inserted : list (Vertex F)) : Prop :=
  forall (t : nat) (tri : Triangle F) (p : Vertex F),
    reachableCell (heap d) (root d) t -> heap d !! t = Some tri -> In p inserted ->
    (exists q, In q (points tri) /\ vid q = vid p) \/
    insideCircumcircle (heap d) t p = Ok false.

(** How often the reference [a] occurs in a neighbour array. *)
Fixpoint occurrences (a : nat) (nbs : list (option nat)) : nat :=
  match nbs with
  | [] => 0
  | Some b :: nbs => ((if Nat.eqb a b then 1 else 0) + occurrences a nbs)%nat
  | None :: nbs => occurrences a nbs
  end.

(** Neighbour symmetry of the specification: whenever a reachable cell [a]
    has the cell [b] in one of its slots, [a] occurs exactly once among the
    neighbours of [b]. *)
Definition neighborSymmetry (d : Delaunay F) : Prop :=
  forall (a b : nat) (ta tb : Triangle F),
    reachableCell (heap d) (root d) a -> heap d !! a = Some ta ->
    In (Some b) (neighbors ta) -> heap d !! b = Some tb ->
    occurrences a (neighbors tb) = 1%nat.

(** Vertex identities of every cell of the arena. *)
Definition cellVertexIds (h : Heap F) : list (list nat) :=
  map (fun tri : Triangle F => map vid (points tri)) h.

End Statements.

(** ** Invariants and relations used in the proofs *)

Section Invariants.
Context {F : Type} {NF : Number F}.
Implicit Types (h k : Heap F) (d : Delaunay F) (tri : Triangle F).

(** A harvest pass with id [s] changes a cell at most by stamping it. *)
Definition restamped (s : nat) (a b : Triangle F) : Prop :=
  b = a \/ b = with_search a (Some s).

Definition restampedHeap (s : nat) h h' : Prop :=
  length h' = length h /\
  forall t a, h !! t = Some a -> exists b, h' !! t = Some b /\ restamped s a b.

(** Every harvested reference is a cell that avoids the forming points. *)
Definition harvestOk d h (triangles : list nat) : Prop :=
  forall t, In t triangles ->
    exists tri, h !! t = Some tri /\ avoidsFormingPoints d tri = true.

(** Cells not yet stamped with the id [s]: the measure of a harvest pass. *)
Fixpoint unstamped (s : nat) h : nat :=
  match h with
  | [] => 0
  | a :: h => ((if stamped a s then 0 else 1) + unstamped s h)%nat
  end.

(** The effect of a harvest step from [(triangles, h)] to [(triangles', h')]:
    cells are only stamped, harvested cells avoid the forming points, and
    every reference pushed pays with a cell that was unstamped. *)
Definition harvestStep d s (triangles : list nat) h (triangles' : list nat) h' : Prop :=
  restampedHeap s h h' /\
  (harvestOk d h triangles -> harvestOk d h' triangles') /\
  (length triangles' + unstamped s h' <= length triangles + unstamped s h)%nat.

(** A cell is in order: its neighbour references point into the arena and
    its stamp is the id of a search that has already started. *)
Definition cellOk (s n : nat) tri : Prop :=
  (forall m, In (Some m) (neighbors tri) -> (m < n)%nat) /\
  (forall s', search tri = Some s' -> (s' < s)%nat).

Definition wfHeap (s : nat) h : Prop :=
  forall t tri, h !! t = Some tri -> cellOk s (length h) tri.

Definition wfEngine d : Prop :=
  (root d < length (heap d))%nat /\ wfHeap (searchId d) (heap d).

(** An operation keeps the arena: same number of cells, and in order if it
    was. *)
Definition keeps (s : nat) h h' : Prop :=
  length h' = length h /\ (wfHeap s h -> wfHeap s h').

(** The states an engine can be observed in between public operations. *)
Inductive reachable : Delaunay F -> Prop :=
| reach_new (min_x max_x min_y max_y : F) :
    reachable (newDelaunay min_x max_x min_y max_y)
| reach_insert (fuel : nat) d (pts : list (Vertex F)) d' :
    reachable d -> insertPoints fuel d pts = Ok d' -> reachable d'
| reach_getTriangles (fuel : nat) d (triangles : list nat) d' :
    reachable d -> getTriangles fuel d = Ok (triangles, d') -> reachable d'.

(** Every neighbour reference points into the arena. *)
Definition linked h : Prop :=
  forall t tri, h !! t = Some tri ->
    forall m, In (Some m) (neighbors tri) -> (m < length h)%nat.

(** What entering [addRoot] at [rt] costs beyond the unstamped cells: the
    entry cell itself is only paid for when it is still unstamped. *)
Definition entryCost (s : nat) h (rt : option nat) : nat :=
  match rt with
  | Some r =>
      match h !! r with
      | Some tri => if stamped tri s then 1 else 0
      | None => 1
      end
  | None => 1
  end.

(** Two calls end the same way, with results related by [R]. *)
Definition sameOutcome {A B : Type} (R : A -> B -> Prop) (r1 : res A) (r2 : res B) : Prop :=
  match r1, r2 with
  | Ok a, Ok b => R a b
  | Fault, Fault => True
  | Timeout, Timeout => True
  | _, _ => False
  end.

(** Cell by cell the two arenas have the same vertices and links, and a
    cell counts as visited by pass [s1] in the first exactly when it counts
    as visited by pass [s2] in the second. *)
Definition agree (s1 s2 : nat) h k : Prop :=
  length h = length k /\
  forall t a, h !! t = Some a ->
    exists b, k !! t = Some b /\ points a = points b /\ neighbors a = neighbors b /\
              stamped a s1 = stamped b s2.

Definition agreeRoot (s1 s2 : nat) (x y : bool * list nat * Heap F) : Prop :=
  x.1.1 = y.1.1 /\ x.1.2 = y.1.2 /\ agree s1 s2 x.2 y.2.

Definition agreeList (s1 s2 : nat) (x y : list nat * Heap F) : Prop :=
  x.1 = y.1 /\ agree s1 s2 x.2 y.2.

(** The vertex triples of the harvested cells, in harvest order. *)
Definition harvestedTriples h (triangles : list nat) : list (list (Vertex F)) :=
  map (fun t => match h !! t with Some tri => points tri | None => [] end) triangles.

End Invariants.

(** ** Further invariants and relations used in the proofs *)

Section SearchInvariants.
Context {F : Type} {NF : Number F} {A : Type}.
Variable compare : option A -> option A -> res F.
Variable ord : A -> A -> Prop.

(** How far the loop of [searchBinary] is from returning: twice the width
    of the interval, plus one while the middle differs from the previous
    one. *)
Definition potential (begin end_ j : Z) : Z :=
  2 * (end_ - begin) + (if (begin + (end_ - begin) / 2 =? j)%Z then 0 else 1).

(** Every element before position [i] is below [element]; every element
    from position [i] on is above it. *)
Definition below (elements : list A) (element : A) (i : Z) : Prop :=
  forall (k : nat) x, (Z.of_nat k < i)%Z -> elements !! k = Some x -> ord x element.
Definition above (elements : list A) (element : A) (i : Z) : Prop :=
  forall (k : nat) x, (i <= Z.of_nat k)%Z -> elements !! k = Some x -> ord element x.

(** What the loop of [searchBinary] knows about the previous middle [j]:
    nothing in the first round, and afterwards which bound was moved to it
    and on which answer of the comparator. *)
Definition previous (elements : list A) (element : A) (begin end_ j : Z) : Prop :=
  (begin = 0 /\ j = 0)%Z \/
  (begin = j /\ exists c, compare (Some element) (SortedQueue.nth_slot elements j) = Ok c /\
                          nlt (nconst 0) c = true) \/
  (end_ = j /\ exists c, compare (Some element) (SortedQueue.nth_slot elements j) = Ok c /\
                         nlt (nconst 0) c = false).

End SearchInvariants.

Section HeapInvariants.
Context {A : Type}.

(** A rearrangement of the stored elements that leaves slot 0 alone. *)
Definition rearranged (els els' : list (option A)) : Prop :=
  els' ≡ₚ els /\ els' !! 0%nat = els !! 0%nat.

(** Every stored element from slot 2 on has its parent below it. *)
Definition heapOrdered (le : option A -> option A -> Prop) (els : list (option A)) : Prop :=
  forall i, (2 <= i < length els)%nat ->
            le (array_get els (parentIndex i)) (array_get els i).

End HeapInvariants.

Section MeshInvariants.
Context {F : Type} {NF : Number F}.
Implicit Types (h : Heap F) (d : Delaunay F) (tri : Triangle F).

(** A cell in good shape: three vertices, all of them in [P], three
    neighbour slots, and caches that hold what recomputing them gives. *)
Definition cellSound (P : Vertex F -> Prop) tri : Prop :=
  length (points tri) = 3%nat /\
  length (neighbors tri) = 3%nat /\
  Forall P (points tri) /\
  (forall c, center tri = Some c -> c = calculateCenter (points tri)) /\
  (forall c, circumcenter tri = Some c -> calculateCircumcentre (points tri) = Ok c) /\
  (forall r, radius tri = Some r ->
     exists (c : Point F) (p0 : Vertex F),
       calculateCircumcentre (points tri) = Ok c /\
       points tri !! 0%nat = Some p0 /\
       r = calculateDistanceSquarePlane c p0).

Definition soundHeap (P : Vertex F -> Prop) h : Prop :=
  forall t tri, h !! t = Some tri -> cellSound P tri.

(** What a harvest pass with id [s] has established so far: no reference
    was pushed twice, every pushed cell carries the stamp, and every
    stamped cell that avoids the forming points was pushed. *)
Definition harvested d (s : nat) (triangles : list nat) h : Prop :=
  NoDup triangles /\
  (forall t, In t triangles -> exists tri, h !! t = Some tri /\ stamped tri s = true) /\
  (forall t tri, h !! t = Some tri -> stamped tri s = true ->
                 avoidsFormingPoints d tri = true -> In t triangles).

(** Every neighbour of cell [t] carries the stamp [s]. *)
Definition expanded (s : nat) h (t : nat) : Prop :=
  exists tri, h !! t = Some tri /\
    forall n, In (Some n) (neighbors tri) ->
      exists tn, h !! n = Some tn /\ stamped tn s = true.

(** The vertices of cell [t], [[]] for a dangling reference. *)
Definition pointsOf h (t : nat) : list (Vertex F) :=
  match h !! t with Some tri => points tri | None => [] end.

(** The neighbour slots of cell [t], [[]] for a dangling reference. *)
Definition neighborsOf h (t : nat) : list (option nat) :=
  match h !! t with Some tri => neighbors tri | None => [] end.

End MeshInvariants.

(** A value that is NaN or an infinity. *)
Definition nonfinite (x : spec_float) : Prop :=
  match x with
  | S754_nan | S754_infinity _ => True
  | _ => False
  end.

(** [+Infinity] or NaN. *)
Definition unbounded (x : spec_float) : Prop :=
  match x with
  | S754_infinity false | S754_nan => True
  | _ => False
  end.

(** Inversion of a chain of binds that returned [Ok]. *)
Ltac res_inv H :=
  repeat
    (lazymatch type of H with
     | rbind ?m _ = Ok _ =>
         let E := fresh "E" in
         destruct m eqn:E; cbn [rbind] in H; [|discriminate H|discriminate H]
     | context [match ?x with pair _ _ => _ end] => is_var x; destruct x
     end).

(** Permutations of three elements. *)
Ltac perm_three :=
  first
    [ reflexivity
    | apply perm_swap
    | apply perm_skip; apply perm_swap
    | etrans; [apply perm_swap|apply perm_skip; apply perm_swap]
    | etrans; [apply perm_skip; apply perm_swap|apply perm_swap]
    | etrans; [apply perm_swap|]; etrans; [apply perm_skip; apply perm_swap|apply perm_swap] ].

(** ** Concrete engines (IEEE doubles) *)

Definition fpoint (a b c : Q) : Point float := mkPoint (nconst a) (nconst b) (nconst c).
Definition fvertex (i : nat) (a b c : Q) : Vertex float := mkVertex i (fpoint a b c).

(** [new Delaunay(0, 10, 0, 10)] *)
Definition engine10 : Delaunay float :=
  newDelaunay (nconst 0) (nconst 10) (nconst 0) (nconst 10).

(** The engine after [insert] of the given points (the engine itself when
    the call does not return normally). *)
Definition engineAfter (pts : list (Vertex float)) : Delaunay float :=
  match insertPoints 100 engine10 pts with
  | Ok d => d
  | _ => engine10
  end.

(** (5,5), then (5,7) on the edge from (5,5) to the apex. *)
Definition onEdgePoints : list (Vertex float) :=
  [fvertex 10 5 5 0; fvertex 11 5 7 0].
Definition engineOnEdge : Delaunay float :=
  Eval vm_compute in engineAfter onEdgePoints.

(** (5,5), then its neighbour one unit in the last place to the left. *)
Definition nearVertexPoints : list (Vertex float) :=
  [fvertex 10 5 5 0; fvertex 11 4.999999999999999 5 0].
Definition engineNearVertex : Delaunay float :=
  Eval vm_compute in engineAfter nearVertexPoints.

(** Four points inside the box, and the engine after their insertion and
    after one harvest. *)
Definition fourPoints : list (Vertex float) :=
  [fvertex 10 5 5 0; fvertex 11 1 1 0; fvertex 12 9 1 0; fvertex 13 5 9 0].
Definition engineFour : Delaunay float :=
  Eval vm_compute in engineAfter fourPoints.
Definition engineFourHarvested : Delaunay float :=
  Eval vm_compute in
    match getTriangles 15 engineFour with
    | Ok (_, d) => d
    | _ => engineFour
    end.

(** Two cells on the two sides of the edge between vertices 1 and 2, and
    the arena after their flip. *)
Definition flipHeap : Heap float :=
  [newTriangle [fvertex 3 0 0 0; fvertex 1 0 4 0; fvertex 2 4 0 0] [None; Some 1%nat; None];
   newTriangle [fvertex 4 4 4 0; fvertex 2 4 0 0; fvertex 1 0 4 0] [None; Some 0%nat; None]].
Definition flippedHeap : Heap float :=
  Eval vm_compute in match flip flipHeap 0 1 with Ok h => h | _ => [] end.

(** The comparator of the file's own (disabled) test, [n1 - n2], on the
    numbers 0 and 1, and the order it stands for. *)
Definition compareBits (a b : option bool) : res float :=
  let* x := deref a in
  let* y := deref b in
  Ok (float_of_Z (Z.b2z x) - float_of_Z (Z.b2z y))%num.

Definition leBits (a b : option bool) : Prop :=
  match a, b with
  | Some x, Some y => implb x y = true
  | _, _ => False
  end.

(** * Theorems *)

(** ** The locator's heuristic (C5) *)

Section Heuristic.
Context {F : Type} {NF : Number F}.

Lemma minimalDistance_loop_keeps (point : Point F) (pts : list (Vertex F)) (m : F) :
  fold_left
    (fun (minimal : F) (p : Vertex F) =>
       let distance := calculateDistanceSquarePlane point p in
       let distance := if nlt distance minimal then minimal else distance in
       minimal) pts m = m.
Proof. induction pts as [|p pts IH]; simpl; auto. Qed.

(** X2.  Whatever the other two vertices are, [minimalDistance] answers the
    distance to [points[0]]: the loop assigns to [distance], never to
    [minimal]. *)
Lemma minimalDistance_first_vertex (point : Point F) (triangle : Triangle F) (p0 : Vertex F) :
  points triangle !! 0%nat = Some p0 ->
  minimalDistance point triangle = Ok (calculateDistanceSquarePlane point p0).
Proof.
  intros H0. unfold minimalDistance, getPoint. rewrite H0.
  cbn [deref rbind]. f_equal.
  exact (minimalDistance_loop_keeps point (drop 1 (points triangle)) _).
Qed.

End Heuristic.

Lemma minimalDistance_first_vertex_witness :
  let triangle :=
    newTriangle [fvertex 10 3 0 0; fvertex 11 1 0 0; fvertex 12 2 0 0]
                [None; None; None] in
  points triangle !! 0%nat = Some (fvertex 10 3 0 0) /\
  minimalDistance (fpoint 0 0 0) triangle
  = Ok (calculateDistanceSquarePlane (fpoint 0 0 0) (fvertex 10 3 0 0)).
Proof.
  intros triangle. split; [reflexivity|].
  exact (minimalDistance_first_vertex (fpoint 0 0 0) triangle (fvertex 10 3 0 0) eq_refl).
Defined.

(** C5 (the code departs from the specification).  For the query point
    (0,0) and the cell with vertices (3,0), (1,0), (2,0) the nearest vertex
    is at squared distance 1, and [minimalDistance] returns 9, the distance
    to the first vertex. *)
Theorem minimalDistance_not_nearest_vertex :
  let point := fpoint 0 0 0 in
  let triangle :=
    newTriangle [fvertex 10 3 0 0; fvertex 11 1 0 0; fvertex 12 2 0 0]
                [None; None; None] in
  minimalDistance point triangle = Ok 9%float /\
  nearestVertexDistance point triangle = Ok 1%float.
Proof. vm_compute. split; reflexivity. Qed.

(** ** The priority queue (C4) *)

Section QueueFacts.
Context {F : Type} {NF : Number F} {A : Type}.
Variable compare : option A -> option A -> res F.

(** C4 (the code departs from the specification).  Inserting one element
    into a new queue and popping it returns that element, but the element
    is stored back at index 1: the queue still holds it and [isEmpty]
    answers [false]. *)
Theorem pop_single_leaves_queue_nonempty (e : A) :
  (let* q := insert compare newQueue e in
   let* (value, q') := pop compare q in
   Ok (value, elements q', isEmpty q')) = Ok (Some e, [None; Some e], false).
Proof. reflexivity. Qed.

(** Popping a queue whose only element is [e] is the identity on the
    queue. *)
Lemma pop_single_fixpoint (e : A) :
  pop compare (mkQueue [None; Some e]) = Ok (Some e, mkQueue [None; Some e]).
Proof. reflexivity. Qed.

End QueueFacts.

(** ** Arrays and the heap: lengths *)

Lemma array_set_length_lt {A} (a : list (option A)) (i : nat) (v : option A) :
  (i < length a)%nat -> length (array_set a i v) = length a.
Proof.
  intros Hi. unfold array_set. destruct (decide (i < length a)%nat); [|lia].
  apply length_insert.
Qed.

Lemma array_set_length_ge {A} (a : list (option A)) (i : nat) (v : option A) :
  (length a <= i)%nat -> length (array_set a i v) = S i.
Proof.
  intros Hi. unfold array_set. destruct (decide (i < length a)%nat); [lia|].
  rewrite !length_app, length_replicate. simpl. lia.
Qed.

Section QueueLengths.
Context {F : Type} {NF : Number F} {A : Type}.
Variable compare : option A -> option A -> res F.

Lemma swap_length (els : list (option A)) (lhs rhs : nat) :
  (lhs < length els)%nat -> (rhs < length els)%nat ->
  length (swap els lhs rhs) = length els.
Proof.
  intros Hl Hr. unfold swap.
  rewrite array_set_length_lt; rewrite array_set_length_lt; auto.
Qed.

Lemma cascadeUp_length (fuel : nat) :
  forall (els els' : list (option A)) (index : nat),
    (index < length els)%nat ->
    cascadeUp compare fuel els index = Ok els' ->
    length els' = length els.
Proof.
  induction fuel as [|fuel IH]; intros els els' index Hi; simpl; [discriminate|].
  destruct (decide (1 < index)%nat) as [Hgt|Hle]; [|intros [= <-]; reflexivity].
  destruct (less compare els index (parentIndex index)) as [b| |]; simpl; try discriminate.
  assert (Hp : (parentIndex index < index)%nat).
  { unfold parentIndex. apply Nat.div_lt; lia. }
  destruct b; [|intros [= <-]; reflexivity].
  intros Hc. apply IH in Hc.
  - rewrite Hc. apply swap_length; lia.
  - rewrite swap_length; lia.
Qed.

Lemma cascadeDownLoop_length (fuel : nat) :
  forall (els els' : list (option A)) (index : nat),
    (index < length els)%nat ->
    cascadeDownLoop compare fuel (Z.of_nat (length els) - 1) els index = Ok els' ->
    length els' = length els.
Proof.
  induction fuel as [|fuel IH]; intros els els' index Hi; simpl; [discriminate|].
  set (size := (Z.of_nat (length els) - 1)%Z).
  assert (Hstep : forall m, (Z.of_nat m <= size)%Z ->
    (let* b := less compare els index m in
     if negb b then cascadeDownLoop compare fuel size (swap els m index) m else Ok els)
    = Ok els' -> length els' = length els).
  { intros m Hm. destruct (less compare els index m) as [b| |]; simpl; try discriminate.
    destruct b; simpl; [intros [= <-]; reflexivity|].
    assert (Hml : (m < length els)%nat) by (unfold size in Hm; lia).
    intros Hc. assert (Hlen : length (swap els m index) = length els)
      by (apply swap_length; lia).
    unfold size in Hc. rewrite <- Hlen in Hc. apply IH in Hc; [congruence|lia]. }
  destruct (decide (Z.of_nat (rightChildIndex index) <= size)%Z) as [Hr|Hr].
  - destruct (less compare els (leftChildIndex index) (rightChildIndex index))
      as [b| |]; simpl; try discriminate.
    apply Hstep. destruct b; [unfold leftChildIndex, rightChildIndex in *; lia|exact Hr].
  - destruct (decide (Z.of_nat (leftChildIndex index) <= size)%Z) as [Hl|Hl]; simpl.
    + apply Hstep. exact Hl.
    + intros [= <-]; reflexivity.
Qed.

Lemma insert_length (q q' : Queue A) (e : A) :
  insert compare q e = Ok q' ->
  length (elements q') = S (length (elements q)).
Proof.
  unfold insert.
  destruct (cascadeUp compare (S (length (elements q))) (elements q ++ [Some e])
              (length (elements q))) as [els| |] eqn:Hc; simpl; try discriminate.
  intros [= <-]. simpl. apply cascadeUp_length in Hc.
  - rewrite Hc, length_app. simpl. lia.
  - rewrite length_app. simpl. lia.
Qed.

(** [pop] never takes a queue below one stored element: with two or more
    it removes one, with exactly one it puts the element back. *)
Lemma pop_length (q q' : Queue A) (value : option A) :
  (2 <= length (elements q))%nat ->
  pop compare q = Ok (value, q') ->
  length (elements q') = Nat.max 2 (length (elements q) - 1).
Proof.
  intros Hlen. unfold pop, array_pop.
  set (rest := removelast (elements q)).
  assert (Hrest : length rest = (length (elements q) - 1)%nat).
  { unfold rest. destruct (elements q) as [|x l] using rev_ind; [simpl in Hlen; lia|].
    rewrite removelast_last, length_app. simpl. lia. }
  set (els := array_set rest 1 (mjoin (last (elements q)))).
  assert (Hels : length els = Nat.max 2 (length (elements q) - 1)).
  { unfold els. destruct (decide (1 < length rest)%nat).
    - rewrite array_set_length_lt by lia. lia.
    - rewrite array_set_length_ge by lia. lia. }
  unfold cascadeDown.
  destruct (cascadeDownLoop compare (S (length els)) (Z.of_nat (length els) - 1) els 1)
    as [els'| |] eqn:Hc; simpl; try discriminate.
  intros [= _ <-]. simpl. apply cascadeDownLoop_length in Hc; [congruence|lia].
Qed.

(** X3.  [pop] on a queue that is not empty leaves a queue that is not
    empty: [isEmpty] can never become true again once an element has been
    inserted. *)
Theorem pop_never_empties (q q' : Queue A) (value : option A) :
  isEmpty q = false ->
  pop compare q = Ok (value, q') ->
  isEmpty q' = false.
Proof.
  unfold isEmpty. intros Hq Hpop.
  apply Nat.leb_gt in Hq. apply pop_length in Hpop; [|lia].
  apply Nat.leb_gt. lia.
Qed.

End QueueLengths.

Lemma pop_never_empties_witness :
  let compare (a b : option nat) : res float :=
    let* x := deref a in
    let* y := deref b in
    Ok (float_of_Z (Z.of_nat x) - float_of_Z (Z.of_nat y))%num in
  let q := mkQueue [None; Some 3; Some 7]%nat in
  isEmpty q = false /\
  pop compare q = Ok (Some 3%nat, mkQueue [None; Some 7%nat]) /\
  isEmpty (mkQueue [None; Some 7%nat]) = false.
Proof.
  intros compare q.
  assert (H1 : isEmpty q = false) by reflexivity.
  assert (H2 : pop compare q = Ok (Some 3%nat, mkQueue [None; Some 7%nat]))
    by (vm_compute; reflexivity).
  split; [exact H1|]. split; [exact H2|].
  exact (pop_never_empties compare q _ _ H1 H2).
Defined.

(** ** Point location (C3) *)

Section Locator.
Context {F : Type} {NF : Number F}.

Lemma enqueueNeighbors_queue_grows (s : nat) (point : Point F) (nbs : list (option nat)) :
  forall (h h' : Heap F) (q q' : Queue nat),
    enqueueNeighbors s point h q nbs = Ok (h', q') ->
    (length (elements q) <= length (elements q'))%nat.
Proof.
  induction nbs as [|[n|] nbs IH]; intros h h' q q'; simpl.
  - intros [= _ <-]. lia.
  - destruct (getTriangle h n) as [tn| |]; simpl; try discriminate.
    destruct (stamped tn s); simpl; [apply IH|].
    match goal with |- context [insert ?c q n] => destruct (insert c q n) as [q1| |] eqn:Hq end;
      simpl; try discriminate.
    intros Hrec. apply IH in Hrec. apply insert_length in Hq. lia.
  - apply IH.
Qed.

(** Once the queue holds an element the loop can only leave through the
    [return triangle] of a containing cell: [isEmpty] never becomes true. *)
Lemma findLoop_never_exhausts (fuel : nat) (s : nat) (point : Point F) :
  forall (h h' : Heap F) (q : Queue nat) (r : option nat),
    (2 <= length (elements q))%nat ->
    findLoop fuel s point h q = Ok (r, h') ->
    is_Some r.
Proof.
  induction fuel as [|fuel IH]; intros h h' q r Hlen; simpl; [discriminate|].
  unfold isEmpty. destruct (Nat.leb_spec (length (elements q)) 1); [exfalso; lia|].
  destruct (pop (compareTriangles h point) q) as [[value q1]| |] eqn:Hpop;
    simpl; try discriminate.
  apply pop_length in Hpop; [|lia].
  destruct (deref value) as [t| |]; simpl; try discriminate.
  destruct (containsPoint h t point) as [[|]| |]; simpl; try discriminate.
  - intros [= <- _]. eauto.
  - destruct (getTriangle h t) as [tri| |]; simpl; try discriminate.
    destruct (enqueueNeighbors s point h q1 (neighbors tri)) as [[h2 q2]| |] eqn:Henq;
      simpl; try discriminate.
    apply enqueueNeighbors_queue_grows in Henq.
    apply IH. lia.
Qed.

(** X1.  [findContainingTriangle] answers "not found" only through its
    entry guard (a [null] root or a root already stamped with this search
    id): once the loop is entered, a call that returns returns a cell. *)
Lemma findContainingTriangle_null_only_at_entry (fuel s : nat) (root : option nat)
    (point : Point F) (h h' : Heap F) :
  findContainingTriangle fuel s root point h = Ok (None, h') ->
  root = None \/
  exists r tri, root = Some r /\ h !! r = Some tri /\ stamped tri s = true.
Proof.
  unfold findContainingTriangle. destruct root as [r|]; [|auto].
  unfold getTriangle. destruct (h !! r) as [tri|] eqn:Hr; simpl; [|discriminate].
  destruct (stamped tri s) eqn:Hs; [eauto 6|].
  change (insert (compareTriangles h point) newQueue r)
    with (Ok (mkQueue [None; Some r])).
  cbn [rbind]. intros Hloop.
  apply findLoop_never_exhausts in Hloop; [|simpl; lia].
  destruct Hloop as [? [=]].
Qed.

Lemma enqueueNeighbors_all_stamped (s : nat) (point : Point F) (h : Heap F) (q : Queue nat)
    (nbs : list (option nat)) :
  (forall n, In (Some n) nbs -> exists tn, h !! n = Some tn /\ stamped tn s = true) ->
  enqueueNeighbors s point h q nbs = Ok (h, q).
Proof.
  induction nbs as [|[n|] nbs IH]; intros Hall; simpl; auto.
  - destruct (Hall n) as (tn & Hn & Hs); [now left|].
    unfold getTriangle. rewrite Hn. simpl. rewrite Hs. simpl.
    apply IH. intros m Hm. apply Hall. now right.
  - apply IH. intros m Hm. apply Hall. now right.
Qed.

(** A queue holding one cell that does not contain the point and has no
    unvisited neighbour: every round pops that cell, puts it back, and
    starts over. *)
Lemma findLoop_single_cell_diverges (fuel s : nat) (point : Point F) (h : Heap F)
    (t : nat) (tri : Triangle F) :
  h !! t = Some tri ->
  isPointInTriangle tri point = Ok false ->
  (forall n, In (Some n) (neighbors tri) ->
             exists tn, h !! n = Some tn /\ stamped tn s = true) ->
  findLoop fuel s point h (mkQueue [None; Some t]) = Timeout.
Proof.
  intros Ht Hin Hnb. induction fuel as [|fuel IH]; [reflexivity|].
  cbn [findLoop]. change (isEmpty (mkQueue [None; Some t])) with false. cbv iota.
  rewrite pop_single_fixpoint. cbn [rbind deref].
  unfold containsPoint, getTriangle. rewrite Ht. cbn [rbind deref].
  rewrite Hin. cbn [rbind].
  rewrite enqueueNeighbors_all_stamped by exact Hnb. cbn [rbind].
  exact IH.
Qed.

End Locator.

Lemma findContainingTriangle_null_only_at_entry_witness :
  let h := [with_search (newTriangle [fvertex 0 0 0 0; fvertex 1 4 8 0; fvertex 2 8 0 0]
                                     [None; None; None]) (Some 3%nat)] in
  findContainingTriangle 5 3 (Some 0%nat) (fpoint 20 20 0) h = Ok (None, h) /\
  (Some 0%nat = None \/
   exists r tri, Some 0%nat = Some r /\ h !! r = Some tri /\ stamped tri 3 = true).
Proof.
  intros h.
  assert (H : findContainingTriangle 5 3 (Some 0%nat) (fpoint 20 20 0) h = Ok (None, h))
    by reflexivity.
  split; [exact H|].
  exact (findContainingTriangle_null_only_at_entry 5 3 (Some 0%nat) (fpoint 20 20 0) h h H).
Defined.

(** C3 (the code departs from the specification).  On the engine just
    built for the box (0,10) x (0,10), locating the point (50,50), which no
    cell contains, never returns: whatever the number of loop rounds
    allowed, the search is still running, and so is the [insert] call that
    started it. *)
Theorem findContainingTriangle_diverges_outside :
  forall fuel : nat,
    findContainingTriangle fuel 0 (Some (root engine10)) (fvertex 10 50 50 0)
                           (heap engine10) = Timeout /\
    insertPoint fuel engine10 (fvertex 10 50 50 0) = Timeout.
Proof.
  intros fuel.
  assert (H : findContainingTriangle fuel 0 (Some (root engine10)) (fvertex 10 50 50 0)
                (heap engine10) = Timeout).
  { unfold findContainingTriangle.
    change (getTriangle (heap engine10) (root engine10))
      with (Ok (newTriangle [point1 engine10; point2 engine10; point3 engine10]
                            [None; None; None])).
    cbn [rbind stamped search newTriangle].
    change (insert _ newQueue (root engine10)) with (Ok (mkQueue [None; Some 0%nat])).
    cbn [rbind].
    eapply findLoop_single_cell_diverges.
    - reflexivity.
    - vm_compute. reflexivity.
    - intros n [Hn|[Hn|[Hn|[]]]]; discriminate. }
  split; [exact H|].
  unfold insertPoint. change (searchId engine10) with 0%nat.
  rewrite H. reflexivity.
Qed.

(** ** Harvest: what [getTriangles] returns (C10) *)

Section Harvest.
Context {F : Type} {NF : Number F}.
Implicit Types (h : Heap F) (d : Delaunay F) (tri : Triangle F).

Lemma restamped_points s (a b : Triangle F) : restamped s a b -> points b = points a.
Proof. intros [->| ->]; reflexivity. Qed.

Lemma restamped_neighbors s (a b : Triangle F) :
  restamped s a b -> neighbors b = neighbors a.
Proof. intros [->| ->]; reflexivity. Qed.

Lemma restampedHeap_refl s h : restampedHeap s h h.
Proof. split; [reflexivity|]. intros t a Ha. exists a. split; [exact Ha|now left]. Qed.

Lemma restampedHeap_trans s h1 h2 h3 :
  restampedHeap s h1 h2 -> restampedHeap s h2 h3 -> restampedHeap s h1 h3.
Proof.
  intros [L12 H12] [L23 H23]. split; [congruence|].
  intros t a Ha. destruct (H12 t a Ha) as (b & Hb & Rab).
  destruct (H23 t b Hb) as (c & Hc & Rbc). exists c. split; [exact Hc|].
  destruct Rab as [->| ->]; [exact Rbc|].
  destruct Rbc as [->| ->]; right; reflexivity.
Qed.

Lemma restampedHeap_stamp s h t tri :
  h !! t = Some tri -> restampedHeap s h (<[t := with_search tri (Some s)]> h).
Proof.
  intros Ht. split; [apply length_insert|].
  intros u a Hu. destruct (decide (t = u)) as [->|Hne].
  - exists (with_search tri (Some s)). split.
    + apply list_lookup_insert_eq. eapply lookup_lt_Some; eauto.
    + right. congruence.
  - exists a. split; [rewrite list_lookup_insert_ne; auto|now left].
Qed.

Lemma harvestOk_restamped d s h h' triangles :
  restampedHeap s h h' -> harvestOk d h triangles -> harvestOk d h' triangles.
Proof.
  intros [_ Hr] Hok t Ht. destruct (Hok t Ht) as (tri & Htri & Hav).
  destruct (Hr t tri Htri) as (b & Hb & Rb). exists b. split; [exact Hb|].
  unfold avoidsFormingPoints in *. rewrite (restamped_points _ _ _ Rb). exact Hav.
Qed.

Lemma unstamped_stamp s h : forall t tri,
  h !! t = Some tri -> stamped tri s = false ->
  S (unstamped s (<[t := with_search tri (Some s)]> h)) = unstamped s h.
Proof.
  induction h as [|a h IH]; intros [|t] tri; simpl; try discriminate.
  - intros [= ->] ->. unfold stamped at 1. simpl. rewrite Nat.eqb_refl. reflexivity.
  - intros Ht Hs. rewrite <- (IH t tri Ht Hs). destruct (stamped a s); simpl; lia.
Qed.

Lemma unstamped_le_length s h : (unstamped s h <= length h)%nat.
Proof. induction h as [|a h IH]; simpl; [lia|]. destruct (stamped a s); lia. Qed.

Lemma harvestStep_refl d s triangles h : harvestStep d s triangles h triangles h.
Proof. split; [apply restampedHeap_refl|split; [auto|lia]]. Qed.

Lemma harvestStep_trans d s t1 h1 t2 h2 t3 h3 :
  harvestStep d s t1 h1 t2 h2 -> harvestStep d s t2 h2 t3 h3 ->
  harvestStep d s t1 h1 t3 h3.
Proof.
  intros (R12 & O12 & M12) (R23 & O23 & M23).
  split; [eapply restampedHeap_trans; eauto|split; [auto|lia]].
Qed.

Lemma addTriangle_step d s triangles h (t : option nat) b triangles' h' :
  addTriangle d s triangles h t = Ok (b, triangles', h') ->
  harvestStep d s triangles h triangles' h'.
Proof.
  unfold addTriangle. destruct t as [t|]; [|intros [= _ <- <-]; apply harvestStep_refl].
  unfold getTriangle. destruct (h !! t) as [tri|] eqn:Ht; simpl; [|discriminate].
  destruct (stamped tri s) eqn:Hst; simpl; [intros [= _ <- <-]; apply harvestStep_refl|].
  pose proof (restampedHeap_stamp s h t tri Ht) as Hr.
  pose proof (unstamped_stamp s h t tri Ht Hst) as Hm.
  destruct (avoidsFormingPoints d tri) eqn:Hav; intros [= _ <- <-].
  - split; [exact Hr|]. split; [|rewrite length_app; simpl; lia].
    intros Hok u Hu. apply in_app_or in Hu as [Hu|[<-|[]]].
    + apply (harvestOk_restamped d s h _ triangles Hr Hok u Hu).
    + exists (with_search tri (Some s)). split; [|exact Hav].
      apply list_lookup_insert_eq. eapply lookup_lt_Some; eauto.
  - split; [exact Hr|]. split; [|lia]. apply (harvestOk_restamped d s); exact Hr.
Qed.

Lemma addRootLoop_step d s
    (rec : list nat -> Heap F -> option nat -> res (bool * list nat * Heap F)) :
  (forall triangles h rt b triangles' h',
      rec triangles h rt = Ok (b, triangles', h') ->
      harvestStep d s triangles h triangles' h') ->
  forall (nbs : list (option nat)) triangles h b triangles' h',
    addRootLoop rec s triangles h nbs = Ok (b, triangles', h') ->
    harvestStep d s triangles h triangles' h'.
Proof.
  intros Hrec nbs. induction nbs as [|[n|] nbs IH]; intros triangles h b triangles' h'; simpl.
  - intros [= _ <- <-]. apply harvestStep_refl.
  - destruct (getTriangle h n) as [tn| |]; simpl; try discriminate.
    destruct (stamped tn s); simpl; [apply IH|].
    destruct (rec triangles h (Some n)) as [[[found trs1] h1]| |] eqn:Hr;
      simpl; try discriminate.
    apply Hrec in Hr. destruct found.
    + intros [= _ <- <-]. exact Hr.
    + intros Hl. apply IH in Hl. eapply harvestStep_trans; eauto.
  - apply IH.
Qed.

Lemma addRoot_step d s (fuel : nat) :
  forall triangles h rt b triangles' h',
    addRoot fuel d s triangles h rt = Ok (b, triangles', h') ->
    harvestStep d s triangles h triangles' h'.
Proof.
  induction fuel as [|fuel IH]; intros triangles h rt b triangles' h'; simpl;
    [discriminate|].
  destruct (addTriangle d s triangles h rt) as [[[added trs1] h1]| |] eqn:Ha;
    simpl; try discriminate.
  apply addTriangle_step in Ha. destruct added.
  - intros [= _ <- <-]. exact Ha.
  - destruct rt as [r|]; [|intros [= _ <- <-]; exact Ha].
    destruct (getTriangle h1 r) as [tri| |]; simpl; try discriminate.
    intros Hl. apply (addRootLoop_step d s _ IH) in Hl.
    eapply harvestStep_trans; eauto.
Qed.

Lemma addNeighborsLoop_step d s (nbs : list (option nat)) :
  forall triangles h triangles' h',
    addNeighborsLoop d s triangles h nbs = Ok (triangles', h') ->
    harvestStep d s triangles h triangles' h'.
Proof.
  induction nbs as [|nb nbs IH]; intros triangles h triangles' h'; simpl.
  - intros [= <- <-]. apply harvestStep_refl.
  - destruct (addTriangle d s triangles h nb) as [[[b trs1] h1]| |] eqn:Ha;
      simpl; try discriminate.
    apply addTriangle_step in Ha. intros Hl. apply IH in Hl.
    eapply harvestStep_trans; eauto.
Qed.

Lemma addNeighbors_step d s triangles h (t : nat) triangles' h' :
  addNeighbors d s triangles h t = Ok (triangles', h') ->
  harvestStep d s triangles h triangles' h'.
Proof.
  unfold addNeighbors. destruct (getTriangle h t) as [tri| |]; simpl; try discriminate.
  apply addNeighborsLoop_step.
Qed.

Lemma collectLoop_step d s (fuel : nat) :
  forall (i : nat) triangles h triangles' h',
    collectLoop fuel d s i triangles h = Ok (triangles', h') ->
    harvestStep d s triangles h triangles' h'.
Proof.
  induction fuel as [|fuel IH]; intros i triangles h triangles' h'; simpl; [discriminate|].
  destruct (triangles !! i) as [t|]; [|intros [= <- <-]; apply harvestStep_refl].
  destruct (addNeighbors d s triangles h t) as [[trs1 h1]| |] eqn:Ha;
    simpl; try discriminate.
  apply addNeighbors_step in Ha. intros Hl. apply IH in Hl.
  eapply harvestStep_trans; eauto.
Qed.

Lemma collectTriangles_step d s (fuel : nat) (rt : option nat) h triangles' h' :
  collectTriangles fuel d s rt h = Ok (triangles', h') ->
  harvestStep d s [] h triangles' h'.
Proof.
  unfold collectTriangles.
  destruct (addRoot fuel d s [] h rt) as [[[b trs1] h1]| |] eqn:Ha; simpl; try discriminate.
  apply addRoot_step in Ha. intros Hl. apply collectLoop_step in Hl.
  eapply harvestStep_trans; eauto.
Qed.

Lemma notIn_true (pts : list (Vertex F)) (p : Vertex F) :
  notIn pts p = true -> forall q, In q pts -> vid q <> vid p.
Proof.
  unfold notIn. induction pts as [|a pts IH]; simpl; [tauto|].
  unfold same_vertex at 1. destruct (Nat.eqb_spec (vid a) (vid p)) as [|Hne]; [discriminate|].
  destruct (indexOf same_vertex pts p) eqn:Hi; simpl; [discriminate|].
  intros _ q [<-|Hq]; [exact Hne|]. apply IH; auto.
Qed.

End Harvest.

(** C10.  A freshly constructed engine harvests nothing, and no harvest of
    any engine ever contains a cell with one of the three forming points
    (compared by identity) among its vertices. *)
Theorem getTriangles_hides_forming_points :
  (forall (F : Type) (NF : Number F) (min_x max_x min_y max_y : F) (fuel : nat),
      exists d', getTriangles (S fuel) (newDelaunay min_x max_x min_y max_y) = Ok ([], d')) /\
  (forall (F : Type) (NF : Number F) (fuel : nat) (d d' : Delaunay F) (triangles : list nat),
      getTriangles fuel d = Ok (triangles, d') ->
      forall t, In t triangles ->
        exists tri, heap d' !! t = Some tri /\
          forall p, In p (points tri) ->
            vid p <> vid (point1 d) /\ vid p <> vid (point2 d) /\ vid p <> vid (point3 d)).
Proof.
  split.
  - intros F NF min_x max_x min_y max_y fuel. eexists. reflexivity.
  - intros F NF fuel d d' triangles. unfold getTriangles.
    destruct (collectTriangles fuel d (searchId d) (Some (root d)) (heap d))
      as [[trs h]| |] eqn:Hc; simpl; try discriminate.
    intros [= <- <-]. simpl. apply collectTriangles_step in Hc as (_ & Hok & _).
    intros t Ht. destruct (Hok (fun _ (H : False) => match H with end) t Ht) as (tri & Htri & Hav).
    exists tri. split; [exact Htri|].
    unfold avoidsFormingPoints in Hav.
    apply andb_prop in Hav as [Hav H3]. apply andb_prop in Hav as [H1 H2].
    intros p Hp. repeat split; eapply notIn_true; eauto.
Qed.

(** ** Well-formed arenas *)

Section WellFormed.
Context {F : Type} {NF : Number F}.
Implicit Types (h : Heap F) (d : Delaunay F) (tri : Triangle F).

Lemma keeps_refl s h : keeps s h h.
Proof. split; auto. Qed.

Lemma keeps_trans s h1 h2 h3 : keeps s h1 h2 -> keeps s h2 h3 -> keeps s h1 h3.
Proof. intros [L1 W1] [L2 W2]. split; [congruence|auto]. Qed.

Lemma getTriangle_Ok h t tri :
  getTriangle h t = Ok tri -> h !! t = Some tri /\ (t < length h)%nat.
Proof.
  unfold getTriangle, deref. destruct (h !! t) as [a|] eqn:Ht; [|discriminate].
  intros [= <-]. split; [reflexivity|]. eapply lookup_lt_Some; eauto.
Qed.

Lemma cellOk_mono s s' n n' tri :
  (s <= s')%nat -> (n <= n')%nat -> cellOk s n tri -> cellOk s' n' tri.
Proof.
  intros Hs Hn [Hnb Hst]. split.
  - intros m Hm. specialize (Hnb m Hm). lia.
  - intros s0 H0. specialize (Hst s0 H0). lia.
Qed.

Lemma wfHeap_mono s s' h : (s <= s')%nat -> wfHeap s h -> wfHeap s' h.
Proof. intros Hs W t tri Ht. eapply cellOk_mono; eauto. Qed.

Lemma wfHeap_update s h t tri' :
  wfHeap s h -> cellOk s (length h) tri' -> wfHeap s (<[t := tri']> h).
Proof.
  intros W Hc u a Hu. rewrite length_insert.
  destruct (decide (t = u)) as [->|Hne].
  - assert (Hlt : (u < length h)%nat).
    { pose proof (lookup_lt_Some _ _ _ Hu) as Hlt. now rewrite length_insert in Hlt. }
    rewrite list_lookup_insert_eq in Hu by exact Hlt.
    now injection Hu as <-.
  - rewrite list_lookup_insert_ne in Hu by exact Hne. eauto.
Qed.

(** Overwriting a cell by one with the same links and an admissible stamp. *)
Lemma keeps_update s h t tri tri' :
  h !! t = Some tri ->
  neighbors tri' = neighbors tri ->
  (search tri' = search tri \/ exists s0, search tri' = Some s0 /\ (s0 < s)%nat) ->
  keeps s h (<[t := tri']> h).
Proof.
  intros Ht Hn Hs. split; [apply length_insert|].
  intros W. apply wfHeap_update; [exact W|].
  destruct (W t tri Ht) as [Hnb Hst]. split.
  - rewrite Hn. exact Hnb.
  - destruct Hs as [->|(s0 & -> & Hlt)]; [exact Hst|]. intros s' [= <-]. exact Hlt.
Qed.

Lemma array_get_In {A} (a : list (option A)) (i : nat) (x : A) :
  array_get a i = Some x -> In (Some x) a.
Proof.
  unfold array_get. destruct (a !! i) as [o|] eqn:Hi; simpl; [|discriminate].
  intros ->. apply list_elem_of_In. eapply list_elem_of_lookup_2; eauto.
Qed.

Lemma array_set_In {A} (a : list (option A)) (i : nat) (v : option A) (x : A) :
  In (Some x) (array_set a i v) -> v = Some x \/ In (Some x) a.
Proof.
  unfold array_set. destruct (decide (i < length a)%nat) as [Hi|Hi].
  - intros Hin. apply list_elem_of_In in Hin.
    apply list_elem_of_lookup in Hin as [j Hj].
    destruct (decide (i = j)) as [->|Hne].
    + rewrite list_lookup_insert_eq in Hj by exact Hi. injection Hj as ->. now left.
    + rewrite list_lookup_insert_ne in Hj by exact Hne. right.
      apply list_elem_of_In. eapply list_elem_of_lookup_2; eauto.
  - intros Hin. apply in_app_or in Hin as [Hin|Hin]; [now right|].
    apply in_app_or in Hin as [Hin|[Hin|[]]]; [|left; congruence].
    apply list_elem_of_In, elem_of_replicate in Hin as [[=] _].
Qed.

Lemma getCenter_keeps s h t c h' : getCenter h t = Ok (c, h') -> keeps s h h'.
Proof.
  unfold getCenter. intros H. res_inv H. apply getTriangle_Ok in E as [Ht _].
  destruct (center a); injection H as <- <-; [apply keeps_refl|].
  eapply keeps_update; eauto.
Qed.

Lemma getCircumcenter_keeps s h t c h' : getCircumcenter h t = Ok (c, h') -> keeps s h h'.
Proof.
  unfold getCircumcenter. intros H. res_inv H. apply getTriangle_Ok in E as [Ht _].
  destruct (circumcenter a); [injection H as <- <-; apply keeps_refl|].
  res_inv H. injection H as <- <-. eapply keeps_update; eauto.
Qed.

Lemma getRadius_keeps s h t r h' : getRadius h t = Ok (r, h') -> keeps s h h'.
Proof.
  unfold getRadius. intros H. res_inv H.
  destruct (radius a); [injection H as <- <-; apply keeps_refl|].
  res_inv H. injection H as <- <-.
  apply getCircumcenter_keeps with (s := s) in E0.
  apply getTriangle_Ok in E2 as [Ht _].
  eapply keeps_trans; [exact E0|]. eapply keeps_update; eauto.
Qed.

Lemma distanceToCircumcenter_keeps s h t (p : Point F) x h' :
  distanceToCircumcenter h t p = Ok (x, h') -> keeps s h h'.
Proof.
  unfold distanceToCircumcenter. intros H. res_inv H. injection H as <- <-.
  eapply getCircumcenter_keeps; eauto.
Qed.

Lemma setPoint_keeps s h t i (p : Vertex F) h' : setPoint h t i p = Ok h' -> keeps s h h'.
Proof.
  unfold setPoint. intros H. res_inv H. injection H as <-.
  apply getTriangle_Ok in E as [Ht _]. eapply keeps_update; eauto.
Qed.

Lemma setNeighbor_keeps s h t i (v : option nat) h' :
  setNeighbor h t i v = Ok h' ->
  length h' = length h /\
  (wfHeap s h -> (forall m, v = Some m -> (m < length h)%nat) -> wfHeap s h').
Proof.
  unfold setNeighbor. intros H. res_inv H. injection H as <-.
  apply getTriangle_Ok in E as [Ht _]. split; [apply length_insert|].
  intros W Hv. apply wfHeap_update; [exact W|].
  destruct (W t a Ht) as [Hnb Hst]. split; [|exact Hst].
  intros m Hm. simpl in Hm. apply array_set_In in Hm as [Hm|Hm]; auto.
Qed.

Lemma getNeighbor_valid s h t i (nb : option nat) :
  getNeighbor h t i = Ok nb -> wfHeap s h -> forall m, nb = Some m -> (m < length h)%nat.
Proof.
  unfold getNeighbor. intros H W m ->. res_inv H. injection H as H.
  apply getTriangle_Ok in E as [Ht _]. destruct (W t a Ht) as [Hnb _].
  apply Hnb. eapply array_get_In; eauto.
Qed.

Lemma replaceNeighbor_keeps s h (nb : option nat) (old new : nat) h' :
  replaceNeighbor h nb old new = Ok h' ->
  length h' = length h /\ (wfHeap s h -> (new < length h)%nat -> wfHeap s h').
Proof.
  unfold replaceNeighbor. destruct nb as [t|]; [|intros [= <-]; auto].
  intros H. res_inv H.
  destruct (indexOf _ (neighbors a) (Some old)) as [index|]; [|injection H as <-; auto].
  apply (setNeighbor_keeps s) in H as [L W]. split; [exact L|].
  intros W0 Hn. apply W; [exact W0|]. intros m [= <-]. exact Hn.
Qed.

End WellFormed.

Section Repair.
Context {F : Type} {NF : Number F}.
Implicit Types (h : Heap F) (d : Delaunay F) (tri : Triangle F).

Lemma flip_keeps s h (t1 t2 : nat) h' : flip h t1 t2 = Ok h' -> keeps s h h'.
Proof.
  unfold flip. intros H. res_inv H.
  pose proof (setPoint_keeps s _ _ _ _ _ E6) as [L6 W6].
  pose proof (setPoint_keeps s _ _ _ _ _ E9) as [L9 W9].
  pose proof (replaceNeighbor_keeps s _ _ _ _ _ E13) as [L13 W13].
  pose proof (setNeighbor_keeps s _ _ _ _ _ E14) as [L14 W14].
  pose proof (setNeighbor_keeps s _ _ _ _ _ E15) as [L15 W15].
  pose proof (replaceNeighbor_keeps s _ _ _ _ _ E17) as [L17 W17].
  pose proof (setNeighbor_keeps s _ _ _ _ _ E18) as [L18 W18].
  pose proof (setNeighbor_keeps s _ _ _ _ _ H) as [L19 W19].
  apply getTriangle_Ok in E as [_ B1]. apply getTriangle_Ok in E0 as [_ B2].
  apply getTriangle_Ok in E10 as [T10 _]. apply getTriangle_Ok in E11 as [T11 _].
  split; [congruence|]. intros V0.
  assert (V9 : wfHeap s a9) by auto.
  assert (V13 : wfHeap s a13) by (apply W13; [exact V9|lia]).
  assert (V14 : wfHeap s a14) by (apply W14; [exact V13|intros m [= <-]; lia]).
  assert (V15 : wfHeap s a15).
  { apply W15; [exact V14|]. intros m Hm. apply array_get_In in Hm.
    destruct (V9 t2 a11 T11) as [Hnb _]. specialize (Hnb m Hm). lia. }
  assert (V17 : wfHeap s a17) by (apply W17; [exact V15|lia]).
  assert (V18 : wfHeap s a18) by (apply W18; [exact V17|intros m [= <-]; lia]).
  apply W19; [exact V18|]. intros m Hm. apply array_get_In in Hm.
  destruct (V9 t1 a10 T10) as [Hnb _]. specialize (Hnb m Hm). lia.
Qed.

Lemma investigateLoop_keeps s (t n : nat) (pts : list (Vertex F)) :
  forall h b h', investigateLoop h t n pts = Ok (b, h') -> keeps s h h'.
Proof.
  induction pts as [|p pts IH]; intros h b h'; simpl.
  - intros [= _ <-]. apply keeps_refl.
  - intros H. res_inv H.
    apply (distanceToCircumcenter_keeps s) in E. apply (getRadius_keeps s) in E0.
    pose proof (keeps_trans _ _ _ _ E E0) as K.
    destruct (strictlyLessThan f f0).
    + res_inv H. injection H as _ <-. apply (flip_keeps s) in E1.
      eapply keeps_trans; eauto.
    + apply IH in H. eapply keeps_trans; eauto.
Qed.

Lemma investigateAndFixTriangle_keeps s h (t n : nat) b h' :
  investigateAndFixTriangle h t n = Ok (b, h') -> keeps s h h'.
Proof.
  unfold investigateAndFixTriangle. intros H. res_inv H.
  eapply investigateLoop_keeps; eauto.
Qed.

Lemma findAndFixFrom_keeps s (fuel : nat) :
  forall h (t i : nat) h', findAndFixFrom fuel h t i = Ok h' -> keeps s h h'.
Proof.
  induction fuel as [|fuel IH]; intros h t i h'; simpl; [discriminate|].
  intros H. res_inv H.
  destruct (decide (i < length (neighbors a))%nat); [|injection H as <-; apply keeps_refl].
  destruct (array_get (neighbors a) i) as [n|]; [|eapply IH; eauto].
  res_inv H. apply (investigateAndFixTriangle_keeps s) in E0. destruct b.
  - res_inv H. apply IH in E1. apply IH in H.
    eapply keeps_trans; [exact E0|]. eapply keeps_trans; eauto.
  - apply IH in H. eapply keeps_trans; eauto.
Qed.

(** [splitTriangle] adds exactly three cells (repair only rewrites cells in
    place) and returns the first of them. *)
Lemma splitTriangle_wf s (fuel : nat) h (t : nat) (p : Vertex F) (r : nat) h' :
  splitTriangle fuel h t p = Ok (r, h') ->
  r = length h /\ length h' = (length h + 3)%nat /\ (wfHeap s h -> wfHeap s h').
Proof.
  unfold splitTriangle, findAndFixViolatedTriangles. intros H. res_inv H.
  injection H as <- <-.
  set (h0 := h ++ _) in *.
  assert (L0 : length h0 = (length h + 3)%nat) by (unfold h0; rewrite length_app; reflexivity).
  pose proof (setNeighbor_keeps s _ _ _ _ _ E3) as [L3 W3].
  pose proof (setNeighbor_keeps s _ _ _ _ _ E4) as [L4 W4].
  pose proof (setNeighbor_keeps s _ _ _ _ _ E5) as [L5 W5].
  pose proof (replaceNeighbor_keeps s _ _ _ _ _ E7) as [L7 W7].
  pose proof (setNeighbor_keeps s _ _ _ _ _ E8) as [L8 W8].
  pose proof (setNeighbor_keeps s _ _ _ _ _ E9) as [L9 W9].
  pose proof (setNeighbor_keeps s _ _ _ _ _ E10) as [L10 W10].
  pose proof (replaceNeighbor_keeps s _ _ _ _ _ E12) as [L12 W12].
  pose proof (setNeighbor_keeps s _ _ _ _ _ E13) as [L13 W13].
  pose proof (setNeighbor_keeps s _ _ _ _ _ E14) as [L14 W14].
  pose proof (setNeighbor_keeps s _ _ _ _ _ E15) as [L15 W15].
  pose proof (replaceNeighbor_keeps s _ _ _ _ _ E17) as [L17 W17].
  pose proof (findAndFixFrom_keeps s _ _ _ _ _ E18) as [L18 W18].
  pose proof (findAndFixFrom_keeps s _ _ _ _ _ E19) as [L19 W19].
  pose proof (findAndFixFrom_keeps s _ _ _ _ _ E20) as [L20 W20].
  split; [reflexivity|]. split; [lia|]. intros V.
  apply getTriangle_Ok in E as [Ht _]. destruct (V t a Ht) as [Hnb _].
  assert (Hold : forall i m, array_get (neighbors a) i = Some m -> (m < length h)%nat).
  { intros i m Hm. apply Hnb. eapply array_get_In; eauto. }
  assert (V0 : wfHeap s h0).
  { intros u tri Hu. rewrite L0. unfold h0 in Hu.
    apply lookup_app_Some in Hu as [Hu|[_ Hu]].
    - eapply cellOk_mono; [reflexivity| |exact (V u tri Hu)]. lia.
    - assert (Hin : In tri
        [newTriangle [a0; a1; p] [None; None; None];
         newTriangle [p; a1; a2] [None; None; None];
         newTriangle [a0; p; a2] [None; None; None]]).
      { apply list_elem_of_In. eapply list_elem_of_lookup_2; eauto. }
      assert (Hnew : neighbors tri = [None; None; None] /\ search tri = None).
      { destruct Hin as [<-|[<-|[<-|[]]]]; auto. }
      destruct Hnew as [Hn Hs]. split.
      + rewrite Hn. intros m [|[|[|[]]]]; discriminate.
      + rewrite Hs. discriminate. }
  assert (V3 : wfHeap s a3).
  { apply W3; [exact V0|]. intros m Hm. apply Hold in Hm. lia. }
  assert (V4 : wfHeap s a4) by (apply W4; [exact V3|intros m [= <-]; lia]).
  assert (V5 : wfHeap s a5) by (apply W5; [exact V4|intros m [= <-]; lia]).
  assert (V7 : wfHeap s a7) by (apply W7; [exact V5|lia]).
  assert (V8 : wfHeap s a8) by (apply W8; [exact V7|intros m [= <-]; lia]).
  assert (V9 : wfHeap s a9).
  { apply W9; [exact V8|]. intros m Hm. apply Hold in Hm. lia. }
  assert (V10 : wfHeap s a10) by (apply W10; [exact V9|intros m [= <-]; lia]).
  assert (V12 : wfHeap s a12) by (apply W12; [exact V10|lia]).
  assert (V13 : wfHeap s a13) by (apply W13; [exact V12|intros m [= <-]; lia]).
  assert (V14 : wfHeap s a14) by (apply W14; [exact V13|intros m [= <-]; lia]).
  assert (V15 : wfHeap s a15).
  { apply W15; [exact V14|]. intros m Hm. apply Hold in Hm. lia. }
  assert (V17 : wfHeap s a17) by (apply W17; [exact V15|lia]).
  auto.
Qed.

End Repair.

(** ** Engine states *)

Section Engine.
Context {F : Type} {NF : Number F}.
Implicit Types (h : Heap F) (d : Delaunay F) (tri : Triangle F).

Lemma enqueueNeighbors_keeps s0 s (point : Point F) (nbs : list (option nat)) :
  (s0 < s)%nat ->
  forall h (q : Queue nat) h' q',
    enqueueNeighbors s0 point h q nbs = Ok (h', q') -> keeps s h h'.
Proof.
  intros Hs. induction nbs as [|[n|] nbs IH]; intros h q h' q'; simpl.
  - intros [= <- _]. apply keeps_refl.
  - intros H. res_inv H. destruct (stamped a s0); simpl in H; [eapply IH; eauto|].
    res_inv H. apply IH in H. apply getTriangle_Ok in E as [Hn _].
    eapply keeps_trans; [|exact H]. eapply keeps_update; eauto.
  - apply IH.
Qed.

Lemma findLoop_keeps s0 s (point : Point F) (fuel : nat) :
  (s0 < s)%nat ->
  forall h (q : Queue nat) r h', findLoop fuel s0 point h q = Ok (r, h') -> keeps s h h'.
Proof.
  intros Hs. induction fuel as [|fuel IH]; intros h q r h'; simpl; [discriminate|].
  destruct (isEmpty q); [intros [= _ <-]; apply keeps_refl|].
  intros H. res_inv H. destruct a0; [injection H as _ <-; apply keeps_refl|].
  res_inv H. apply (enqueueNeighbors_keeps s0 s) in E3; [|exact Hs].
  apply IH in H. eapply keeps_trans; eauto.
Qed.

Lemma findContainingTriangle_keeps s0 s (fuel : nat) (rt : option nat) (point : Point F)
    h r h' :
  (s0 < s)%nat ->
  findContainingTriangle fuel s0 rt point h = Ok (r, h') -> keeps s h h'.
Proof.
  intros Hs. unfold findContainingTriangle.
  destruct rt as [t|]; [|intros [= _ <-]; apply keeps_refl].
  intros H. res_inv H. destruct (stamped a s0); [injection H as _ <-; apply keeps_refl|].
  res_inv H. eapply findLoop_keeps; eauto.
Qed.

(** One round of [insert]: either the point was located and its cell was
    split (three more cells), or it was not and the point was logged. *)
Lemma insertPoint_effect (fuel : nat) d (point : Vertex F) d' :
  insertPoint fuel d point = Ok d' ->
  searchId d' = S (searchId d) /\
  point1 d' = point1 d /\ point2 d' = point2 d /\ point3 d' = point3 d /\
  (wfEngine d -> wfEngine d') /\
  ((console d' = console d /\ length (heap d') = (length (heap d) + 3)%nat) \/
   (console d' = console d ++ [point] /\ length (heap d') = length (heap d) /\
    root d' = root d)).
Proof.
  unfold insertPoint. intros H. res_inv H.
  apply (findContainingTriangle_keeps _ (S (searchId d))) in E as [L W]; [|lia].
  destruct o as [t|].
  - res_inv H. injection H as <-. simpl.
    apply (splitTriangle_wf (S (searchId d))) in E as (-> & L' & W').
    refine (conj eq_refl (conj eq_refl (conj eq_refl (conj eq_refl (conj _ _))))).
    + intros [Hr V]. split; simpl; [lia|].
      apply W', W. eapply wfHeap_mono; [|exact V]. lia.
    + left. split; [reflexivity|lia].
  - injection H as <-. simpl.
    refine (conj eq_refl (conj eq_refl (conj eq_refl (conj eq_refl (conj _ _))))).
    + intros [Hr V]. split; simpl; [lia|].
      apply W. eapply wfHeap_mono; [|exact V]. lia.
    + right. auto.
Qed.

Lemma insertPoints_wf (fuel : nat) (pts : list (Vertex F)) :
  forall d d', insertPoints fuel d pts = Ok d' -> wfEngine d -> wfEngine d'.
Proof.
  induction pts as [|p pts IH]; intros d d'; simpl.
  - intros [= <-]. auto.
  - intros H. res_inv H. intros W. eapply IH; [exact H|].
    apply insertPoint_effect in E. tauto.
Qed.

Lemma restampedHeap_wf s h h' : restampedHeap s h h' -> wfHeap s h -> wfHeap (S s) h'.
Proof.
  intros [L R] W t b Hb.
  assert (Hlt : (t < length h)%nat) by (rewrite <- L; eapply lookup_lt_Some; eauto).
  destruct (lookup_lt_is_Some_2 h t Hlt) as [a Ha].
  destruct (R t a Ha) as (b' & Hb' & Rab). rewrite Hb in Hb'. injection Hb' as <-.
  destruct (W t a Ha) as [Hnb Hst]. rewrite L. split.
  - rewrite (restamped_neighbors _ _ _ Rab). exact Hnb.
  - destruct Rab as [->| ->].
    + intros s' Hs'. specialize (Hst s' Hs'). lia.
    + simpl. intros s' [= <-]. lia.
Qed.

Lemma getTriangles_wf (fuel : nat) d (triangles : list nat) d' :
  getTriangles fuel d = Ok (triangles, d') -> wfEngine d -> wfEngine d'.
Proof.
  unfold getTriangles. intros H. res_inv H. injection H as <- <-.
  apply collectTriangles_step in E as (R & _ & _). intros [Hr W]. split; simpl.
  - destruct R as [L _]. lia.
  - eapply restampedHeap_wf; eauto.
Qed.

Lemma newDelaunay_wf (min_x max_x min_y max_y : F) :
  wfEngine (newDelaunay min_x max_x min_y max_y).
Proof.
  split; simpl; [lia|]. intros [|t] tri; simpl; [|discriminate].
  intros [= <-]. split; simpl.
  - intros m [|[|[|[]]]]; discriminate.
  - discriminate.
Qed.

Lemma reachable_wf d : reachable d -> wfEngine d.
Proof.
  induction 1 as [| fuel d pts d' _ IH H | fuel d trs d' _ IH H].
  - apply newDelaunay_wf.
  - eapply insertPoints_wf; eauto.
  - eapply getTriangles_wf; eauto.
Qed.

End Engine.

(** ** The harvest terminates *)

Section HarvestTotal.
Context {F : Type} {NF : Number F}.
Implicit Types (h : Heap F) (d : Delaunay F) (tri : Triangle F).

Lemma wfHeap_linked s h : wfHeap s h -> linked h.
Proof. intros W t tri Ht. exact (proj1 (W t tri Ht)). Qed.

Lemma restampedHeap_linked s h h' : restampedHeap s h h' -> linked h -> linked h'.
Proof.
  intros [L R] Hl t b Hb.
  assert (Hlt : (t < length h)%nat) by (rewrite <- L; eapply lookup_lt_Some; eauto).
  destruct (lookup_lt_is_Some_2 h t Hlt) as [a Ha].
  destruct (R t a Ha) as (b' & Hb' & Rab). rewrite Hb in Hb'. injection Hb' as <-.
  rewrite (restamped_neighbors _ _ _ Rab), L. exact (Hl t a Ha).
Qed.

Lemma restampedHeap_cons_inv s (a b : Triangle F) h h' :
  restampedHeap s (a :: h) (b :: h') -> restamped s a b /\ restampedHeap s h h'.
Proof.
  intros [L R]. split.
  - destruct (R 0%nat a eq_refl) as (b' & [= <-] & Rab). exact Rab.
  - split; [simpl in L; lia|]. intros t x Hx. exact (R (S t) x Hx).
Qed.

Lemma restampedHeap_unstamped s h : forall h',
  restampedHeap s h h' -> (unstamped s h' <= unstamped s h)%nat.
Proof.
  induction h as [|a h IH]; intros [|b h'] Hr; simpl; try lia.
  - destruct Hr as [L _]. simpl in L. lia.
  - apply restampedHeap_cons_inv in Hr as [Rab Hr]. specialize (IH h' Hr).
    destruct Rab as [->| ->]; [lia|].
    unfold stamped at 1. simpl. rewrite Nat.eqb_refl. destruct (stamped a s); lia.
Qed.

Lemma addTriangle_total d s (triangles : list nat) h (rt : option nat) :
  (forall r, rt = Some r -> (r < length h)%nat) ->
  exists out, addTriangle d s triangles h rt = Ok out.
Proof.
  intros Hv. unfold addTriangle. destruct rt as [r|]; [|eauto].
  destruct (lookup_lt_is_Some_2 h r (Hv r eq_refl)) as [tri Hr].
  unfold getTriangle. rewrite Hr. simpl.
  destruct (stamped tri s); simpl; [eauto|].
  destruct (avoidsFormingPoints d tri); eauto.
Qed.

Lemma addRootLoop_total d s
    (rec : list nat -> Heap F -> option nat -> res (bool * list nat * Heap F)) (f : nat) :
  (forall triangles h n tn,
      linked h -> h !! n = Some tn -> stamped tn s = false ->
      (unstamped s h <= f)%nat ->
      exists out, rec triangles h (Some n) = Ok out) ->
  (forall triangles h rt b triangles' h',
      rec triangles h rt = Ok (b, triangles', h') ->
      harvestStep d s triangles h triangles' h') ->
  forall (nbs : list (option nat)) triangles h,
    linked h -> (forall m, In (Some m) nbs -> (m < length h)%nat) ->
    (unstamped s h <= f)%nat ->
    exists out, addRootLoop rec s triangles h nbs = Ok out.
Proof.
  intros Hrec Hstep nbs. induction nbs as [|[n|] nbs IH]; intros triangles h Hl Hv Hm; simpl.
  - eauto.
  - destruct (lookup_lt_is_Some_2 h n (Hv n (or_introl eq_refl))) as [tn Hn].
    unfold getTriangle. rewrite Hn. simpl.
    destruct (stamped tn s) eqn:Hs; simpl.
    + apply IH; auto. intros m Hin. apply Hv. now right.
    + destruct (Hrec triangles h n tn Hl Hn Hs Hm) as [[[found trs1] h1] Hr].
      rewrite Hr. simpl. destruct found; [eauto|].
      apply Hstep in Hr as (R & _ & _).
      apply IH.
      * eapply restampedHeap_linked; eauto.
      * intros m Hin. rewrite (proj1 R). apply Hv. now right.
      * pose proof (restampedHeap_unstamped s h h1 R). lia.
  - apply IH; auto. intros m Hin. apply Hv. now right.
Qed.

Lemma addRoot_total d s (fuel : nat) :
  forall (triangles : list nat) h (rt : option nat),
    linked h -> (forall r, rt = Some r -> (r < length h)%nat) ->
    (unstamped s h + entryCost s h rt <= fuel)%nat ->
    exists out, addRoot fuel d s triangles h rt = Ok out.
Proof.
  induction fuel as [|f IH]; intros triangles h rt Hl Hv Hm.
  - exfalso. destruct rt as [r|]; simpl in Hm; [|lia].
    destruct (h !! r) as [tri|] eqn:Hr; [|lia].
    destruct (stamped tri s) eqn:Hs; [lia|].
    pose proof (unstamped_stamp s h r tri Hr Hs). lia.
  - assert (Hloop : forall nbs trs h0,
      linked h0 -> (forall m, In (Some m) nbs -> (m < length h0)%nat) ->
      (unstamped s h0 <= f)%nat ->
      exists out, addRootLoop (addRoot f d s) s trs h0 nbs = Ok out).
    { apply (addRootLoop_total d s (addRoot f d s) f).
      - intros trs h0 n tn Hl0 Hn Hs Hm0. apply IH; auto.
        + intros r [= <-]. eapply lookup_lt_Some; eauto.
        + simpl. rewrite Hn, Hs. lia.
      - intros trs h0 rt0 b trs' h'. apply addRoot_step. }
    simpl. destruct rt as [r|]; [|simpl; eauto].
    destruct (lookup_lt_is_Some_2 h r (Hv r eq_refl)) as [tri Hr].
    simpl in Hm. rewrite Hr in Hm.
    unfold addTriangle, getTriangle. rewrite Hr. simpl.
    destruct (stamped tri s) eqn:Hs; simpl.
    + rewrite Hr. simpl. apply Hloop; [exact Hl|exact (Hl r tri Hr)|lia].
    + destruct (avoidsFormingPoints d tri); simpl; [eauto|].
      rewrite list_lookup_insert_eq by (eapply lookup_lt_Some; eauto). simpl.
      pose proof (restampedHeap_stamp s h r tri Hr) as R.
      apply Hloop.
      * eapply restampedHeap_linked; eauto.
      * rewrite length_insert. exact (Hl r tri Hr).
      * pose proof (unstamped_stamp s h r tri Hr Hs). lia.
Qed.

Lemma addNeighborsLoop_total d s (nbs : list (option nat)) :
  forall (triangles : list nat) h,
    (forall m, In (Some m) nbs -> (m < length h)%nat) ->
    exists out, addNeighborsLoop d s triangles h nbs = Ok out.
Proof.
  induction nbs as [|nb nbs IH]; intros triangles h Hv; simpl; [eauto|].
  destruct (addTriangle_total d s triangles h nb) as [[[b trs1] h1] Ha].
  { intros r ->. apply Hv. now left. }
  rewrite Ha. simpl. apply addTriangle_step in Ha as (R & _ & _).
  apply IH. intros m Hin. rewrite (proj1 R). apply Hv. now right.
Qed.

Lemma collectLoop_total d s (fuel : nat) :
  forall (i : nat) (triangles : list nat) h,
    linked h -> harvestOk d h triangles ->
    (length triangles - i + unstamped s h < fuel)%nat ->
    exists out, collectLoop fuel d s i triangles h = Ok out.
Proof.
  induction fuel as [|f IH]; intros i triangles h Hl Hok Hm; [lia|].
  simpl. destruct (triangles !! i) as [t|] eqn:Hi; [|eauto].
  assert (Hin : In t triangles).
  { apply list_elem_of_In. eapply list_elem_of_lookup_2; eauto. }
  destruct (Hok t Hin) as (tri & Ht & _).
  destruct (addNeighborsLoop_total d s (neighbors tri) triangles h (Hl t tri Ht))
    as [[trs1 h1] Ha].
  assert (Hadd : addNeighbors d s triangles h t = Ok (trs1, h1)).
  { unfold addNeighbors, getTriangle. rewrite Ht. exact Ha. }
  rewrite Hadd. simpl. apply addNeighbors_step in Hadd as (R & O & M).
  pose proof (restampedHeap_unstamped s h h1 R) as U.
  pose proof (lookup_lt_Some _ _ _ Hi) as Hlt.
  apply IH; [eapply restampedHeap_linked; eauto|auto|lia].
Qed.

(** With fuel for two more rounds than there are cells, a harvest of a
    well-formed engine returns. *)
Lemma getTriangles_total (fuel : nat) d :
  wfEngine d -> (length (heap d) + 2 <= fuel)%nat ->
  exists triangles d', getTriangles fuel d = Ok (triangles, d').
Proof.
  intros [Hr W] Hf. pose proof (wfHeap_linked _ _ W) as Hl.
  unfold getTriangles, collectTriangles.
  pose proof (unstamped_le_length (searchId d) (heap d)) as Hu.
  destruct (addRoot_total d (searchId d) fuel [] (heap d) (Some (root d))) as [[[b trs1] h1] Ha].
  { exact Hl. }
  { intros r [= <-]. exact Hr. }
  { assert (entryCost (searchId d) (heap d) (Some (root d)) <= 1)%nat.
    { simpl. destruct (heap d !! root d) as [tri|]; [destruct (stamped tri _)|]; lia. }
    lia. }
  rewrite Ha. simpl. apply addRoot_step in Ha as (R & O & M).
  destruct (collectLoop_total d (searchId d) fuel 0 trs1 h1) as [[trs2 h2] Hc].
  { eapply restampedHeap_linked; eauto. }
  { apply O. intros t []. }
  { simpl in M. lia. }
  rewrite Hc. simpl. eauto.
Qed.

End HarvestTotal.

(** ** Two harvest passes in a row (C9) *)

Section HarvestTwice.
Context {F : Type} {NF : Number F}.
Implicit Types (h k : Heap F) (d : Delaunay F) (tri : Triangle F).

Lemma agreeRoot_intro s1 s2 (b : bool) (l : list nat) h k :
  agree s1 s2 h k -> agreeRoot s1 s2 (b, l, h) (b, l, k).
Proof. intros Hag. split; [reflexivity|split; [reflexivity|exact Hag]]. Qed.

Lemma agreeList_intro s1 s2 (l : list nat) h k :
  agree s1 s2 h k -> agreeList s1 s2 (l, h) (l, k).
Proof. intros Hag. split; [reflexivity|exact Hag]. Qed.

Lemma sameOutcome_bind {A B A' B' : Type} (R : A -> B -> Prop) (R' : A' -> B' -> Prop)
    (m1 : res A) (m2 : res B) (k1 : A -> res A') (k2 : B -> res B') :
  sameOutcome R m1 m2 ->
  (forall a b, R a b -> sameOutcome R' (k1 a) (k2 b)) ->
  sameOutcome R' (rbind m1 k1) (rbind m2 k2).
Proof. destruct m1, m2; simpl; auto; tauto. Qed.

Lemma agree_getTriangle s1 s2 h k (t : nat) :
  agree s1 s2 h k ->
  sameOutcome (fun a b => points a = points b /\ neighbors a = neighbors b /\
                          stamped a s1 = stamped b s2 /\
                          h !! t = Some a /\ k !! t = Some b)
              (getTriangle h t) (getTriangle k t).
Proof.
  intros [L R]. unfold getTriangle. destruct (h !! t) as [a|] eqn:Ha.
  - destruct (R t a Ha) as (b & Hb & ?). rewrite Hb. simpl. tauto.
  - apply lookup_ge_None in Ha. rewrite L in Ha. apply lookup_ge_None in Ha.
    rewrite Ha. exact I.
Qed.

Lemma agree_stamp s1 s2 h k (t : nat) (a b : Triangle F) :
  agree s1 s2 h k -> h !! t = Some a -> k !! t = Some b ->
  points a = points b -> neighbors a = neighbors b ->
  agree s1 s2 (<[t := with_search a (Some s1)]> h) (<[t := with_search b (Some s2)]> k).
Proof.
  intros [L R] Ha Hb Hp Hn. split; [rewrite !length_insert; exact L|].
  intros u x Hx. destruct (decide (t = u)) as [->|Hne].
  - rewrite list_lookup_insert_eq in Hx by (eapply lookup_lt_Some; eauto).
    injection Hx as <-. exists (with_search b (Some s2)).
    rewrite list_lookup_insert_eq by (eapply lookup_lt_Some; eauto).
    unfold stamped. simpl. rewrite !Nat.eqb_refl. auto.
  - rewrite list_lookup_insert_ne in Hx by exact Hne.
    rewrite list_lookup_insert_ne by exact Hne. auto.
Qed.

Variables (d1 d2 : Delaunay F) (s1 s2 : nat).
Hypothesis same_forming :
  point1 d1 = point1 d2 /\ point2 d1 = point2 d2 /\ point3 d1 = point3 d2.

Lemma avoidsFormingPoints_agree (a b : Triangle F) :
  points a = points b -> avoidsFormingPoints d1 a = avoidsFormingPoints d2 b.
Proof using same_forming.
  destruct same_forming as (E1 & E2 & E3). intros Hp.
  unfold avoidsFormingPoints. now rewrite Hp, E1, E2, E3.
Qed.

Lemma addTriangle_agree (triangles : list nat) h k (rt : option nat) :
  agree s1 s2 h k ->
  sameOutcome (agreeRoot s1 s2)
    (addTriangle d1 s1 triangles h rt) (addTriangle d2 s2 triangles k rt).
Proof using same_forming.
  intros Hag. unfold addTriangle.
  destruct rt as [t|]; [|simpl; apply agreeRoot_intro; exact Hag].
  eapply sameOutcome_bind; [apply agree_getTriangle; exact Hag|].
  intros a b (Hp & Hn & Hs & Ha & Hb). rewrite Hs.
  destruct (stamped b s2); cbn [negb]; [simpl; apply agreeRoot_intro; exact Hag|].
  rewrite (avoidsFormingPoints_agree a b Hp).
  destruct (avoidsFormingPoints d2 b); simpl; apply agreeRoot_intro;
    apply agree_stamp; auto.
Qed.

Lemma addRootLoop_agree
    (rec1 rec2 : list nat -> Heap F -> option nat -> res (bool * list nat * Heap F)) :
  (forall triangles h k rt, agree s1 s2 h k ->
      sameOutcome (agreeRoot s1 s2) (rec1 triangles h rt) (rec2 triangles k rt)) ->
  forall (nbs : list (option nat)) (triangles : list nat) h k,
    agree s1 s2 h k ->
    sameOutcome (agreeRoot s1 s2)
      (addRootLoop rec1 s1 triangles h nbs) (addRootLoop rec2 s2 triangles k nbs).
Proof.
  intros Hrec nbs. induction nbs as [|[n|] nbs IH]; intros triangles h k Hag; simpl.
  - apply agreeRoot_intro; exact Hag.
  - eapply sameOutcome_bind; [apply agree_getTriangle; exact Hag|].
    intros a b (Hp & Hn & Hs & Ha & Hb). rewrite Hs.
    destruct (stamped b s2); cbn [negb]; [apply IH; exact Hag|].
    eapply sameOutcome_bind; [apply Hrec; exact Hag|].
    intros [[f1 l1] h1] [[f2 l2] h2] (Ef & El & Hag'). simpl in *. subst f2 l2.
    destruct f1; [apply agreeRoot_intro; exact Hag'|]. apply IH. exact Hag'.
  - apply IH. exact Hag.
Qed.

Lemma addRoot_agree (fuel : nat) :
  forall (triangles : list nat) h k (rt : option nat),
    agree s1 s2 h k ->
    sameOutcome (agreeRoot s1 s2)
      (addRoot fuel d1 s1 triangles h rt) (addRoot fuel d2 s2 triangles k rt).
Proof using same_forming.
  induction fuel as [|fuel IH]; intros triangles h k rt Hag; simpl; [exact I|].
  eapply sameOutcome_bind; [apply addTriangle_agree; exact Hag|].
  intros [[f1 l1] h1] [[f2 l2] h2] (Ef & El & Hag'). simpl in *. subst f2 l2.
  destruct f1; [apply agreeRoot_intro; exact Hag'|].
  destruct rt as [r|]; [|apply agreeRoot_intro; exact Hag'].
  eapply sameOutcome_bind; [apply agree_getTriangle; exact Hag'|].
  intros a b (Hp & Hn & _). rewrite Hn.
  apply addRootLoop_agree; [exact IH|exact Hag'].
Qed.

Lemma addNeighborsLoop_agree (nbs : list (option nat)) :
  forall (triangles : list nat) h k,
    agree s1 s2 h k ->
    sameOutcome (agreeList s1 s2)
      (addNeighborsLoop d1 s1 triangles h nbs) (addNeighborsLoop d2 s2 triangles k nbs).
Proof using same_forming.
  induction nbs as [|nb nbs IH]; intros triangles h k Hag; simpl.
  - apply agreeList_intro; exact Hag.
  - eapply sameOutcome_bind; [apply addTriangle_agree; exact Hag|].
    intros [[f1 l1] h1] [[f2 l2] h2] (Ef & El & Hag'). simpl in *. subst f2 l2.
    apply IH. exact Hag'.
Qed.

Lemma collectLoop_agree (fuel : nat) :
  forall (i : nat) (triangles : list nat) h k,
    agree s1 s2 h k ->
    sameOutcome (agreeList s1 s2)
      (collectLoop fuel d1 s1 i triangles h) (collectLoop fuel d2 s2 i triangles k).
Proof using same_forming.
  induction fuel as [|fuel IH]; intros i triangles h k Hag; simpl; [exact I|].
  destruct (triangles !! i) as [t|]; [|apply agreeList_intro; exact Hag].
  eapply sameOutcome_bind with (R := agreeList s1 s2).
  - unfold addNeighbors.
    eapply sameOutcome_bind; [apply agree_getTriangle; exact Hag|].
    intros a b (Hp & Hn & _). rewrite Hn. apply addNeighborsLoop_agree. exact Hag.
  - intros [l1 h1] [l2 h2] (El & Hag'). simpl in *. subst l2. apply IH. exact Hag'.
Qed.

Lemma collectTriangles_agree (fuel : nat) (rt : option nat) h k :
  agree s1 s2 h k ->
  sameOutcome (agreeList s1 s2)
    (collectTriangles fuel d1 s1 rt h) (collectTriangles fuel d2 s2 rt k).
Proof using same_forming.
  intros Hag. unfold collectTriangles.
  eapply sameOutcome_bind; [apply addRoot_agree; exact Hag|].
  intros [[f1 l1] h1] [[f2 l2] h2] (Ef & El & Hag'). simpl in *. subst f2 l2.
  apply collectLoop_agree. exact Hag'.
Qed.

End HarvestTwice.

Section HarvestIdempotent.
Context {F : Type} {NF : Number F}.
Implicit Types (h k : Heap F) (d : Delaunay F) (tri : Triangle F).

(** After a pass with id [s] over an arena whose stamps are all older, no
    cell counts as visited by pass [S s]; before it none counted as visited
    by pass [s]. *)
Lemma restampedHeap_agree s h h' :
  wfHeap s h -> restampedHeap s h h' -> agree s (S s) h h'.
Proof.
  intros W [L R]. split; [congruence|].
  intros t a Ha. destruct (R t a Ha) as (b & Hb & Rab). exists b.
  destruct (W t a Ha) as [_ Hst].
  assert (Hold : forall x, stamped a x = true -> (x < s)%nat).
  { unfold stamped. destruct (search a) as [s'|]; [|discriminate].
    intros x Hx. apply Nat.eqb_eq in Hx as <-. auto. }
  assert (Ha0 : stamped a s = false).
  { destruct (stamped a s) eqn:E; [|reflexivity]. apply Hold in E. lia. }
  repeat split; auto.
  - symmetry. eapply restamped_points; eauto.
  - symmetry. eapply restamped_neighbors; eauto.
  - rewrite Ha0. symmetry. destruct Rab as [->| ->].
    + destruct (stamped a (S s)) eqn:E; [|reflexivity]. apply Hold in E. lia.
    + unfold stamped. simpl. apply Nat.eqb_neq. lia.
Qed.

Lemma restampedHeap_triples s h h' (triangles : list nat) :
  restampedHeap s h h' -> harvestedTriples h triangles = harvestedTriples h' triangles.
Proof.
  intros [L R]. unfold harvestedTriples. apply map_ext. intros t.
  destruct (h !! t) as [a|] eqn:Ha.
  - destruct (R t a Ha) as (b & -> & Rab). symmetry. eapply restamped_points; eauto.
  - apply lookup_ge_None in Ha. rewrite <- L in Ha. apply lookup_ge_None in Ha.
    now rewrite Ha.
Qed.

End HarvestIdempotent.

(** Two harvests in a row of an engine whose arena is in order (every link
    refers to a cell, every stamp is older than the engine's counter): both
    return, with the same cells in the same order and the same vertex
    triples. *)
Lemma getTriangles_twice_wf (F : Type) (NF : Number F) (d : Delaunay F) (fuel : nat) :
  wfEngine d ->
  (length (heap d) + 2 <= fuel)%nat ->
  exists (triangles : list nat) (d' d'' : Delaunay F),
    getTriangles fuel d = Ok (triangles, d') /\
    getTriangles fuel d' = Ok (triangles, d'') /\
    harvestedTriples (heap d') triangles = harvestedTriples (heap d'') triangles.
Proof.
  intros Hwf Hfuel.
  destruct (getTriangles_total fuel d Hwf Hfuel) as (trs & d' & H1).
  exists trs, d'. pose proof H1 as H1'. unfold getTriangles in H1'.
  destruct (collectTriangles fuel d (searchId d) (Some (root d)) (heap d))
    as [[l1 h1]| |] eqn:Hc1; simpl in H1'; try discriminate.
  injection H1' as -> <-.
  pose proof (collectTriangles_step _ _ _ _ _ _ _ Hc1) as (R1 & _ & _).
  pose proof (restampedHeap_agree _ _ _ (proj2 Hwf) R1) as Hag.
  set (d' := mkDelaunay (point1 d) (point2 d) (point3 d) (root d) (S (searchId d)) h1
                        (console d)) in *.
  pose proof (collectTriangles_agree d d' (searchId d) (S (searchId d))
    (conj eq_refl (conj eq_refl eq_refl)) fuel (Some (root d)) (heap d) h1 Hag) as Hsim.
  rewrite Hc1 in Hsim.
  destruct (collectTriangles fuel d' (S (searchId d)) (Some (root d)) h1)
    as [[l2 h2]| |] eqn:Hc2; simpl in Hsim; try contradiction.
  destruct Hsim as [El _]. simpl in El. subst l2.
  exists (mkDelaunay (point1 d) (point2 d) (point3 d) (root d) (S (S (searchId d))) h2
                     (console d)).
  split; [exact H1|]. split.
  - unfold getTriangles. change (searchId d') with (S (searchId d)).
    change (root d') with (root d). change (heap d') with h1.
    rewrite Hc2. reflexivity.
  - apply collectTriangles_step in Hc2 as (R2 & _ & _).
    exact (restampedHeap_triples _ _ _ _ R2).
Qed.

(** C9.  In every reachable engine state, two harvests in a row (with fuel
    for two more rounds than there are cells) both return, and they return
    the same cells in the same order, with the same vertex triples. *)
Theorem getTriangles_twice_same (F : Type) (NF : Number F) (d : Delaunay F) (fuel : nat) :
  reachable d ->
  (length (heap d) + 2 <= fuel)%nat ->
  exists (triangles : list nat) (d' d'' : Delaunay F),
    getTriangles fuel d = Ok (triangles, d') /\
    getTriangles fuel d' = Ok (triangles, d'') /\
    harvestedTriples (heap d') triangles = harvestedTriples (heap d'') triangles.
Proof.
  intros Hreach Hfuel.
  exact (getTriangles_twice_wf F NF d fuel (reachable_wf d Hreach) Hfuel).
Qed.

(** ** The bounding triangle (C6) *)

Section Bounding.
Local Open Scope R_scope.

Lemma Q2R_lit_2 : Q2R 2 = 2. Proof. unfold Q2R; simpl; lra. Qed.
Lemma Q2R_lit_6 : Q2R 6.0 = 6. Proof. unfold Q2R; simpl; lra. Qed.
Lemma Q2R_lit_1_5 : Q2R 1.5 = 3 / 2. Proof. unfold Q2R; simpl; lra. Qed.
Lemma Q2R_lit_3 : Q2R 3.0 = 3. Proof. unfold Q2R; simpl; lra. Qed.
Lemma Q2R_lit_0 : Q2R 0 = 0. Proof. unfold Q2R; simpl; lra. Qed.
Lemma Q2R_lit_1 : Q2R 1 = 1. Proof. unfold Q2R; simpl; lra. Qed.

(** Containment in a triangle with a horizontal base [2 * S] wide at depth
    [r] below the centre and its apex [H] above it, for a point at offset
    [(x - cx, y - cy)] from the centre. *)
Lemma containment_upright (cx cy r S H x y z z1 z2 z3 : R) :
  0 < S -> 0 < H + r ->
  - r < y - cy ->
  0 < (H + r) * (x - cx) + S * (H - (y - cy)) ->
  S * (y - cy) + (H + r) * (x - cx) < S * H ->
  let p1 := @mkPoint R (cx - S) (cy - r) z1 in
  let p2 := @mkPoint R cx (cy + H) z2 in
  let p3 := @mkPoint R (cx + S) (cy - r) z3 in
  let point := @mkPoint R x y z in
  0 < containmentU p1 p2 p3 point /\
  0 < containmentV p1 p2 p3 point /\
  containmentU p1 p2 p3 point + containmentV p1 p2 p3 point < 1.
Proof.
  intros HS HH Hu Hv Huv p1 p2 p3 point.
  unfold containmentU, containmentV, containmentDenominator, p1, p2, p3, point.
  cbn [px py pz nadd nsub nmul ndiv nopp realNumber].
  assert (HD : 0 < 2 * S * (H + r)) by nra.
  replace ((cx - S) * (cy - r - (cy + H)) + cx * (cy - r - (cy - r))
           + (cx + S) * (cy + H - (cy - r))) with (2 * S * (H + r)) by ring.
  replace (- (x * (cy - r - (cy - r)) + (cx - S) * (y - (cy - r))
              + (cx + S) * (cy - r - y))) with (2 * S * (y - cy + r)) by ring.
  replace (x * (cy + H - (cy - r)) + (cx - S) * (y - (cy + H)) + cx * (cy - r - y))
    with ((H + r) * (x - cx) + S * (H - (y - cy))) by ring.
  repeat split.
  - apply Rdiv_lt_0_compat; [nra|exact HD].
  - apply Rdiv_lt_0_compat; [exact Hv|exact HD].
  - apply (Rmult_lt_reg_r (2 * S * (H + r))); [exact HD|].
    replace ((2 * S * (y - cy + r) / (2 * S * (H + r))
              + ((H + r) * (x - cx) + S * (H - (y - cy))) / (2 * S * (H + r)))
             * (2 * S * (H + r)))
      with (2 * S * (y - cy + r) + ((H + r) * (x - cx) + S * (H - (y - cy))))
      by (field; lra).
    nra.
Qed.

(** C6.  With arithmetic read over the reals, every point of the box lies
    strictly inside the bounding triangle the constructor builds: both
    quotients of the root cell's containment test are positive and their sum
    is below one (so the test itself answers [true]). *)
Theorem bounding_triangle_contains_box (min_x max_x min_y max_y x y z : R) :
  min_x < max_x -> min_y < max_y ->
  min_x <= x <= max_x -> min_y <= y <= max_y ->
  let d := @newDelaunay R realNumber min_x max_x min_y max_y in
  let point := @mkPoint R x y z in
  let u := containmentU (point1 d) (point2 d) (point3 d) point in
  let v := containmentV (point1 d) (point2 d) (point3 d) point in
  exists tri,
    heap d !! root d = Some tri /\
    points tri = [point1 d; point2 d; point3 d] /\
    isPointInTriangle tri point = Ok true /\
    0 < u /\ 0 < v /\ u + v < 1.
Proof.
  intros Hx Hy [Hx1 Hx2] [Hy1 Hy2] d point u v.
  exists (newTriangle [point1 d; point2 d; point3 d] [None; None; None]).
  split; [reflexivity|]. split; [reflexivity|].
  cut (0 < u /\ 0 < v /\ u + v < 1).
  { intros (Hu & Hv & Huv). split; [|auto].
    unfold isPointInTriangle. cbn [points newTriangle getPoint deref rbind lookup list_lookup].
    fold u v. cbn [nle nadd nconst realNumber]. rewrite Q2R_lit_0, Q2R_lit_1.
    unfold Rleb.
    destruct (Rle_dec 0 u); [|lra]. destruct (Rle_dec 0 v); [|lra].
    destruct (Rle_dec (u + v) 1); [reflexivity|lra]. }
  unfold u, v, d, point, newDelaunay.
  cbn [point1 point2 point3 vpoint nadd nsub nmul ndiv nsqrt nconst realNumber].
  rewrite Q2R_lit_2, Q2R_lit_6, Q2R_lit_1_5, Q2R_lit_3.
  set (a := max_x - min_x). set (b := max_y - min_y).
  assert (Ha : 0 < a) by (unfold a; lra).
  assert (Hb : 0 < b) by (unfold b; lra).
  assert (Hab : 0 < a * a + b * b) by nra.
  pose proof (sqrt_lt_R0 _ Hab) as Hw0.
  pose proof (sqrt_sqrt (a * a + b * b) (Rlt_le _ _ Hab)) as Hww.
  set (w := sqrt (a * a + b * b)) in *.
  assert (H3 : 0 < 3) by lra.
  pose proof (sqrt_lt_R0 _ H3) as Hq0.
  pose proof (sqrt_sqrt 3 (Rlt_le _ _ H3)) as Hqq.
  set (q := sqrt 3) in *.
  assert (Hq : 17 / 10 < q) by nra.
  assert (Hwa : a < w) by nra.
  assert (Hwb : b < w) by nra.
  assert (HS : 6 * (w / 2) * (3 / 2) / q / 2 = 3 / 4 * w * q).
  { assert (Hiq : / q = q / 3).
    { apply Rmult_eq_reg_l with q; [|lra]. rewrite Rinv_r by lra. lra. }
    unfold Rdiv. rewrite Hiq. field. }
  assert (HH : 6 * (w / 2) * (3 / 2) / q * q / 2 = 9 / 4 * w) by (field; lra).
  rewrite HH, HS.
  assert (Hwq : 0 < w * q) by (apply Rmult_lt_0_compat; assumption).
  apply containment_upright.
  - lra.
  - lra.
  - unfold b in *. lra.
  - unfold a, b in *.
    assert (0 <= w * (x - (min_x + max_x) / 2 + w / 2)) by (apply Rmult_le_pos; lra).
    assert (0 <= w * q * (w / 2 - (y - (min_y + max_y) / 2))) by (apply Rmult_le_pos; lra).
    assert (0 < w * w * (q - 17 / 10)) by (apply Rmult_lt_0_compat; nra).
    nra.
  - unfold a, b in *.
    assert (0 <= w * (w / 2 - (x - (min_x + max_x) / 2))) by (apply Rmult_le_pos; lra).
    assert (0 <= w * q * (w / 2 - (y - (min_y + max_y) / 2))) by (apply Rmult_le_pos; lra).
    assert (0 < w * w * (q - 17 / 10)) by (apply Rmult_lt_0_compat; nra).
    nra.
Qed.

End Bounding.

Lemma bounding_triangle_contains_box_witness :
  (0 < 10)%R /\ (0 < 10)%R /\ (0 <= 10 <= 10)%R /\ (0 <= 0 <= 10)%R /\
  let d := @newDelaunay R realNumber 0%R 10%R 0%R 10%R in
  let point := @mkPoint R 10%R 0%R 0%R in
  exists tri,
    heap d !! root d = Some tri /\
    points tri = [point1 d; point2 d; point3 d] /\
    isPointInTriangle tri point = Ok true /\
    (0 < containmentU (point1 d) (point2 d) (point3 d) point)%R /\
    (0 < containmentV (point1 d) (point2 d) (point3 d) point)%R /\
    (containmentU (point1 d) (point2 d) (point3 d) point
     + containmentV (point1 d) (point2 d) (point3 d) point < 1)%R.
Proof.
  split; [lra|]. split; [lra|]. split; [lra|]. split; [lra|].
  apply (bounding_triangle_contains_box 0 10 0 10 10 0 0); lra.
Defined.

(** ** Witnesses on a concrete engine *)

Lemma getTriangles_twice_same_witness :
  let d := engineAfter [fvertex 10 5 5 0; fvertex 11 1 1 0; fvertex 12 9 1 0;
                        fvertex 13 5 9 0] in
  reachable d /\ (length (heap d) + 2 <= 15)%nat /\
  exists (triangles : list nat) (d' d'' : Delaunay float),
    getTriangles 15 d = Ok (triangles, d') /\
    getTriangles 15 d' = Ok (triangles, d'') /\
    harvestedTriples (heap d') triangles = harvestedTriples (heap d'') triangles.
Proof.
  intros d.
  assert (Hr : reachable d).
  { apply (reach_insert 100 engine10
             [fvertex 10 5 5 0; fvertex 11 1 1 0; fvertex 12 9 1 0; fvertex 13 5 9 0]).
    - apply reach_new.
    - vm_compute. reflexivity. }
  assert (Hl : (length (heap d) + 2 <= 15)%nat) by (vm_compute; lia).
  split; [exact Hr|]. split; [exact Hl|].
  exact (getTriangles_twice_same float floatNumber d 15 Hr Hl).
Defined.

Lemma getTriangles_hides_forming_points_witness :
  let d := engineAfter [fvertex 10 5 5 0; fvertex 11 1 1 0; fvertex 12 9 1 0;
                        fvertex 13 5 9 0] in
  exists d', getTriangles 15 d = Ok ([7; 12]%nat, d') /\
    forall t, In t [7; 12]%nat ->
      exists tri, heap d' !! t = Some tri /\
        forall p, In p (points tri) ->
          vid p <> vid (point1 d) /\ vid p <> vid (point2 d) /\ vid p <> vid (point3 d).
Proof.
  intros d.
  destruct (getTriangles 15 d) as [[l d']| |] eqn:E.
  - assert (El : l = [7; 12]%nat).
    { assert (H : match getTriangles 15 d with Ok (l0, _) => l0 | _ => [] end = [7; 12]%nat)
        by (vm_compute; reflexivity).
      rewrite E in H. exact H. }
    subst l. exists d'. split; [reflexivity|].
    exact (proj2 getTriangles_hides_forming_points float floatNumber 15 d d' _ E).
  - exfalso.
    assert (H : match getTriangles 15 d with Ok _ => true | _ => false end = true)
      by (vm_compute; reflexivity).
    rewrite E in H. discriminate H.
  - exfalso.
    assert (H : match getTriangles 15 d with Ok _ => true | _ => false end = true)
      by (vm_compute; reflexivity).
    rewrite E in H. discriminate H.
Defined.

(** ** Insertion on an edge and next to a vertex (C1, C2) *)

(** C1 (the code departs from the specification).  Insert (5,5) and then
    (5,7), which lies on the edge from (5,5) to the apex of the bounding
    triangle.  The split leaves a cell with three collinear vertices, whose
    circumcentre is not finite, so no test that involves it ever succeeds;
    the cell [(5,5), apex, right corner] across that edge is never
    re-examined and keeps (5,7) inside its circumcircle. *)
Theorem insert_on_edge_breaks_delaunay :
  insertPoints 100 engine10 onEdgePoints = Ok engineOnEdge /\
  cellVertexIds (heap engineOnEdge) !! 2%nat = Some [10; 1; 2]%nat /\
  insideCircumcircle (heap engineOnEdge) 2 (fvertex 11 5 7 0) = Ok true /\
  ~ delaunayProperty engineOnEdge onEdgePoints.
Proof.
  assert (Hin : insideCircumcircle (heap engineOnEdge) 2 (fvertex 11 5 7 0) = Ok true)
    by (vm_compute; reflexivity).
  split; [vm_compute; reflexivity|]. split; [vm_compute; reflexivity|].
  split; [exact Hin|].
  intros Hdel.
  assert (H4 : exists tri, heap engineOnEdge !! 4%nat = Some tri /\
                           neighbors tri = [None; Some 5; Some 6]%nat)
    by (vm_compute; eexists; split; reflexivity).
  assert (H5 : exists tri, heap engineOnEdge !! 5%nat = Some tri /\
                           neighbors tri = [Some 4; Some 2; Some 6]%nat)
    by (vm_compute; eexists; split; reflexivity).
  assert (H2 : exists tri, heap engineOnEdge !! 2%nat = Some tri /\
                           map vid (points tri) = [10; 1; 2]%nat)
    by (vm_compute; eexists; split; reflexivity).
  destruct H4 as (t4 & L4 & N4), H5 as (t5 & L5 & N5), H2 as (t2 & L2 & P2).
  assert (Hroot : root engineOnEdge = 4%nat) by reflexivity.
  assert (Hreach : reachableCell (heap engineOnEdge) (root engineOnEdge) 2).
  { rewrite Hroot.
    apply (reach_link _ 4 5 2 t4 L4); [rewrite N4; simpl; auto|].
    apply (reach_link _ 5 2 2 t5 L5); [rewrite N5; simpl; auto|].
    apply reach_here. }
  destruct (Hdel 2%nat t2 (fvertex 11 5 7 0) Hreach L2) as [(q & Hq & Hv)|Hout].
  - right. left. reflexivity.
  - assert (Hm : In (vid q) (map vid (points t2))) by (apply in_map; exact Hq).
    rewrite P2, Hv in Hm. destruct Hm as [Hm|[Hm|[Hm|[]]]]; discriminate Hm.
  - rewrite Hin in Hout. discriminate Hout.
Qed.

(** C2 (the code departs from the specification).  Insert P = (5,5) and
    then Q = (4.999999999999999, 5), one unit in the last place to its
    left.  The split creates the needle (Q, apex, P); the circumcentre
    computed for it is dominated by rounding, and the tolerance test places
    the apex, a vertex the needle shares with its sibling (left corner,
    apex, Q), inside its circumcircle.  The flip of the two turns the
    sibling into (left corner, P, Q), the three vertices that the third new
    cell already has.  Afterwards cell 4 lists cell 6 twice (and cell 6
    lists cell 4 twice). *)
Theorem insert_near_vertex_breaks_symmetry :
  insertPoints 100 engine10 nearVertexPoints = Ok engineNearVertex /\
  root engineNearVertex = 4%nat /\
  map neighbors (heap engineNearVertex) !! 4%nat = Some [Some 5; Some 6; Some 6]%nat /\
  map neighbors (heap engineNearVertex) !! 6%nat = Some [Some 4; Some 4; Some 3]%nat /\
  ~ neighborSymmetry engineNearVertex.
Proof.
  split; [vm_compute; reflexivity|]. split; [reflexivity|].
  split; [reflexivity|]. split; [reflexivity|].
  intros Hsym.
  assert (H4 : exists tri, heap engineNearVertex !! 4%nat = Some tri /\
                           neighbors tri = [Some 5; Some 6; Some 6]%nat)
    by (vm_compute; eexists; split; reflexivity).
  assert (H6 : exists tri, heap engineNearVertex !! 6%nat = Some tri /\
                           neighbors tri = [Some 4; Some 4; Some 3]%nat)
    by (vm_compute; eexists; split; reflexivity).
  destruct H4 as (t4 & L4 & N4), H6 as (t6 & L6 & N6).
  assert (Hroot : root engineNearVertex = 4%nat) by reflexivity.
  assert (Hreach : reachableCell (heap engineNearVertex) (root engineNearVertex) 4).
  { rewrite Hroot. apply reach_here. }
  specialize (Hsym 4%nat 6%nat t4 t6 Hreach L4).
  rewrite N4, N6 in Hsym.
  assert (Habs : 2%nat = 1%nat) by (apply Hsym; [right; left; reflexivity|exact L6]).
  discriminate Habs.
Qed.

(** ** One round of [insert] *)

Section SplitFacts.
Context {F : Type} {NF : Number F}.
Implicit Types (h : Heap F) (d : Delaunay F) (tri : Triangle F).

Lemma enqueueNeighbors_restamps s (point : Point F) (nbs : list (option nat)) :
  forall h (q : Queue nat) h' q',
    enqueueNeighbors s point h q nbs = Ok (h', q') -> restampedHeap s h h'.
Proof.
  induction nbs as [|[n|] nbs IH]; intros h q h' q'; simpl.
  - intros [= <- _]. apply restampedHeap_refl.
  - intros H. res_inv H. destruct (stamped a s); simpl in H; [eapply IH; eauto|].
    res_inv H. apply IH in H. apply getTriangle_Ok in E as [Hn _].
    eapply restampedHeap_trans; [|exact H]. apply restampedHeap_stamp. exact Hn.
  - apply IH.
Qed.

Lemma findLoop_restamps s (point : Point F) (fuel : nat) :
  forall h (q : Queue nat) r h',
    findLoop fuel s point h q = Ok (r, h') ->
    restampedHeap s h h' /\
    forall t, r = Some t ->
      exists tri, h' !! t = Some tri /\ isPointInTriangle tri point = Ok true.
Proof.
  induction fuel as [|fuel IH]; intros h q r h'; simpl; [discriminate|].
  destruct (isEmpty q).
  { intros [= <- <-]. split; [apply restampedHeap_refl|discriminate]. }
  intros H. res_inv H. destruct a0.
  - injection H as <- <-. split; [apply restampedHeap_refl|].
    intros t [= ->]. unfold containsPoint, getTriangle, deref in E1.
    destruct (h !! t) as [tri|]; [|discriminate]. eauto.
  - res_inv H. apply enqueueNeighbors_restamps in E3.
    apply IH in H as [R Hfound]. split; [eapply restampedHeap_trans; eauto|exact Hfound].
Qed.

Lemma setNeighbor_neighbors h t i (v : option nat) h' :
  setNeighbor h t i v = Ok h' ->
  length h' = length h /\
  (forall u, pointsOf h' u = pointsOf h u) /\
  neighborsOf h' t = array_set (neighborsOf h t) i v /\
  (forall u, u <> t -> neighborsOf h' u = neighborsOf h u).
Proof.
  unfold setNeighbor. intros H. res_inv H. injection H as <-.
  apply getTriangle_Ok in E as [Ht Hlt]. unfold pointsOf, neighborsOf.
  split; [apply length_insert|]. split; [|split].
  - intros u. destruct (decide (t = u)) as [->|Hne].
    + rewrite list_lookup_insert_eq by exact Hlt. rewrite Ht. reflexivity.
    + rewrite list_lookup_insert_ne by exact Hne. reflexivity.
  - rewrite list_lookup_insert_eq by exact Hlt. rewrite Ht. reflexivity.
  - intros u Hne. rewrite list_lookup_insert_ne by auto. reflexivity.
Qed.

Lemma replaceNeighbor_neighbors h (nb : option nat) (old new : nat) h' :
  replaceNeighbor h nb old new = Ok h' ->
  length h' = length h /\
  (forall u, pointsOf h' u = pointsOf h u) /\
  (forall u, nb <> Some u -> neighborsOf h' u = neighborsOf h u).
Proof.
  unfold replaceNeighbor. destruct nb as [t|]; [|intros [= <-]; auto].
  intros H. res_inv H.
  destruct (indexOf _ (neighbors a) (Some old)) as [index|]; [|injection H as <-; auto].
  apply setNeighbor_neighbors in H as (L & P & _ & N). split; [exact L|].
  split; [exact P|]. intros u Hu. apply N. congruence.
Qed.

Lemma getNeighbor_neighborsOf h t i (nb : option nat) :
  getNeighbor h t i = Ok nb -> nb = array_get (neighborsOf h t) i.
Proof.
  unfold getNeighbor. intros H. res_inv H. injection H as <-.
  apply getTriangle_Ok in E as [Ht _]. unfold neighborsOf. rewrite Ht. reflexivity.
Qed.

Lemma array_set_three {A} (x y z v : option A) :
  array_set [x; y; z] 0 v = [v; y; z] /\
  array_set [x; y; z] 1 v = [x; v; z] /\
  array_set [x; y; z] 2 v = [x; y; v].
Proof.
  unfold array_set. repeat split; rewrite decide_True by (simpl; lia); reflexivity.
Qed.

(** What [splitTriangle] has built when it turns to the repair: three cells
    at the end of the arena, made of the vertices of the cell that is split
    and the point, in the source's order; wired to each other and to the
    three neighbours of that cell; no other cell has other vertices. *)
Lemma splitTriangle_cells (fuel : nat) h (t : nat) (point : Vertex F) (r : nat) h' :
  splitTriangle fuel h t point = Ok (r, h') ->
  exists tri (p0 p1 p2 : Vertex F) hs,
    h !! t = Some tri /\
    points tri !! 0%nat = Some p0 /\ points tri !! 1%nat = Some p1 /\
    points tri !! 2%nat = Some p2 /\
    r = length h /\
    length hs = (length h + 3)%nat /\
    (forall u, (u < length h)%nat -> pointsOf hs u = pointsOf h u) /\
    pointsOf hs (length h) = [p0; p1; point] /\
    pointsOf hs (S (length h)) = [point; p1; p2] /\
    pointsOf hs (S (S (length h))) = [p0; point; p2] /\
    ((forall m, In (Some m) (neighbors tri) -> (m < length h)%nat) ->
     neighborsOf hs (length h)
     = [array_get (neighbors tri) 0; Some (S (length h)); Some (S (S (length h)))] /\
     neighborsOf hs (S (length h))
     = [Some (length h); array_get (neighbors tri) 1; Some (S (S (length h)))] /\
     neighborsOf hs (S (S (length h)))
     = [Some (length h); Some (S (length h)); array_get (neighbors tri) 2]) /\
    (let* h1 := findAndFixViolatedTriangles fuel hs (length h) in
     let* h2 := findAndFixViolatedTriangles fuel h1 (S (length h)) in
     findAndFixViolatedTriangles fuel h2 (S (S (length h)))) = Ok h'.
Proof.
  unfold splitTriangle. intros H. res_inv H. injection H as <- <-.
  apply getTriangle_Ok in E as [Ht Hlt].
  unfold getPoint, deref in E0, E1, E2.
  destruct (points a !! 0%nat) as [p0|] eqn:P0; [injection E0 as ->|discriminate].
  destruct (points a !! 1%nat) as [p1|] eqn:P1; [injection E1 as ->|discriminate].
  destruct (points a !! 2%nat) as [p2|] eqn:P2; [injection E2 as ->|discriminate].
  set (n := length h) in *.
  set (h0 := h ++ _) in E3.
  assert (L0 : length h0 = (n + 3)%nat) by (unfold h0; rewrite length_app; reflexivity).
  assert (Q0 : forall u, (u < n)%nat -> pointsOf h0 u = pointsOf h u).
  { intros u Hu. unfold pointsOf, h0. rewrite lookup_app_l by exact Hu. reflexivity. }
  assert (C0 : forall k c, [newTriangle [a0; a1; point] [None; None; None];
                            newTriangle [point; a1; a2] [None; None; None];
                            newTriangle [a0; point; a2] [None; None; None]] !! k = Some c ->
                           h0 !! (n + k)%nat = Some c).
  { intros k c Hk. unfold h0. rewrite lookup_app_r by (unfold n; lia).
    replace (n + k - length h)%nat with k by (unfold n; lia). exact Hk. }
  pose proof (C0 0%nat _ eq_refl) as C1. pose proof (C0 1%nat _ eq_refl) as C2.
  pose proof (C0 2%nat _ eq_refl) as C3.
  replace (n + 0)%nat with n in C1 by lia.
  replace (n + 1)%nat with (S n) in C2 by lia.
  replace (n + 2)%nat with (S (S n)) in C3 by lia.
  clear C0.
  assert (Q1 : pointsOf h0 n = [a0; a1; point]) by (unfold pointsOf; rewrite C1; reflexivity).
  assert (Q2 : pointsOf h0 (S n) = [point; a1; a2]) by (unfold pointsOf; rewrite C2; reflexivity).
  assert (Q3 : pointsOf h0 (S (S n)) = [a0; point; a2])
    by (unfold pointsOf; rewrite C3; reflexivity).
  assert (N1 : neighborsOf h0 n = [None; None; None])
    by (unfold neighborsOf; rewrite C1; reflexivity).
  assert (N2 : neighborsOf h0 (S n) = [None; None; None])
    by (unfold neighborsOf; rewrite C2; reflexivity).
  assert (N3 : neighborsOf h0 (S (S n)) = [None; None; None])
    by (unfold neighborsOf; rewrite C3; reflexivity).
  clearbody h0. clear C1 C2 C3.
  pose proof (array_set_three (A := nat)) as AS.
  apply setNeighbor_neighbors in E3 as (L3 & R3 & S3 & O3).
  apply setNeighbor_neighbors in E4 as (L4 & R4 & S4 & O4).
  apply setNeighbor_neighbors in E5 as (L5 & R5 & S5 & O5).
  apply getNeighbor_neighborsOf in E6.
  apply replaceNeighbor_neighbors in E7 as (L7 & R7 & O7).
  apply setNeighbor_neighbors in E8 as (L8 & R8 & S8 & O8).
  apply setNeighbor_neighbors in E9 as (L9 & R9 & S9 & O9).
  apply setNeighbor_neighbors in E10 as (L10 & R10 & S10 & O10).
  apply getNeighbor_neighborsOf in E11.
  apply replaceNeighbor_neighbors in E12 as (L12 & R12 & O12).
  apply setNeighbor_neighbors in E13 as (L13 & R13 & S13 & O13).
  apply setNeighbor_neighbors in E14 as (L14 & R14 & S14 & O14).
  apply setNeighbor_neighbors in E15 as (L15 & R15 & S15 & O15).
  apply getNeighbor_neighborsOf in E16.
  apply replaceNeighbor_neighbors in E17 as (L17 & R17 & O17).
  exists a, a0, a1, a2, a17.
  split; [exact Ht|]. split; [exact P0|]. split; [exact P1|]. split; [exact P2|].
  split; [reflexivity|].
  split; [lia|].
  assert (RR : forall u, pointsOf a17 u = pointsOf h0 u).
  { intros u. rewrite R17, R15, R14, R13, R12, R10, R9, R8, R7, R5, R4, R3. reflexivity. }
  split; [intros u Hu; rewrite RR; auto|].
  rewrite !RR. split; [exact Q1|]. split; [exact Q2|]. split; [exact Q3|].
  split; [|rewrite E18; cbn [rbind]; rewrite E19; cbn [rbind]; exact E20].
  intros Hlinks.
  assert (Hin : forall i m, array_get (neighbors a) i = Some m -> (m < n)%nat).
  { intros i m Hm. apply Hlinks. eapply array_get_In; eauto. }
  (* cell n after its three stores *)
  assert (M5 : neighborsOf a5 n = [array_get (neighbors a) 0; Some (S n); Some (S (S n))]).
  { rewrite S5, S4, S3, N1.
    rewrite (proj1 (AS _ _ _ _)), (proj1 (proj2 (AS _ _ _ _))), (proj2 (proj2 (AS _ _ _ _))).
    reflexivity. }
  assert (M5' : neighborsOf a5 (S n) = [None; None; None] /\
                neighborsOf a5 (S (S n)) = [None; None; None]).
  { rewrite !O5, !O4, !O3 by lia. auto. }
  destruct M5' as [M52 M53].
  rewrite M5 in E6. change (array_get _ 0) with (array_get (neighbors a) 0) in E6.
  assert (K6 : forall u, (n <= u)%nat -> a6 <> Some u).
  { intros u Hu ->. symmetry in E6. apply Hin in E6. lia. }
  assert (M10 : neighborsOf a10 (S n) = [Some n; array_get (neighbors a) 1; Some (S (S n))]).
  { rewrite S10, S9, S8, O7, M52 by (apply K6; lia).
    rewrite (proj1 (AS _ _ _ _)), (proj1 (proj2 (AS _ _ _ _))), (proj2 (proj2 (AS _ _ _ _))).
    reflexivity. }
  assert (M10' : neighborsOf a10 n = neighborsOf a5 n /\
                 neighborsOf a10 (S (S n)) = [None; None; None]).
  { rewrite !O10, !O9, !O8 by lia. rewrite !O7 by (apply K6; lia). auto. }
  destruct M10' as [M101 M103].
  rewrite M10 in E11. change (array_get _ 1) with (array_get (neighbors a) 1) in E11.
  assert (K11 : forall u, (n <= u)%nat -> a11 <> Some u).
  { intros u Hu ->. symmetry in E11. apply Hin in E11. lia. }
  assert (M15 : neighborsOf a15 (S (S n))
                = [Some n; Some (S n); array_get (neighbors a) 2]).
  { rewrite S15, S14, S13, O12, M103 by (apply K11; lia).
    rewrite (proj1 (AS _ _ _ _)), (proj1 (proj2 (AS _ _ _ _))), (proj2 (proj2 (AS _ _ _ _))).
    reflexivity. }
  assert (M15' : neighborsOf a15 n = neighborsOf a5 n /\
                 neighborsOf a15 (S n) = neighborsOf a10 (S n)).
  { rewrite !O15, !O14, !O13 by lia. rewrite !O12 by (apply K11; lia). auto. }
  destruct M15' as [M151 M152].
  rewrite M15 in E16. change (array_get _ 2) with (array_get (neighbors a) 2) in E16.
  assert (K16 : forall u, (n <= u)%nat -> a16 <> Some u).
  { intros u Hu ->. symmetry in E16. apply Hin in E16. lia. }
  rewrite !O17 by (apply K16; lia).
  rewrite M151, M152, M5, M10, M15. auto.
Qed.

Lemma restampedHeap_cell s h h' (t : nat) tri' :
  restampedHeap s h h' -> h' !! t = Some tri' ->
  exists tri, h !! t = Some tri /\ restamped s tri tri'.
Proof.
  intros [L R] Ht.
  assert (Hlt : (t < length h)%nat) by (rewrite <- L; eapply lookup_lt_Some; eauto).
  destruct (lookup_lt_is_Some_2 h t Hlt) as [a Ha].
  destruct (R t a Ha) as (b & Hb & Rab). rewrite Ht in Hb. injection Hb as <-. eauto.
Qed.

Lemma restampedHeap_pointsOf s h h' (u : nat) :
  restampedHeap s h h' -> pointsOf h' u = pointsOf h u.
Proof.
  intros R. unfold pointsOf. destruct (h' !! u) as [b|] eqn:Hb.
  - destruct (restampedHeap_cell _ _ _ _ _ R Hb) as (a & Ha & Rab). rewrite Ha.
    eapply restamped_points; eauto.
  - destruct R as [L _]. apply lookup_ge_None in Hb. rewrite L in Hb.
    apply lookup_ge_None in Hb. rewrite Hb. reflexivity.
Qed.

End SplitFacts.

(** ** Coincident projections (C8) *)

(** C8, the statement of the specification fails.  After (5,5,0) has
    been inserted, the point (5,5,1), which differs from it only in [z], is
    accepted like any other: nothing is logged, the cell that contains it
    is split and the point (identity 11) becomes a vertex of three new
    cells. *)
Lemma insert_accepts_coincident_point :
  let P := fvertex 10 5 5 0 in
  let Q := fvertex 11 5 5 1 in
  (let* d1 := insertPoint 100 engine10 P in
   let* d2 := insertPoint 100 d1 Q in
   Ok (cellVertexIds (heap d1), cellVertexIds (heap d2), console d2))
  = Ok ([[0; 1; 2]; [0; 1; 10]; [10; 1; 2]; [0; 10; 2]]%nat,
        [[0; 1; 2]; [0; 1; 10]; [10; 1; 2]; [0; 10; 2];
         [0; 1; 11]; [11; 1; 10]; [0; 11; 10]]%nat,
        []) /\
  nlt (px Q) (px P) = false /\ nlt (px P) (px Q) = false /\
  nlt (py Q) (py P) = false /\ nlt (py P) (py Q) = false.
Proof. vm_compute. repeat split; reflexivity. Qed.

(** C8 as amended.  [insert] makes no test on coordinates.  A round that
    returns either located the point or did not.  If it did, the located
    cell passes the containment test for the point and is split: three
    cells made of its vertices and the point, [[p0; p1; point]],
    [[point; p1; p2]] and [[p0; point; p2]], are put at the end of the
    arena (wired to each other and to the three neighbours of the located
    cell, when these are cells of the arena), no other cell has changed
    its vertices, and the repair is run from the three in turn; its
    result is the new mesh, the first new cell is the root, nothing is
    logged.  If it did not, the point was logged and no cell was added. *)
Theorem insertPoint_splits_whenever_located (F : Type) (NF : Number F)
    (fuel : nat) (d d' : Delaunay F) (point : Vertex F) :
  insertPoint fuel d point = Ok d' ->
  exists (r : option nat) (h : Heap F),
    findContainingTriangle fuel (searchId d) (Some (root d)) point (heap d) = Ok (r, h) /\
    match r with
    | Some t =>
        console d' = console d /\ length (heap d') = (length (heap d) + 3)%nat /\
        root d' = length (heap d) /\
        exists (tri : Triangle F) (p0 p1 p2 : Vertex F) (hs : Heap F),
          let n := length (heap d) in
          heap d !! t = Some tri /\
          isPointInTriangle tri point = Ok true /\
          points tri !! 0%nat = Some p0 /\ points tri !! 1%nat = Some p1 /\
          points tri !! 2%nat = Some p2 /\
          length hs = (n + 3)%nat /\
          (forall u, (u < n)%nat -> pointsOf hs u = pointsOf (heap d) u) /\
          pointsOf hs n = [p0; p1; point] /\
          pointsOf hs (S n) = [point; p1; p2] /\
          pointsOf hs (S (S n)) = [p0; point; p2] /\
          ((forall m, In (Some m) (neighbors tri) -> (m < n)%nat) ->
           neighborsOf hs n = [array_get (neighbors tri) 0; Some (S n); Some (S (S n))] /\
           neighborsOf hs (S n) = [Some n; array_get (neighbors tri) 1; Some (S (S n))] /\
           neighborsOf hs (S (S n)) = [Some n; Some (S n); array_get (neighbors tri) 2]) /\
          (let* h1 := findAndFixViolatedTriangles fuel hs n in
           let* h2 := findAndFixViolatedTriangles fuel h1 (S n) in
           findAndFixViolatedTriangles fuel h2 (S (S n))) = Ok (heap d')
    | None =>
        console d' = console d ++ [point] /\ length (heap d') = length (heap d) /\
        root d' = root d
    end.
Proof.
  unfold insertPoint. intros H. res_inv H. exists o, l. split; [reflexivity|].
  pose proof E as K.
  apply (findContainingTriangle_keeps _ (S (searchId d))) in K as [L _]; [|lia].
  destruct o as [t|].
  - res_inv H. injection H as <-. cbn [console heap root].
    pose proof (splitTriangle_wf (S (searchId d)) _ _ _ _ _ _ E0) as (-> & L' & _).
    split; [reflexivity|]. split; [lia|]. split; [lia|].
    destruct (splitTriangle_cells _ _ _ _ _ _ E0)
      as (tri' & p0 & p1 & p2 & hs & Ht & P0 & P1 & P2 & _ & Lhs & Qold & Q1 & Q2 & Q3 & Nb & Ch).
    unfold findContainingTriangle in E. res_inv E.
    destruct (stamped a (searchId d)) eqn:Hst.
    + discriminate E.
    + res_inv E.
      pose proof (findLoop_restamps _ _ _ _ _ _ _ E) as [R Hfound].
      destruct (Hfound t eq_refl) as (tri2 & Ht2 & Hin). rewrite Ht in Ht2.
      injection Ht2 as <-.
      destruct (restampedHeap_cell _ _ _ _ _ R Ht) as (tri & Htri & Rt).
      pose proof (restamped_points _ _ _ Rt) as EP.
      pose proof (restamped_neighbors _ _ _ Rt) as EN.
      exists tri, p0, p1, p2, hs. cbv zeta. rewrite <- L.
      split; [exact Htri|].
      split; [destruct Rt as [->| ->]; exact Hin|].
      rewrite <- EP, <- EN.
      split; [exact P0|]. split; [exact P1|]. split; [exact P2|].
      split; [exact Lhs|].
      split; [intros u Hu; rewrite Qold by exact Hu; eapply restampedHeap_pointsOf; eauto|].
      split; [exact Q1|]. split; [exact Q2|]. split; [exact Q3|].
      split; [exact Nb|exact Ch].
  - injection H as <-. simpl. auto.
Qed.

Lemma insertPoint_splits_whenever_located_witness :
  let d := engineAfter [fvertex 10 5 5 0] in
  let point := fvertex 11 5 5 1 in
  let d' := engineAfter [fvertex 10 5 5 0; fvertex 11 5 5 1] in
  insertPoint 100 d point = Ok d' /\
  exists (r : option nat) (h : Heap float),
    findContainingTriangle 100 (searchId d) (Some (root d)) point (heap d) = Ok (r, h) /\
    match r with
    | Some t =>
        console d' = console d /\ length (heap d') = (length (heap d) + 3)%nat /\
        root d' = length (heap d) /\
        exists (tri : Triangle float) (p0 p1 p2 : Vertex float) (hs : Heap float),
          let n := length (heap d) in
          heap d !! t = Some tri /\
          isPointInTriangle tri point = Ok true /\
          points tri !! 0%nat = Some p0 /\ points tri !! 1%nat = Some p1 /\
          points tri !! 2%nat = Some p2 /\
          length hs = (n + 3)%nat /\
          (forall u, (u < n)%nat -> pointsOf hs u = pointsOf (heap d) u) /\
          pointsOf hs n = [p0; p1; point] /\
          pointsOf hs (S n) = [point; p1; p2] /\
          pointsOf hs (S (S n)) = [p0; point; p2] /\
          ((forall m, In (Some m) (neighbors tri) -> (m < n)%nat) ->
           neighborsOf hs n = [array_get (neighbors tri) 0; Some (S n); Some (S (S n))] /\
           neighborsOf hs (S n) = [Some n; array_get (neighbors tri) 1; Some (S (S n))] /\
           neighborsOf hs (S (S n)) = [Some n; Some (S n); array_get (neighbors tri) 2]) /\
          (let* h1 := findAndFixViolatedTriangles 100 hs n in
           let* h2 := findAndFixViolatedTriangles 100 h1 (S n) in
           findAndFixViolatedTriangles 100 h2 (S (S n))) = Ok (heap d')
    | None =>
        console d' = console d ++ [point] /\ length (heap d') = length (heap d) /\
        root d' = root d
    end.
Proof.
  intros d point d'.
  assert (H : insertPoint 100 d point = Ok d') by (vm_compute; reflexivity).
  split; [exact H|].
  exact (insertPoint_splits_whenever_located float floatNumber 100 d d' point H).
Defined.

(** ** Zero denominators (C7) *)

Section ZeroDenominator.

Lemma eqb_zero_inv (d : float) :
  PrimFloat.eqb d PrimFloat.zero = true -> exists s, Prim2SF d = S754_zero s.
Proof.
  rewrite FloatAxioms.eqb_spec. change (Prim2SF PrimFloat.zero) with (S754_zero false).
  destruct (Prim2SF d) as [s|s| |s m e]; simpl; try discriminate; eauto.
  - destruct s; discriminate.
  - destruct s; discriminate.
Qed.

Lemma div_zero_nonfinite (n d : float) :
  PrimFloat.eqb d PrimFloat.zero = true -> nonfinite (Prim2SF (PrimFloat.div n d)).
Proof.
  intros Hd. destruct (eqb_zero_inv d Hd) as [s Hs]. rewrite FloatAxioms.div_spec, Hs.
  destruct (Prim2SF n) as [sn|sn| |sn m e]; simpl; auto.
Qed.

Lemma nonfinite_is_finite (x : float) : nonfinite (Prim2SF x) -> is_finite x = false.
Proof.
  unfold is_finite, is_nan, is_infinity. rewrite !FloatAxioms.eqb_spec, FloatAxioms.abs_spec.
  change (Prim2SF infinity) with (S754_infinity false).
  destruct (Prim2SF x) as [s|s| |s m e]; simpl; try tauto.
  intros _. destruct s; reflexivity.
Qed.

Lemma leb_zero_nonfinite (x : float) :
  nonfinite (Prim2SF x) -> PrimFloat.leb PrimFloat.zero x = true ->
  Prim2SF x = S754_infinity false.
Proof.
  rewrite FloatAxioms.leb_spec. change (Prim2SF PrimFloat.zero) with (S754_zero false).
  destruct (Prim2SF x) as [s|s| |s m e]; simpl; intros Hn Hl;
    try contradiction; try discriminate.
  destruct s; [discriminate|reflexivity].
Qed.

Lemma containment_test_zero_denominator (nu nv d : float) :
  PrimFloat.eqb d PrimFloat.zero = true ->
  PrimFloat.leb PrimFloat.zero (PrimFloat.div nu d)
  && PrimFloat.leb PrimFloat.zero (PrimFloat.div nv d)
  && PrimFloat.leb (PrimFloat.add (PrimFloat.div nu d) (PrimFloat.div nv d)) PrimFloat.one
  = false.
Proof.
  intros Hd.
  pose proof (div_zero_nonfinite nu d Hd) as Hu.
  pose proof (div_zero_nonfinite nv d Hd) as Hv.
  destruct (PrimFloat.leb PrimFloat.zero (PrimFloat.div nu d)) eqn:Eu; [|reflexivity].
  destruct (PrimFloat.leb PrimFloat.zero (PrimFloat.div nv d)) eqn:Ev; [|reflexivity].
  apply leb_zero_nonfinite in Eu; [|exact Hu].
  apply leb_zero_nonfinite in Ev; [|exact Hv].
  simpl. rewrite FloatAxioms.leb_spec, FloatAxioms.add_spec, Eu, Ev. reflexivity.
Qed.

Lemma sub_nonfinite (a b : float) :
  nonfinite (Prim2SF b) -> nonfinite (Prim2SF (PrimFloat.sub a b)).
Proof.
  rewrite FloatAxioms.sub_spec.
  destruct (Prim2SF b) as [s|s| |s m e]; simpl; try contradiction; intros _.
  - destruct (Prim2SF a) as [sa|sa| |sa ma ea]; simpl; auto.
    destruct sa, s; simpl; auto.
  - destruct (Prim2SF a) as [sa|sa| |sa ma ea]; simpl; auto.
Qed.

Lemma square_unbounded (x : float) :
  nonfinite (Prim2SF x) -> unbounded (Prim2SF (PrimFloat.mul x x)).
Proof.
  rewrite FloatAxioms.mul_spec.
  destruct (Prim2SF x) as [s|s| |s m e]; simpl; try contradiction; intros _; auto.
  destruct s; simpl; auto.
Qed.

Lemma add_unbounded (a b : float) :
  unbounded (Prim2SF a) -> unbounded (Prim2SF b) ->
  unbounded (Prim2SF (PrimFloat.add a b)).
Proof.
  rewrite FloatAxioms.add_spec.
  destruct (Prim2SF a) as [[|]|[|]| |s m e]; simpl; try contradiction; intros _;
    destruct (Prim2SF b) as [[|]|[|]| |sb mb eb]; simpl; try contradiction; auto.
Qed.

Lemma distance_unbounded (c p : Point float) :
  nonfinite (Prim2SF (px c)) -> nonfinite (Prim2SF (py c)) ->
  unbounded (Prim2SF (calculateDistanceSquarePlane c p)).
Proof.
  intros Hx Hy. unfold calculateDistanceSquarePlane. cbn [nadd nsub nmul floatNumber].
  apply add_unbounded; apply square_unbounded; apply sub_nonfinite; assumption.
Qed.

Lemma strictlyLessThan_unbounded (d r : float) :
  unbounded (Prim2SF d) -> unbounded (Prim2SF r) -> strictlyLessThan d r = false.
Proof.
  intros Hd Hr. unfold strictlyLessThan. cbn [nadd nmul nabs nlt nconst floatNumber].
  rewrite FloatAxioms.ltb_spec, FloatAxioms.add_spec, FloatAxioms.mul_spec,
    FloatAxioms.abs_spec.
  destruct (Prim2SF d) as [[|]|[|]| |s m e]; simpl in Hd; try contradiction;
    destruct (Prim2SF r) as [[|]|[|]| |sr mr er]; simpl in Hr; try contradiction;
    vm_compute; reflexivity.
Qed.

End ZeroDenominator.

(** C7, the statement of the specification fails.  For three collinear
    vertices, and for three coincident ones, both divisors are zero, yet
    both functions return normally: the circumcentre has coordinates that
    are infinite or NaN, and the containment test answers [false]. *)
Lemma degenerate_triangle_not_rejected :
  let line := [fvertex 1 0 0 0; fvertex 2 1 1 0; fvertex 3 2 2 0] in
  let dot := [fvertex 1 1 1 0; fvertex 2 1 1 0; fvertex 3 1 1 0] in
  neq (circumcentreDenominator 0%float 0%float 1%float 1%float 2%float 2%float)
      0%float = true /\
  neq (containmentDenominator 0%float 0%float 1%float 1%float 2%float 2%float)
      0%float = true /\
  calculateCircumcentre line = Ok (mkPoint neg_infinity infinity 0%float) /\
  isPointInTriangle (newTriangle line [None; None; None]) (fpoint 1 1 0) = Ok false /\
  calculateCircumcentre dot = Ok (mkPoint nan nan 0%float) /\
  isPointInTriangle (newTriangle dot [None; None; None]) (fpoint 1 1 0) = Ok false.
Proof. vm_compute. repeat split; reflexivity. Qed.

(** C7 as amended.  Neither function tests its divisor and neither raises
    an error: both return for every three vertices.  When the divisor of
    the containment system is zero, [isPointInTriangle] returns [false]
    for every query point.  When the divisor of the circumcentre system is
    zero, [calculateCircumcentre] returns a point whose [x] and [y] are
    not finite; every squared distance measured from it is [+Infinity] or
    NaN, so every [strictlyLessThan] test between two such distances (a
    distance against the radius) answers [false].  The two divisors are
    different expressions and either can be zero without the other. *)
Theorem zero_denominator_flows_on (p1 p2 p3 : Vertex float) :
  (forall (point : Point float) (nbs : list (option nat)),
     exists b : bool, isPointInTriangle (newTriangle [p1; p2; p3] nbs) point = Ok b) /\
  (exists c : Point float, calculateCircumcentre [p1; p2; p3] = Ok c) /\
  (neq (containmentDenominator (px p1) (py p1) (px p2) (py p2) (px p3) (py p3))
       (nconst 0) = true ->
   forall (point : Point float) (nbs : list (option nat)),
     isPointInTriangle (newTriangle [p1; p2; p3] nbs) point = Ok false) /\
  (neq (circumcentreDenominator (px p1) (py p1) (px p2) (py p2) (px p3) (py p3))
       (nconst 0) = true ->
   exists c : Point float,
     calculateCircumcentre [p1; p2; p3] = Ok c /\
     is_finite (px c) = false /\ is_finite (py c) = false /\
     forall p q : Point float,
       strictlyLessThan (calculateDistanceSquarePlane c p)
                        (calculateDistanceSquarePlane c q) = false).
Proof.
  split; [|split; [|split]].
  - intros point nbs. unfold isPointInTriangle.
    cbn [points newTriangle getPoint deref rbind lookup list_lookup]. eexists. reflexivity.
  - unfold calculateCircumcentre. cbn [getPoint deref rbind lookup list_lookup].
    eexists. reflexivity.
  - intros Hcont point nbs. unfold isPointInTriangle.
    cbn [points newTriangle getPoint deref rbind lookup list_lookup].
    unfold containmentU, containmentV. f_equal.
    apply (containment_test_zero_denominator _ _ _ Hcont).
  - intros Hcirc. unfold calculateCircumcentre. cbn [getPoint deref rbind lookup list_lookup].
    eexists. split; [reflexivity|]. cbn [px py].
    match goal with
    | |- is_finite ?U = false /\ is_finite ?V = false /\ _ =>
        assert (Hu : nonfinite (Prim2SF U)) by (apply div_zero_nonfinite; exact Hcirc);
        assert (Hv : nonfinite (Prim2SF V)) by (apply div_zero_nonfinite; exact Hcirc)
    end.
    split; [apply nonfinite_is_finite; exact Hu|].
    split; [apply nonfinite_is_finite; exact Hv|].
    intros p q. apply strictlyLessThan_unbounded; apply distance_unbounded; assumption.
Qed.

Lemma zero_denominator_flows_on_witness :
  let a1 := fvertex 1 0 0.1 0 in
  let a2 := fvertex 2 0.1 0.1 0 in
  let a3 := fvertex 3 0.3 0.1 0 in
  let b1 := fvertex 1 0 0.1 0 in
  let b2 := fvertex 2 0.2 0.3 0 in
  let b3 := fvertex 3 0.5 0.6 0 in
  (neq (containmentDenominator (px a1) (py a1) (px a2) (py a2) (px a3) (py a3))
       (nconst 0) = true /\
   neq (circumcentreDenominator (px a1) (py a1) (px a2) (py a2) (px a3) (py a3))
       (nconst 0) = false /\
   isPointInTriangle (newTriangle [a1; a2; a3] [None; None; None]) (fpoint 0.1 0.1 0)
   = Ok false) /\
  (neq (circumcentreDenominator (px b1) (py b1) (px b2) (py b2) (px b3) (py b3))
       (nconst 0) = true /\
   neq (containmentDenominator (px b1) (py b1) (px b2) (py b2) (px b3) (py b3))
       (nconst 0) = false /\
   exists c : Point float,
     calculateCircumcentre [b1; b2; b3] = Ok c /\
     is_finite (px c) = false /\ is_finite (py c) = false /\
     forall p q : Point float,
       strictlyLessThan (calculateDistanceSquarePlane c p)
                        (calculateDistanceSquarePlane c q) = false).
Proof.
  intros a1 a2 a3 b1 b2 b3.
  assert (HA : neq (containmentDenominator (px a1) (py a1) (px a2) (py a2) (px a3) (py a3))
                   (nconst 0) = true) by (vm_compute; reflexivity).
  assert (HB : neq (circumcentreDenominator (px b1) (py b1) (px b2) (py b2) (px b3) (py b3))
                   (nconst 0) = true) by (vm_compute; reflexivity).
  split.
  - split; [exact HA|]. split; [vm_compute; reflexivity|].
    exact (proj1 (proj2 (proj2 (zero_denominator_flows_on a1 a2 a3))) HA
             (fpoint 0.1 0.1 0) [None; None; None]).
  - split; [exact HB|]. split; [vm_compute; reflexivity|].
    exact (proj2 (proj2 (proj2 (zero_denominator_flows_on b1 b2 b3))) HB).
Defined.

(** * Further properties of the code *)

(** ** The sorted-array queue *)

Section SortedQueueFacts.
Context {F : Type} {NF : Number F} {A : Type}.
Variable compare : option A -> option A -> res F.

Lemma middle_bounds (begin end_ : Z) :
  (begin <= end_)%Z ->
  let m := (begin + (end_ - begin) / 2)%Z in
  (begin <= m <= end_)%Z /\ (begin < end_ -> m < end_)%Z /\
  (2 * (m - begin) <= end_ - begin <= 2 * (m - begin) + 1)%Z.
Proof.
  intros H m. unfold m.
  pose proof (Z.div_mod (end_ - begin) 2 ltac:(lia)).
  pose proof (Z.mod_pos_bound (end_ - begin) 2 ltac:(lia)). lia.
Qed.

Lemma searchLoop_returns (fuel : nat) (elements : list A) (element : A) :
  (forall a b, compare a b <> Timeout) ->
  forall begin end_ j : Z,
    (0 <= begin <= end_)%Z -> (end_ <= Z.of_nat (length elements))%Z ->
    (potential begin end_ j < Z.of_nat fuel)%Z ->
    SortedQueue.searchLoop compare fuel elements element begin end_ j <> Timeout /\
    forall i, SortedQueue.searchLoop compare fuel elements element begin end_ j = Ok i ->
              (begin <= i <= Z.max end_ (begin + 1))%Z.
Proof.
  intros Hcmp. induction fuel as [|fuel IH]; intros begin end_ j Hb He Hp.
  - unfold potential in Hp. destruct (_ =? _)%Z; lia.
  - cbn [SortedQueue.searchLoop].
    pose proof (middle_bounds begin end_ (proj2 Hb)) as Hm. cbv zeta in Hm.
    unfold potential in Hp.
    set (m := (begin + (end_ - begin) / 2)%Z) in *.
    pose proof (Hcmp (Some element) (SortedQueue.nth_slot elements m)) as Hc.
    destruct (compare (Some element) (SortedQueue.nth_slot elements m)) as [c| |];
      cbn [rbind]; [|split; [discriminate|intros ? [=]]|contradiction].
    destruct (Z.eqb_spec m j) as [Hj|Hj].
    + (* the middle did not move: the round returns *)
      destruct (nlt (nconst 0) c); [|destruct (nlt c (nconst 0))].
      * split; [discriminate|]. intros i [= <-]. destruct (nlt c (nconst 0)); lia.
      * split; [discriminate|]. intros i [= <-]. lia.
      * split; [discriminate|]. intros i [= <-]. lia.
    + destruct (nlt (nconst 0) c).
      * destruct (IH m end_ m) as [IH1 IH2]; [lia|lia| |].
        { unfold potential.
          pose proof (middle_bounds m end_ ltac:(lia)) as Hm'. cbv zeta in Hm'.
          destruct (Z.eqb_spec (m + (end_ - m) / 2) m); lia. }
        split; [exact IH1|]. intros i Hi. apply IH2 in Hi. lia.
      * destruct (nlt c (nconst 0)).
        -- destruct (IH begin m m) as [IH1 IH2]; [lia|lia| |].
           { unfold potential.
             pose proof (middle_bounds begin m ltac:(lia)) as Hm'. cbv zeta in Hm'.
             destruct (Z.eqb_spec (begin + (m - begin) / 2) m); lia. }
           split; [exact IH1|]. intros i Hi. apply IH2 in Hi. lia.
        -- split; [discriminate|]. intros i [= <-]. lia.
Qed.

(** X4.  For every comparator that comes back, the [while (true)] of
    [searchBinary] is left after at most [2 * length + 2] rounds, and an
    index that is returned is a position of the array or the position just
    past its end. *)
Theorem searchBinary_returns_in_range (elements : list A) (element : A) :
  (forall a b, compare a b <> Timeout) ->
  SortedQueue.searchBinary compare elements element <> Timeout /\
  forall i, SortedQueue.searchBinary compare elements element = Ok i ->
            (0 <= i <= Z.of_nat (length elements))%Z.
Proof.
  intros Hcmp. unfold SortedQueue.searchBinary.
  destruct (Z.leb_spec (Z.of_nat (length elements)) 0) as [H0|H0].
  - split; [discriminate|]. intros i [= <-]. lia.
  - destruct (searchLoop_returns (2 * length elements + 2) elements element Hcmp
                0 (Z.of_nat (length elements)) 0) as [H1 H2]; [lia|lia| |].
    { unfold potential. destruct (_ =? _)%Z; lia. }
    split; [exact H1|]. intros i Hi. apply H2 in Hi. lia.
Qed.

End SortedQueueFacts.


Lemma StronglySorted_lookup_lt {A} (R : A -> A -> Prop) (l : list A) (i j : nat) (x y : A) :
  StronglySorted R l -> (i < j)%nat -> l !! i = Some x -> l !! j = Some y -> R x y.
Proof.
  intros Hs Hij Hi Hj. rewrite <- (take_drop j l) in Hs.
  apply (StronglySorted_app_1_elem_of R _ _ x y Hs).
  - apply list_elem_of_lookup. exists i. rewrite lookup_take_lt by lia. exact Hi.
  - apply list_elem_of_lookup. exists 0%nat. rewrite lookup_drop, Nat.add_0_r. exact Hj.
Qed.

Section SortedQueueOrder.
Context {F : Type} {NF : Number F} {A : Type}.
Variable compare : option A -> option A -> res F.
Variable ord : A -> A -> Prop.
Hypothesis ord_trans : forall a b c, ord a b -> ord b c -> ord a c.
Hypothesis compare_gt : forall a b c,
  compare (Some a) (Some b) = Ok c -> nlt (nconst 0) c = true -> ord b a.
Hypothesis compare_lt : forall a b c,
  compare (Some a) (Some b) = Ok c -> nlt c (nconst 0) = true -> ord a b.
Hypothesis compare_eq : forall a b c,
  compare (Some a) (Some b) = Ok c -> nlt (nconst 0) c = false -> nlt c (nconst 0) = false ->
  ord a b /\ ord b a.

Lemma nth_slot_Some (elements : list A) (i : Z) :
  (0 <= i < Z.of_nat (length elements))%Z ->
  exists x, SortedQueue.nth_slot elements i = Some x /\ elements !! Z.to_nat i = Some x.
Proof.
  intros Hi. unfold SortedQueue.nth_slot. destruct (Z.ltb_spec i 0); [lia|].
  destruct (lookup_lt_is_Some_2 elements (Z.to_nat i)) as [x Hx]; [lia|]. eauto.
Qed.

Lemma searchLoop_position (fuel : nat) (elements : list A) (element : A) :
  StronglySorted ord elements ->
  forall begin end_ j i : Z,
    (0 <= begin <= end_)%Z -> (end_ <= Z.of_nat (length elements))%Z ->
    (begin < Z.of_nat (length elements))%Z ->
    below ord elements element begin -> above ord elements element end_ ->
    previous compare elements element begin end_ j ->
    SortedQueue.searchLoop compare fuel elements element begin end_ j = Ok i ->
    (0 <= i)%Z /\ below ord elements element i /\ above ord elements element i.
Proof using ord_trans compare_gt compare_lt compare_eq.
  intros Hs. induction fuel as [|fuel IH]; intros begin end_ j i Hb He Hlen HB HA HP;
    [discriminate|].
  cbn [SortedQueue.searchLoop].
  pose proof (middle_bounds begin end_ (proj2 Hb)) as Hm. cbv zeta in Hm.
  set (m := (begin + (end_ - begin) / 2)%Z) in *.
  destruct (nth_slot_Some elements m) as (x & Hx & Hlx); [lia|].
  destruct (compare (Some element) (SortedQueue.nth_slot elements m)) as [c| |] eqn:Hc;
    cbn [rbind]; try discriminate.
  rewrite Hx in Hc.
  assert (Hlow : ord x element -> below ord elements element (m + 1)).
  { intros Hxe k y Hk Hy. destruct (decide (k = Z.to_nat m)) as [->|Hne].
    - rewrite Hlx in Hy. injection Hy as <-. exact Hxe.
    - apply (ord_trans _ x); [|exact Hxe].
      apply (StronglySorted_lookup_lt ord elements k (Z.to_nat m)); auto. lia. }
  assert (Hhigh : ord element x -> above ord elements element m).
  { intros Hex k y Hk Hy. destruct (decide (k = Z.to_nat m)) as [->|Hne].
    - rewrite Hlx in Hy. injection Hy as <-. exact Hex.
    - apply (ord_trans _ x); [exact Hex|].
      apply (StronglySorted_lookup_lt ord elements (Z.to_nat m) k); auto. lia. }
  assert (Hlow' : ord x element -> below ord elements element m).
  { intros Hxe k y Hk. apply Hlow; [exact Hxe|lia]. }
  destruct (nlt (nconst 0) c) eqn:Hgt.
  - (* c > 0 *)
    pose proof (compare_gt _ _ _ Hc Hgt) as Hxe.
    destruct (Z.eqb_spec m j) as [Hj|Hj].
    + intros [= <-]. destruct (nlt c (nconst 0)) eqn:Hlt.
      * split; [lia|].
        split; [apply Hlow'; exact Hxe|apply Hhigh; exact (compare_lt _ _ _ Hc Hlt)].
      * split; [lia|]. split; [apply Hlow; exact Hxe|].
        destruct HP as [[-> ->]|[[-> _]|[-> (c' & Hc' & Hgt')]]].
        -- intros k y Hk. apply HA. lia.
        -- intros k y Hk. apply HA. lia.
        -- rewrite <- Hj, Hx, Hc in Hc'. injection Hc' as <-. congruence.
    + apply IH; try lia.
      * apply Hlow'. exact Hxe.
      * exact HA.
      * right. left. split; [reflexivity|]. exists c. rewrite Hx. auto.
  - destruct (nlt c (nconst 0)) eqn:Hlt.
    + pose proof (compare_lt _ _ _ Hc Hlt) as Hex.
      destruct (Z.eqb_spec m j) as [Hj|Hj].
      * intros [= <-]. split; [lia|]. split; [|apply Hhigh; exact Hex].
        destruct HP as [[-> ->]|[[-> (c' & Hc' & Hgt')]|[-> _]]].
        -- intros k y Hk. lia.
        -- rewrite <- Hj, Hx, Hc in Hc'. injection Hc' as <-. congruence.
        -- intros k y Hk. apply HB. lia.
      * apply IH; try lia.
        -- exact HB.
        -- apply Hhigh. exact Hex.
        -- right. right. split; [reflexivity|]. exists c. rewrite Hx. auto.
    + intros [= <-]. destruct (compare_eq _ _ _ Hc Hgt Hlt) as [Hex Hxe].
      split; [lia|]. split; [apply Hlow'; exact Hxe|apply Hhigh; exact Hex].
Qed.

Lemma searchBinary_position (elements : list A) (element : A) (i : Z) :
  StronglySorted ord elements ->
  SortedQueue.searchBinary compare elements element = Ok i ->
  (0 <= i)%Z /\ below ord elements element i /\ above ord elements element i.
Proof using ord_trans compare_gt compare_lt compare_eq.
  intros Hs. unfold SortedQueue.searchBinary.
  destruct (Z.leb_spec (Z.of_nat (length elements)) 0) as [H0|H0].
  - intros [= <-]. destruct elements; [|simpl in H0; lia].
    split; [lia|]. split; intros k x _ Hk; discriminate Hk.
  - apply (searchLoop_position _ _ _ Hs); try lia.
    + intros k x Hk. lia.
    + intros k x Hk Hx. apply lookup_lt_Some in Hx. lia.
    + left. auto.
Qed.


Lemma splice_Permutation (a : list A) (index : Z) (v : A) :
  Permutation (SortedQueue.splice a index v) (v :: a).
Proof.
  unfold SortedQueue.splice.
  set (n := Z.to_nat _). rewrite <- (take_drop n a) at 3.
  symmetry. apply Permutation_middle.
Qed.

(** X5.  On a sorted array [insert] puts the element where the order wants
    it: the array stays sorted and holds the old elements and the new one. *)
Theorem insert_keeps_sorted (q q' : SortedQueue.Queue A) (element : A) :
  StronglySorted ord (SortedQueue.elements q) ->
  SortedQueue.insert compare q element = Ok q' ->
  StronglySorted ord (SortedQueue.elements q') /\
  Permutation (SortedQueue.elements q') (element :: SortedQueue.elements q).
Proof using ord_trans compare_gt compare_lt compare_eq.
  intros Hs. unfold SortedQueue.insert.
  destruct (SortedQueue.searchBinary compare (SortedQueue.elements q) element)
    as [i| |] eqn:Hi; cbn [rbind]; try discriminate.
  intros [= <-]. cbn [SortedQueue.elements]. split; [|apply splice_Permutation].
  destruct (searchBinary_position _ _ _ Hs Hi) as (H0 & HB & HA).
  unfold SortedQueue.splice. destruct (Z.ltb_spec i 0) as [?|_]; [lia|].
  set (l := SortedQueue.elements q) in *.
  set (n := Z.to_nat (Z.min i (Z.of_nat (length l)))).
  assert (Hlow : forall x, x ∈ take n l -> ord x element).
  { intros x Hx. apply list_elem_of_lookup in Hx as [k Hk].
    apply lookup_take_Some in Hk as [Hk Hkn]. apply (HB k x); [lia|exact Hk]. }
  assert (Hhigh : forall x, x ∈ drop n l -> ord element x).
  { intros x Hx. apply list_elem_of_lookup in Hx as [k Hk].
    rewrite lookup_drop in Hk. pose proof (lookup_lt_Some _ _ _ Hk).
    apply (HA (n + k)%nat x); [lia|exact Hk]. }
  rewrite <- (take_drop n l) in Hs.
  apply StronglySorted_app in Hs as (Hcross & Hs1 & Hs2).
  apply StronglySorted_app_2; [|exact Hs1|].
  - intros x1 x2 H1 H2. apply elem_of_cons in H2 as [->|H2]; [auto|].
    apply Hcross; auto.
  - apply StronglySorted_cons. split; [|exact Hs2].
    apply Forall_forall. intros x Hx. apply Hhigh. exact Hx.
Qed.

(** X6.  [pop] takes the last element of the array: on a sorted array that is
    an element no other is above, and the rest stays sorted. *)
Theorem pop_returns_greatest (q : SortedQueue.Queue A) :
  StronglySorted ord (SortedQueue.elements q) ->
  SortedQueue.isEmpty q = false ->
  exists e : A,
    (SortedQueue.pop q).1 = Some e /\
    SortedQueue.elements q = SortedQueue.elements (SortedQueue.pop q).2 ++ [e] /\
    (forall x, In x (SortedQueue.elements (SortedQueue.pop q).2) -> ord x e) /\
    StronglySorted ord (SortedQueue.elements (SortedQueue.pop q).2).
Proof.
  intros Hs He. unfold SortedQueue.isEmpty in He. apply Nat.eqb_neq in He.
  unfold SortedQueue.pop. cbn [fst snd SortedQueue.elements].
  destruct (SortedQueue.elements q) as [|x l] using rev_ind; [contradiction|].
  exists x. rewrite last_snoc, removelast_last.
  split; [reflexivity|]. split; [reflexivity|].
  apply StronglySorted_app in Hs as (Hcross & Hs1 & _).
  split; [|exact Hs1].
  intros y Hy. apply Hcross; [apply list_elem_of_In; exact Hy|apply list_elem_of_here].
Qed.

End SortedQueueOrder.

Lemma compareBits_gt (a b : bool) (c : float) :
  compareBits (Some a) (Some b) = Ok c -> nlt (nconst 0) c = true -> implb b a = true.
Proof. destruct a, b; intros [= <-]; vm_compute; congruence. Qed.
Lemma compareBits_lt (a b : bool) (c : float) :
  compareBits (Some a) (Some b) = Ok c -> nlt c (nconst 0) = true -> implb a b = true.
Proof. destruct a, b; intros [= <-]; vm_compute; congruence. Qed.
Lemma compareBits_eq (a b : bool) (c : float) :
  compareBits (Some a) (Some b) = Ok c -> nlt (nconst 0) c = false ->
  nlt c (nconst 0) = false -> implb a b = true /\ implb b a = true.
Proof. destruct a, b; intros [= <-]; vm_compute; intros; split; congruence. Qed.
Lemma implb_trans (a b c : bool) : implb a b = true -> implb b c = true -> implb a c = true.
Proof. destruct a, b, c; auto. Qed.

Lemma insert_keeps_sorted_witness :
  let ord (a b : bool) := implb a b = true in
  let q := SortedQueue.mkQueue [false; false; true] in
  let q' := SortedQueue.mkQueue [false; false; true; true] in
  StronglySorted ord (SortedQueue.elements q) /\
  SortedQueue.insert compareBits q true = Ok q' /\
  StronglySorted ord (SortedQueue.elements q') /\
  Permutation (SortedQueue.elements q') (true :: SortedQueue.elements q).
Proof.
  intros ord q q'.
  assert (Hs : StronglySorted ord (SortedQueue.elements q)).
  { repeat constructor. }
  assert (Hi : SortedQueue.insert compareBits q true = Ok q') by (vm_compute; reflexivity).
  split; [exact Hs|]. split; [exact Hi|].
  exact (insert_keeps_sorted compareBits ord implb_trans compareBits_gt compareBits_lt
           compareBits_eq q q' true Hs Hi).
Defined.

Lemma compareBits_returns (a b : option bool) : compareBits a b <> Timeout.
Proof. destruct a as [[|]|], b as [[|]|]; discriminate. Qed.

Lemma searchBinary_returns_in_range_witness :
  (forall a b, compareBits a b <> Timeout) /\
  SortedQueue.searchBinary compareBits [false; false; true] true <> Timeout /\
  forall i, SortedQueue.searchBinary compareBits [false; false; true] true = Ok i ->
            (0 <= i <= Z.of_nat (length [false; false; true]))%Z.
Proof.
  split; [exact compareBits_returns|].
  exact (searchBinary_returns_in_range compareBits [false; false; true] true
           compareBits_returns).
Defined.

Lemma pop_returns_greatest_witness :
  let ord (a b : bool) := implb a b = true in
  let q := SortedQueue.mkQueue [false; false; true] in
  StronglySorted ord (SortedQueue.elements q) /\
  SortedQueue.isEmpty q = false /\
  exists e : bool,
    (SortedQueue.pop q).1 = Some e /\
    SortedQueue.elements q = SortedQueue.elements (SortedQueue.pop q).2 ++ [e] /\
    (forall x, In x (SortedQueue.elements (SortedQueue.pop q).2) -> ord x e) /\
    StronglySorted ord (SortedQueue.elements (SortedQueue.pop q).2).
Proof.
  intros ord q.
  assert (Hs : StronglySorted ord (SortedQueue.elements q)) by (repeat constructor).
  assert (He : SortedQueue.isEmpty q = false) by reflexivity.
  split; [exact Hs|]. split; [exact He|].
  exact (pop_returns_greatest ord q Hs He).
Defined.

(** ** The binary heap: contents and order *)

Lemma array_set_in_range {A} (a : list (option A)) (i : nat) (v : option A) :
  (i < length a)%nat -> array_set a i v = <[i := v]> a.
Proof. intros H. unfold array_set. destruct (decide (i < length a)%nat); [reflexivity|lia]. Qed.

Lemma array_get_lookup {A} (a : list (option A)) (i : nat) (x : option A) :
  a !! i = Some x -> array_get a i = x.
Proof. intros H. unfold array_get. rewrite H. reflexivity. Qed.

Lemma swap_lookup {A} (els : list (option A)) (lhs rhs : nat) (x y : option A) :
  els !! lhs = Some x -> els !! rhs = Some y ->
  forall k, swap els lhs rhs !! k =
            if decide (k = rhs) then Some x else if decide (k = lhs) then Some y else els !! k.
Proof.
  intros Hl Hr k. unfold swap.
  pose proof (lookup_lt_Some _ _ _ Hl). pose proof (lookup_lt_Some _ _ _ Hr).
  rewrite (array_get_lookup _ _ _ Hl), (array_get_lookup _ _ _ Hr).
  rewrite (array_set_in_range els) by lia.
  rewrite array_set_in_range by (rewrite length_insert; lia).
  destruct (decide (k = rhs)) as [->|Hk].
  - rewrite list_lookup_insert_eq by (rewrite length_insert; lia). reflexivity.
  - rewrite list_lookup_insert_ne by auto.
    destruct (decide (k = lhs)) as [->|Hk'].
    + rewrite list_lookup_insert_eq by lia. reflexivity.
    + rewrite list_lookup_insert_ne by auto. reflexivity.
Qed.

Lemma swap_Permutation {A} (els : list (option A)) (lhs rhs : nat) :
  (lhs < length els)%nat -> (rhs < length els)%nat -> swap els lhs rhs ≡ₚ els.
Proof.
  intros Hl Hr.
  destruct (lookup_lt_is_Some_2 els lhs Hl) as [x Hx].
  destruct (lookup_lt_is_Some_2 els rhs Hr) as [y Hy].
  apply Permutation_inj. split; [apply swap_length; auto|].
  exists (fun k => if decide (k = rhs) then lhs else if decide (k = lhs) then rhs else k).
  split.
  - intros a b. repeat case_decide; intros; subst; congruence.
  - intros k. rewrite (swap_lookup els lhs rhs x y Hx Hy).
    repeat case_decide; subst; congruence.
Qed.

Section HeapContents.
Context {F : Type} {NF : Number F} {A : Type}.
Variable compare : option A -> option A -> res F.

Lemma rearranged_refl (els : list (option A)) : rearranged els els.
Proof. split; reflexivity. Qed.

Lemma rearranged_trans (a b c : list (option A)) :
  rearranged a b -> rearranged b c -> rearranged a c.
Proof. intros [P1 H1] [P2 H2]. split; [etrans; eauto|congruence]. Qed.

Lemma swap_rearranged (els : list (option A)) (lhs rhs : nat) :
  (0 < lhs < length els)%nat -> (0 < rhs < length els)%nat ->
  rearranged els (swap els lhs rhs).
Proof.
  intros Hl Hr. split; [apply swap_Permutation; lia|].
  destruct (lookup_lt_is_Some_2 els lhs ltac:(lia)) as [x Hx].
  destruct (lookup_lt_is_Some_2 els rhs ltac:(lia)) as [y Hy].
  rewrite (swap_lookup els lhs rhs x y Hx Hy).
  repeat case_decide; try lia. reflexivity.
Qed.

Lemma cascadeUp_rearranged (fuel : nat) :
  forall (els els' : list (option A)) (index : nat),
    (index < length els)%nat ->
    cascadeUp compare fuel els index = Ok els' -> rearranged els els'.
Proof.
  induction fuel as [|fuel IH]; intros els els' index Hi; simpl; [discriminate|].
  destruct (decide (1 < index)%nat) as [Hgt|Hle]; [|intros [= <-]; apply rearranged_refl].
  destruct (less compare els index (parentIndex index)) as [b| |]; simpl; try discriminate.
  assert (Hp : (0 < parentIndex index < index)%nat).
  { unfold parentIndex. split; [apply Nat.div_str_pos; lia|apply Nat.div_lt; lia]. }
  destruct b; [|intros [= <-]; apply rearranged_refl].
  intros Hc. apply IH in Hc; [|rewrite swap_length; lia].
  eapply rearranged_trans; [|exact Hc]. apply swap_rearranged; lia.
Qed.

Lemma cascadeDownLoop_rearranged (fuel : nat) :
  forall (els els' : list (option A)) (index : nat),
    (0 < index < length els)%nat ->
    cascadeDownLoop compare fuel (Z.of_nat (length els) - 1) els index = Ok els' ->
    rearranged els els'.
Proof.
  induction fuel as [|fuel IH]; intros els els' index Hi; simpl; [discriminate|].
  set (size := (Z.of_nat (length els) - 1)%Z).
  assert (Hstep : forall m, (index < m)%nat -> (Z.of_nat m <= size)%Z ->
    (let* b := less compare els index m in
     if negb b then cascadeDownLoop compare fuel size (swap els m index) m else Ok els)
    = Ok els' -> rearranged els els').
  { intros m Him Hm. destruct (less compare els index m) as [b| |]; simpl; try discriminate.
    destruct b; simpl; [intros [= <-]; apply rearranged_refl|].
    assert (Hml : (m < length els)%nat) by (unfold size in Hm; lia).
    intros Hc. assert (Hlen : length (swap els m index) = length els)
      by (apply swap_length; lia).
    unfold size in Hc. rewrite <- Hlen in Hc. apply IH in Hc; [|lia].
    eapply rearranged_trans; [|exact Hc]. apply swap_rearranged; lia. }
  destruct (decide (Z.of_nat (rightChildIndex index) <= size)%Z) as [Hr|Hr].
  - destruct (less compare els (leftChildIndex index) (rightChildIndex index))
      as [b| |]; simpl; try discriminate.
    unfold leftChildIndex, rightChildIndex in *. destruct b; apply Hstep; lia.
  - destruct (decide (Z.of_nat (leftChildIndex index) <= size)%Z) as [Hl|Hl]; simpl.
    + unfold leftChildIndex in *. apply Hstep; lia.
    + intros [= <-]. apply rearranged_refl.
Qed.

(** X7.  [insert] stores the new element and loses none: the array afterwards
    is a rearrangement of the old array with the element appended, and slot
    0 (the unused first slot) is never written. *)
Theorem insert_keeps_elements (q q' : Queue A) (e : A) :
  (1 <= length (elements q))%nat ->
  insert compare q e = Ok q' ->
  elements q' ≡ₚ Some e :: elements q /\ elements q' !! 0%nat = elements q !! 0%nat.
Proof.
  intros Hlen. unfold insert.
  destruct (cascadeUp compare (S (length (elements q))) (elements q ++ [Some e])
              (length (elements q))) as [els| |] eqn:Hc; simpl; try discriminate.
  intros [= <-]. simpl. apply cascadeUp_rearranged in Hc as [P H0]; [|rewrite length_app; simpl; lia].
  split.
  - rewrite P. symmetry. apply Permutation_cons_append.
  - rewrite H0. apply lookup_app_l. lia.
Qed.

Lemma pop_rearranged (q q' : Queue A) (value : option A) :
  (3 <= length (elements q))%nat ->
  pop compare q = Ok (value, q') ->
  exists (x0 y : option A) (l : list (option A)),
    elements q = x0 :: value :: l ++ [y] /\
    rearranged (x0 :: y :: l) (elements q').
Proof.
  intros Hlen. unfold pop, array_pop.
  destruct (elements q) as [|x0 [|x1 l]] eqn:Hq; try (simpl in Hlen; lia).
  destruct l as [|y l _] using rev_ind; [simpl in Hlen; lia|].
  change (x0 :: x1 :: l ++ [y]) with ([x0; x1] ++ l ++ [y]).
  rewrite !app_assoc, last_snoc, removelast_last. simpl mjoin.
  change (([x0; x1] ++ l)) with (x0 :: x1 :: l).
  rewrite array_set_in_range by (simpl; lia). cbn [base.insert list_insert].
  unfold cascadeDown.
  destruct (cascadeDownLoop compare _ _ _ 1) as [els'| |] eqn:Hc; simpl; try discriminate.
  intros [= <- <-]. simpl.
  apply cascadeDownLoop_rearranged in Hc; [|simpl; lia].
  exists x0, y, l. split; [reflexivity|exact Hc].
Qed.

(** X8.  [pop] on a queue with two or more stored elements removes the element
    of slot 1 and no other: the old array is a rearrangement of the returned
    element and the new array, and slot 0 is never written. *)
Theorem pop_removes_first (q q' : Queue A) (value : option A) :
  (3 <= length (elements q))%nat ->
  pop compare q = Ok (value, q') ->
  elements q !! 1%nat = Some value /\
  elements q ≡ₚ value :: elements q' /\
  elements q' !! 0%nat = elements q !! 0%nat.
Proof.
  intros Hlen Hpop.
  destruct (pop_rearranged q q' value Hlen Hpop) as (x0 & y & l & -> & P & H0).
  split; [reflexivity|]. split.
  - etrans; [|apply perm_skip; symmetry; exact P].
    etrans; [|apply perm_swap]. do 2 apply perm_skip.
    symmetry. apply Permutation_cons_append.
  - rewrite H0. reflexivity.
Qed.

End HeapContents.

Section HeapOrder.
Context {F : Type} {NF : Number F} {A : Type}.
Variable compare : option A -> option A -> res F.
Variable le : option A -> option A -> Prop.

Hypothesis le_trans : forall a b c, le a b -> le b c -> le a c.
Hypothesis compare_lt : forall a b c,
  compare a b = Ok c -> nlt c (nconst 0) = true -> le a b.
Hypothesis compare_ge : forall a b c,
  compare a b = Ok c -> nlt c (nconst 0) = false -> le b a.

Lemma less_spec (els : list (option A)) (lhs rhs : nat) (b : bool) :
  less compare els lhs rhs = Ok b ->
  if b then le (array_get els lhs) (array_get els rhs)
  else le (array_get els rhs) (array_get els lhs).
Proof using compare_lt compare_ge.
  unfold less. destruct (compare (array_get els lhs) (array_get els rhs)) as [c| |] eqn:Hc;
    cbn [rbind]; try discriminate.
  intros [= <-]. destruct (nlt c (nconst 0)) eqn:Hlt; eauto.
Qed.

Lemma array_get_swap (els : list (option A)) (lhs rhs k : nat) :
  (lhs < length els)%nat -> (rhs < length els)%nat ->
  array_get (swap els lhs rhs) k =
  if decide (k = rhs) then array_get els lhs
  else if decide (k = lhs) then array_get els rhs else array_get els k.
Proof.
  intros Hl Hr.
  destruct (lookup_lt_is_Some_2 els lhs Hl) as [x Hx].
  destruct (lookup_lt_is_Some_2 els rhs Hr) as [y Hy].
  unfold array_get at 1. rewrite (swap_lookup els lhs rhs x y Hx Hy).
  rewrite (array_get_lookup _ _ _ Hx), (array_get_lookup _ _ _ Hy).
  repeat case_decide; reflexivity.
Qed.

Lemma parentIndex_lt (i : nat) : (1 <= i)%nat -> (parentIndex i < i)%nat.
Proof. intros H. unfold parentIndex. apply Nat.div_lt; lia. Qed.

Lemma parentIndex_pos (i : nat) : (2 <= i)%nat -> (1 <= parentIndex i)%nat.
Proof. intros H. unfold parentIndex. apply Nat.div_str_pos. lia. Qed.

Lemma parentIndex_child (i index : nat) :
  parentIndex i = index <-> i = leftChildIndex index \/ i = rightChildIndex index.
Proof.
  unfold parentIndex, leftChildIndex, rightChildIndex.
  pose proof (Nat.div_mod_eq i 2). pose proof (Nat.mod_upper_bound i 2 ltac:(lia)).
  split.
  - intros <-. lia.
  - intros [->| ->].
    + apply Nat.div_mul. lia.
    + rewrite Nat.add_comm, Nat.div_add by lia. reflexivity.
Qed.

Lemma cascadeUp_heapOrdered (fuel : nat) :
  forall (els els' : list (option A)) (index : nat),
    (index < length els)%nat ->
    (forall i, (2 <= i < length els)%nat -> i <> index ->
               le (array_get els (parentIndex i)) (array_get els i)) ->
    ((2 <= index)%nat -> forall i, (2 <= i < length els)%nat -> parentIndex i = index ->
               le (array_get els (parentIndex index)) (array_get els i)) ->
    cascadeUp compare fuel els index = Ok els' -> heapOrdered le els'.
Proof using le_trans compare_lt compare_ge.
  induction fuel as [|fuel IH]; intros els els' index Hi H1 H2; simpl; [discriminate|].
  destruct (decide (1 < index)%nat) as [Hgt|Hle].
  2:{ intros [= <-] i Hr. apply H1; [exact Hr|lia]. }
  destruct (less compare els index (parentIndex index)) as [b| |] eqn:Hless;
    simpl; try discriminate.
  apply less_spec in Hless.
  pose proof (parentIndex_lt index ltac:(lia)) as Hp.
  pose proof (parentIndex_pos index ltac:(lia)) as Hp1.
  set (p := parentIndex index) in *.
  destruct b.
  2:{ intros [= <-] i Hr. destruct (decide (i = index)) as [->|Hne]; [exact Hless|].
      apply H1; auto. }
  intros Hc. apply IH in Hc; [exact Hc|rewrite swap_length; lia| |].
  - rewrite swap_length by lia. intros i Hr Hip.
    rewrite !array_get_swap by lia.
    destruct (decide (i = index)) as [->|Hne].
    + fold p. rewrite !decide_True by reflexivity.
      destruct (decide (index = p)); [lia|]. exact Hless.
    + rewrite (decide_False (P := i = p)) by exact Hip.
      destruct (decide (parentIndex i = p)) as [Hpp|Hpp].
      * apply (le_trans _ (array_get els p)); [exact Hless|].
        rewrite <- Hpp. apply H1; auto.
      * destruct (decide (parentIndex i = index)) as [Hpi|Hpi].
        -- apply H2; auto. 
        -- apply H1; auto.
  - rewrite swap_length by lia. intros Hp2 i Hr Hpi.
    pose proof (parentIndex_lt p ltac:(lia)) as Hpp.
    rewrite !array_get_swap by lia.
    rewrite (decide_False (P := parentIndex p = p)) by lia.
    rewrite (decide_False (P := parentIndex p = index)) by lia.
    assert (Hpar : le (array_get els (parentIndex p)) (array_get els p)).
    { apply H1; lia. }
    destruct (decide (i = p)) as [->|Hne]; [pose proof (parentIndex_lt p); lia|].
    destruct (decide (i = index)) as [->|Hne']; [exact Hpar|].
    apply (le_trans _ (array_get els p)); [exact Hpar|].
    rewrite <- Hpi. apply H1; auto.
Qed.

Lemma cascadeDownLoop_heapOrdered (fuel : nat) :
  forall (els els' : list (option A)) (index : nat),
    (1 <= index < length els)%nat ->
    (forall i, (2 <= i < length els)%nat -> parentIndex i <> index ->
               le (array_get els (parentIndex i)) (array_get els i)) ->
    ((2 <= index)%nat -> forall i, (2 <= i < length els)%nat -> parentIndex i = index ->
               le (array_get els (parentIndex index)) (array_get els i)) ->
    cascadeDownLoop compare fuel (Z.of_nat (length els) - 1) els index = Ok els' ->
    heapOrdered le els'.
Proof using le_trans compare_lt compare_ge.
  induction fuel as [|fuel IH]; intros els els' index Hi H1 H2; simpl; [discriminate|].
  set (size := (Z.of_nat (length els) - 1)%Z).
  assert (Hstep : forall m, (m < length els)%nat -> parentIndex m = index ->
    (forall o, (o < length els)%nat -> parentIndex o = index ->
               o = m \/ le (array_get els m) (array_get els o)) ->
    (let* b := less compare els index m in
     if negb b then cascadeDownLoop compare fuel size (swap els m index) m else Ok els)
    = Ok els' -> heapOrdered le els').
  { intros m Hm Hpm Hmin.
    assert (Him : (index < m)%nat).
    { apply parentIndex_child in Hpm. unfold leftChildIndex, rightChildIndex in Hpm. lia. }
    destruct (less compare els index m) as [b| |] eqn:Hless; simpl; try discriminate.
    apply less_spec in Hless. destruct b; simpl.
    - intros [= <-] i Hr. destruct (decide (parentIndex i = index)) as [Hpi|Hpi].
      + rewrite Hpi. destruct (Hmin i ltac:(lia) Hpi) as [->|Hle]; [exact Hless|].
        apply (le_trans _ (array_get els m)); auto.
      + apply H1; auto.
    - intros Hc. assert (Hlen : length (swap els m index) = length els)
        by (apply swap_length; lia).
      unfold size in Hc. rewrite <- Hlen in Hc. apply IH in Hc; [exact Hc|lia| |].
      + rewrite Hlen. intros i Hr Hpi.
        rewrite !array_get_swap by lia.
        destruct (decide (i = index)) as [->|Hne].
        * pose proof (parentIndex_lt index ltac:(lia)).
          rewrite (decide_False (P := parentIndex index = index)) by lia.
          rewrite (decide_False (P := parentIndex index = m)) by lia.
          apply H2; [lia|lia|exact Hpm].
        * destruct (decide (i = m)) as [->|Hne'].
          -- rewrite Hpm. rewrite decide_True by reflexivity. exact Hless.
          -- destruct (decide (parentIndex i = index)) as [Hpi'|Hpi'].
             ++ destruct (Hmin i ltac:(lia) Hpi') as [->|Hle]; [contradiction|exact Hle].
             ++ rewrite (decide_False (P := parentIndex i = m)) by exact Hpi.
                apply H1; auto.
      + rewrite Hlen. intros Hm2 i Hr Hpi.
        rewrite !array_get_swap by lia. rewrite Hpm.
        rewrite decide_True by reflexivity.
        pose proof (parentIndex_lt i ltac:(lia)).
        rewrite (decide_False (P := i = index)) by lia.
        rewrite (decide_False (P := i = m)) by lia.
        rewrite <- Hpi. apply H1; [lia|lia]. }
  assert (Hkids : forall o, (o < length els)%nat -> parentIndex o = index ->
                            o = leftChildIndex index \/ o = rightChildIndex index).
  { intros o _ Ho. apply parentIndex_child. exact Ho. }
  destruct (decide (Z.of_nat (rightChildIndex index) <= size)%Z) as [Hr|Hr].
  - destruct (less compare els (leftChildIndex index) (rightChildIndex index))
      as [b| |] eqn:Hless; simpl; try discriminate.
    apply less_spec in Hless.
    assert (Hrl : (rightChildIndex index < length els)%nat) by (unfold size in Hr; lia).
    assert (Hll : (leftChildIndex index < length els)%nat)
      by (unfold leftChildIndex, rightChildIndex in *; lia).
    destruct b; apply Hstep; auto.
    + apply parentIndex_child. auto.
    + intros o Ho Hpo. destruct (Hkids o Ho Hpo) as [->| ->]; auto.
    + apply parentIndex_child. auto.
    + intros o Ho Hpo. destruct (Hkids o Ho Hpo) as [->| ->]; auto.
  - destruct (decide (Z.of_nat (leftChildIndex index) <= size)%Z) as [Hl|Hl]; simpl.
    + apply Hstep.
      * unfold size in Hl. lia.
      * apply parentIndex_child. auto.
      * intros o Ho Hpo. destruct (Hkids o Ho Hpo) as [->| ->]; auto.
        unfold size in Hr. lia.
    + intros [= <-] i Hri. apply H1; [exact Hri|].
      intros Hpi. apply parentIndex_child in Hpi. unfold size in *.
      unfold leftChildIndex, rightChildIndex in *. lia.
Qed.

Lemma array_get_app_l (l1 l2 : list (option A)) (i : nat) :
  (i < length l1)%nat -> array_get (l1 ++ l2) i = array_get l1 i.
Proof. intros H. unfold array_get. rewrite lookup_app_l by exact H. reflexivity. Qed.

(** X9.  [insert] keeps the heap in order: if every stored element from
    slot 2 on has its parent below it before the call, so it has after. *)
Theorem insert_keeps_heapOrdered (q q' : Queue A) (e : A) :
  heapOrdered le (elements q) ->
  insert compare q e = Ok q' ->
  heapOrdered le (elements q').
Proof using le_trans compare_lt compare_ge.
  intros Hh. unfold insert.
  destruct (cascadeUp compare (S (length (elements q))) (elements q ++ [Some e])
              (length (elements q))) as [els| |] eqn:Hc; simpl; try discriminate.
  intros [= <-]. simpl. revert Hc. apply cascadeUp_heapOrdered.
  - rewrite length_app. simpl. lia.
  - rewrite length_app. simpl. intros i Hr Hne.
    pose proof (parentIndex_lt i ltac:(lia)).
    rewrite !array_get_app_l by lia. apply Hh. lia.
  - rewrite length_app. simpl. intros _ i Hr Hpi.
    pose proof (parentIndex_lt i ltac:(lia)). lia.
Qed.

(** In an ordered heap the element of slot 1 is below every other stored
    element. *)
Lemma heapOrdered_root (els : list (option A)) :
  heapOrdered le els ->
  forall i, (2 <= i < length els)%nat -> le (array_get els 1) (array_get els i).
Proof using le_trans.
  intros Hh i. induction i as [i IH] using lt_wf_ind. intros Hr.
  pose proof (parentIndex_lt i ltac:(lia)) as Hp.
  pose proof (parentIndex_pos i ltac:(lia)) as Hp1.
  destruct (decide (parentIndex i = 1%nat)) as [H1|H1].
  - rewrite <- H1. apply Hh. exact Hr.
  - apply (le_trans _ (array_get els (parentIndex i))); [apply IH; lia|apply Hh; exact Hr].
Qed.

(** X10.  [pop] on an ordered heap with two or more stored elements returns an
    element that is below every element it leaves in the queue, and leaves
    the heap in order. *)
Theorem pop_returns_least (q q' : Queue A) (value : option A) :
  heapOrdered le (elements q) ->
  (3 <= length (elements q))%nat ->
  pop compare q = Ok (value, q') ->
  heapOrdered le (elements q') /\
  forall (k : nat) (x : option A),
    (1 <= k)%nat -> elements q' !! k = Some x -> le value x.
Proof using le_trans compare_lt compare_ge.
  intros Hh Hlen Hpop.
  pose proof (heapOrdered_root _ Hh) as Hroot.
  destruct (pop_rearranged compare q q' value Hlen Hpop) as (x0 & y & l & Hq & P & H0).
  rewrite Hq in Hh, Hroot.
  split.
  - revert Hpop. unfold pop, array_pop. rewrite Hq.
    change (x0 :: value :: l ++ [y]) with ([x0; value] ++ l ++ [y]).
    rewrite !app_assoc, last_snoc, removelast_last. simpl mjoin.
    change (([x0; value] ++ l)) with (x0 :: value :: l).
    rewrite array_set_in_range by (simpl; lia). cbn [base.insert list_insert].
    unfold cascadeDown.
    destruct (cascadeDownLoop compare _ _ _ 1) as [els'| |] eqn:Hc; simpl; try discriminate.
    intros [= <-]. simpl. revert Hc. apply cascadeDownLoop_heapOrdered.
    + simpl. lia.
    + simpl length. intros i Hr Hpi.
      pose proof (parentIndex_lt i ltac:(lia)) as Hp.
      pose proof (parentIndex_pos i ltac:(lia)) as Hp1.
      assert (Hg : forall k, (2 <= k < S (S (length l)))%nat ->
                array_get (x0 :: y :: l) k = array_get (x0 :: value :: l ++ [y]) k).
      { intros k Hk. destruct k as [|[|k]]; try lia. unfold array_get. simpl.
        rewrite lookup_app_l by lia. reflexivity. }
      rewrite !Hg by lia. apply Hh. simpl. rewrite length_app. simpl. lia.
    + intros H2. lia.
  - intros k x Hk Hx.
    destruct (elements q') as [|z rest] eqn:Hq'; [discriminate|].
    simpl in H0. injection H0 as ->.
    apply Permutation_cons_inv in P.
    destruct k as [|k]; [lia|]. simpl in Hx.
    apply list_elem_of_lookup_2 in Hx. rewrite P in Hx.
    change (y :: l) with ([y] ++ l) in Hx. rewrite (Permutation_app_comm [y] l) in Hx.
    apply list_elem_of_lookup_1 in Hx as [i Hi].
    pose proof (lookup_lt_Some _ _ _ Hi) as Hil.
    specialize (Hroot (S (S i))). simpl in Hroot. rewrite length_app in Hroot, Hil.
    unfold array_get in Hroot. simpl in Hroot. rewrite Hi in Hroot. simpl in Hroot.
    apply Hroot. simpl in Hil. lia.
Qed.

End HeapOrder.

Lemma leBits_trans (a b c : option bool) : leBits a b -> leBits b c -> leBits a c.
Proof.
  destruct a as [[|]|], b as [[|]|], c as [[|]|]; simpl; auto; discriminate.
Qed.

Lemma compareBits_less (a b : option bool) (c : float) :
  compareBits a b = Ok c -> nlt c (nconst 0) = true -> leBits a b.
Proof.
  destruct a as [[|]|], b as [[|]|]; try discriminate; intros [= <-]; vm_compute; congruence.
Qed.

Lemma compareBits_not_less (a b : option bool) (c : float) :
  compareBits a b = Ok c -> nlt c (nconst 0) = false -> leBits b a.
Proof.
  destruct a as [[|]|], b as [[|]|]; try discriminate; intros [= <-]; vm_compute; congruence.
Qed.

Lemma insert_keeps_elements_witness :
  let q := mkQueue [None; Some true] in
  let q' := mkQueue [None; Some false; Some true] in
  (1 <= length (elements q))%nat /\
  insert compareBits q false = Ok q' /\
  elements q' ≡ₚ Some false :: elements q /\ elements q' !! 0%nat = elements q !! 0%nat.
Proof.
  intros q q'.
  assert (H1 : (1 <= length (elements q))%nat) by (simpl; lia).
  assert (H2 : insert compareBits q false = Ok q') by (vm_compute; reflexivity).
  split; [exact H1|]. split; [exact H2|].
  exact (insert_keeps_elements compareBits q q' false H1 H2).
Defined.

Lemma pop_removes_first_witness :
  let q := mkQueue [None; Some false; Some true; Some true] in
  let q' := mkQueue [None; Some true; Some true] in
  (3 <= length (elements q))%nat /\
  pop compareBits q = Ok (Some false, q') /\
  elements q !! 1%nat = Some (Some false) /\
  elements q ≡ₚ Some false :: elements q' /\
  elements q' !! 0%nat = elements q !! 0%nat.
Proof.
  intros q q'.
  assert (H1 : (3 <= length (elements q))%nat) by (simpl; lia).
  assert (H2 : pop compareBits q = Ok (Some false, q')) by (vm_compute; reflexivity).
  split; [exact H1|]. split; [exact H2|].
  exact (pop_removes_first compareBits q q' (Some false) H1 H2).
Defined.

Lemma insert_keeps_heapOrdered_witness :
  let q := mkQueue [None; Some true; Some true] in
  let q' := mkQueue [None; Some false; Some true; Some true] in
  heapOrdered leBits (elements q) /\
  insert compareBits q false = Ok q' /\
  heapOrdered leBits (elements q').
Proof.
  intros q q'.
  assert (H1 : heapOrdered leBits (elements q)).
  { intros i Hi. simpl in Hi. assert (i = 2%nat) as -> by lia. reflexivity. }
  assert (H2 : insert compareBits q false = Ok q') by (vm_compute; reflexivity).
  split; [exact H1|]. split; [exact H2|].
  exact (insert_keeps_heapOrdered compareBits leBits leBits_trans compareBits_less
           compareBits_not_less q q' false H1 H2).
Defined.

Lemma pop_returns_least_witness :
  let q := mkQueue [None; Some false; Some true; Some true] in
  let q' := mkQueue [None; Some true; Some true] in
  heapOrdered leBits (elements q) /\
  (3 <= length (elements q))%nat /\
  pop compareBits q = Ok (Some false, q') /\
  heapOrdered leBits (elements q') /\
  forall (k : nat) (x : option bool),
    (1 <= k)%nat -> elements q' !! k = Some x -> leBits (Some false) x.
Proof.
  intros q q'.
  assert (H1 : heapOrdered leBits (elements q)).
  { intros i Hi. simpl in Hi.
    assert (i = 2%nat \/ i = 3%nat) as [-> | ->] by lia; reflexivity. }
  assert (H2 : (3 <= length (elements q))%nat) by (simpl; lia).
  assert (H3 : pop compareBits q = Ok (Some false, q')) by (vm_compute; reflexivity).
  split; [exact H1|]. split; [exact H2|]. split; [exact H3|].
  exact (pop_returns_least compareBits leBits leBits_trans compareBits_less
           compareBits_not_less q q' (Some false) H1 H2 H3).
Defined.

(** ** The geometric predicates over the reals *)

Section RealGeometry.
Local Open Scope R_scope.

(** X11.  Over the reals the point [calculateCircumcentre] returns for three
    vertices that are not collinear has the same distance to all three. *)
Theorem circumcentre_equidistant (p1 p2 p3 : Vertex R) (c : Point R) :
  circumcentreDenominator (px p1) (py p1) (px p2) (py p2) (px p3) (py p3) <> 0 ->
  calculateCircumcentre [p1; p2; p3] = Ok c ->
  calculateDistanceSquarePlane c p1 = calculateDistanceSquarePlane c p2 /\
  calculateDistanceSquarePlane c p1 = calculateDistanceSquarePlane c p3.
Proof.
  intros HD. unfold calculateCircumcentre.
  cbn [getPoint deref rbind lookup list_lookup]. intros [= <-].
  unfold calculateDistanceSquarePlane, circumcentreDenominator in *.
  cbn [px py pz nadd nsub nmul ndiv nopp nconst realNumber] in *.
  rewrite Q2R_lit_2 in *.
  destruct p1 as [i1 [x1 y1 z1]], p2 as [i2 [x2 y2 z2]], p3 as [i3 [x3 y3 z3]].
  cbn [px py pz vpoint] in *.
  split; field; exact HD.
Qed.

(** X12.  The third coordinate of the circumcentre: the common [z] when the
    three vertices have one, and otherwise [z1 + r * z2 + s * z3] for the
    [r] and [s] that solve the two equations of the source's comment. *)
Theorem circumcentre_height (p1 p2 p3 : Vertex R) (c : Point R) :
  calculateCircumcentre [p1; p2; p3] = Ok c ->
  (pz p1 = pz p2 -> pz p2 = pz p3 -> pz c = pz p1) /\
  (~ (pz p1 = pz p2 /\ pz p2 = pz p3) ->
   px p3 * py p2 - px p2 * py p3 <> 0 ->
   exists r s : R,
     px c = px p1 + r * px p2 + s * px p3 /\
     py c = py p1 + r * py p2 + s * py p3 /\
     pz c = pz p1 + r * pz p2 + s * pz p3).
Proof.
  unfold calculateCircumcentre.
  cbn [getPoint deref rbind lookup list_lookup].
  match goal with
  | |- Ok (mkPoint ?U ?V _) = _ -> _ => set (u := U); set (v := V); clearbody u v
  end.
  intros [= <-].
  cbn [px py pz nadd nsub nmul ndiv nopp nconst neq realNumber].
  destruct p1 as [i1 [x1 y1 z1]], p2 as [i2 [x2 y2 z2]], p3 as [i3 [x3 y3 z3]].
  cbn [px py pz vpoint]. unfold Reqb. split.
  - intros -> ->. destruct (Req_dec_T z3 z3); [reflexivity|contradiction].
  - intros Hz HD.
    destruct (Req_dec_T z1 z2) as [E1|E1]; [destruct (Req_dec_T z2 z3) as [E2|E2]|];
      cbn [andb negb]; try tauto.
    all: eexists _, _; split; [|split; [|reflexivity]]; field; exact HD.
Qed.

(** X13.  Over the reals, for three vertices that are not collinear, the
    containment test answers [true] exactly for the convex combinations of
    the vertices: the closed triangle, edges and corners included. *)
Theorem isPointInTriangle_convex (p1 p2 p3 : Vertex R) (nbs : list (option nat))
    (point : Point R) :
  containmentDenominator (px p1) (py p1) (px p2) (py p2) (px p3) (py p3) <> 0 ->
  isPointInTriangle (newTriangle [p1; p2; p3] nbs) point = Ok true <->
  exists a b c : R,
    0 <= a /\ 0 <= b /\ 0 <= c /\ a + b + c = 1 /\
    px point = a * px p1 + b * px p2 + c * px p3 /\
    py point = a * py p1 + b * py p2 + c * py p3.
Proof.
  intros HD. unfold isPointInTriangle.
  cbn [points newTriangle getPoint deref rbind lookup list_lookup].
  set (u := containmentU p1 p2 p3 point). set (v := containmentV p1 p2 p3 point).
  cbn [nle nadd nconst realNumber]. rewrite Q2R_lit_0, Q2R_lit_1. unfold Rleb.
  assert (Hx : px point = (1 - u - v) * px p1 + u * px p2 + v * px p3).
  { unfold u, v, containmentU, containmentV, containmentDenominator in *.
    cbn [nadd nsub nmul ndiv nopp realNumber] in *. field. exact HD. }
  assert (Hy : py point = (1 - u - v) * py p1 + u * py p2 + v * py p3).
  { unfold u, v, containmentU, containmentV, containmentDenominator in *.
    cbn [nadd nsub nmul ndiv nopp realNumber] in *. field. exact HD. }
  split.
  - intros H. destruct (Rle_dec 0 u); [|discriminate H].
    destruct (Rle_dec 0 v); [|discriminate H].
    destruct (Rle_dec (u + v) 1); [|discriminate H].
    exists (1 - u - v), u, v. repeat split; auto; lra.
  - intros (a & b & c & Ha & Hb & Hc & Hsum & Ex & Ey).
    assert (Hu : u = b).
    { unfold u, containmentU, containmentDenominator in *.
      cbn [nadd nsub nmul ndiv nopp realNumber] in *. rewrite Ex, Ey.
      replace a with (1 - b - c) by lra. field. exact HD. }
    assert (Hv : v = c).
    { unfold v, containmentV, containmentDenominator in *.
      cbn [nadd nsub nmul ndiv nopp realNumber] in *. rewrite Ex, Ey.
      replace a with (1 - b - c) by lra. field. exact HD. }
    destruct (Rle_dec 0 u); [|lra]. destruct (Rle_dec 0 v); [|lra].
    destruct (Rle_dec (u + v) 1); [reflexivity|lra].
Qed.

(** X14.  Over the reals the triangle the constructor builds has a
    horizontal base and two equal legs, and it is not equilateral: with [r]
    half the diagonal of the box, the squared base is [27 r^2] and each
    squared leg is [37 r^2]. *)
Theorem bounding_triangle_isosceles (min_x max_x min_y max_y : R) :
  let d := @newDelaunay R realNumber min_x max_x min_y max_y in
  let r2 := ((max_x - min_x) * (max_x - min_x) + (max_y - min_y) * (max_y - min_y)) / 4 in
  py (point1 d) = py (point3 d) /\
  calculateDistanceSquarePlane (point1 d) (point3 d) = 27 * r2 /\
  calculateDistanceSquarePlane (point1 d) (point2 d) = 37 * r2 /\
  calculateDistanceSquarePlane (point3 d) (point2 d) = 37 * r2.
Proof.
  intros d r2. unfold d, r2, newDelaunay, calculateDistanceSquarePlane.
  cbn [point1 point2 point3 vpoint px py nadd nsub nmul ndiv nsqrt nconst realNumber].
  rewrite Q2R_lit_2, Q2R_lit_6, Q2R_lit_1_5, Q2R_lit_3.
  set (a := max_x - min_x). set (b := max_y - min_y).
  assert (Hab : 0 <= a * a + b * b) by nra.
  pose proof (sqrt_sqrt _ Hab) as Hww.
  set (w := sqrt (a * a + b * b)) in *.
  assert (H3 : 0 < 3) by lra.
  pose proof (sqrt_lt_R0 _ H3) as Hq0.
  pose proof (sqrt_sqrt 3 (Rlt_le _ _ H3)) as Hqq.
  set (q := sqrt 3) in *.
  assert (Hiq : / q = q / 3).
  { apply Rmult_eq_reg_l with q; [|lra]. rewrite Rinv_r by lra. lra. }
  split; [reflexivity|].
  rewrite <- Hww.
  assert (HS : 6 * (w / 2) * (3 / 2) / q = 3 / 2 * w * q).
  { unfold Rdiv. rewrite Hiq. field. }
  rewrite !HS.
  repeat split; apply Rminus_diag_uniq.
  - match goal with
    | |- ?e = 0 => replace e with (9 / 4 * (w * w) * (q * q - 3)) by field
    end.
    rewrite Hqq. ring.
  - match goal with
    | |- ?e = 0 => replace e with (w * w * (9 / 16 * (q * q) + 3) * (q * q - 3)) by field
    end.
    rewrite Hqq. ring.
  - match goal with
    | |- ?e = 0 => replace e with (w * w * (9 / 16 * (q * q) + 3) * (q * q - 3)) by field
    end.
    rewrite Hqq. ring.
Qed.

End RealGeometry.

(** The corners (0,0), (1,0), (0,1) at height 0, and at heights 0, 1, 2. *)
Lemma circumcentre_equidistant_witness :
  let p1 := mkVertex 1 (@mkPoint R 0%R 0%R 0%R) in
  let p2 := mkVertex 2 (@mkPoint R 1%R 0%R 0%R) in
  let p3 := mkVertex 3 (@mkPoint R 0%R 1%R 0%R) in
  circumcentreDenominator (px p1) (py p1) (px p2) (py p2) (px p3) (py p3) <> 0%R /\
  exists c : Point R,
    calculateCircumcentre [p1; p2; p3] = Ok c /\
    calculateDistanceSquarePlane c p1 = calculateDistanceSquarePlane c p2 /\
    calculateDistanceSquarePlane c p1 = calculateDistanceSquarePlane c p3.
Proof.
  intros p1 p2 p3.
  assert (HD : circumcentreDenominator (px p1) (py p1) (px p2) (py p2) (px p3) (py p3)
               <> 0%R).
  { unfold circumcentreDenominator, p1, p2, p3.
    cbn [px py vpoint nadd nsub nmul nconst realNumber]. rewrite Q2R_lit_2. lra. }
  split; [exact HD|]. eexists. split; [reflexivity|].
  exact (circumcentre_equidistant p1 p2 p3 _ HD eq_refl).
Defined.

Lemma circumcentre_height_witness :
  let p1 := mkVertex 1 (@mkPoint R 0%R 0%R 0%R) in
  let p2 := mkVertex 2 (@mkPoint R 1%R 0%R 1%R) in
  let p3 := mkVertex 3 (@mkPoint R 0%R 1%R 2%R) in
  exists c : Point R,
    calculateCircumcentre [p1; p2; p3] = Ok c /\
    (pz p1 = pz p2 -> pz p2 = pz p3 -> pz c = pz p1) /\
    (~ (pz p1 = pz p2 /\ pz p2 = pz p3) ->
     (px p3 * py p2 - px p2 * py p3 <> 0)%R ->
     exists r s : R,
       (px c = px p1 + r * px p2 + s * px p3)%R /\
       (py c = py p1 + r * py p2 + s * py p3)%R /\
       (pz c = pz p1 + r * pz p2 + s * pz p3)%R).
Proof.
  intros p1 p2 p3. eexists. split; [reflexivity|].
  exact (circumcentre_height p1 p2 p3 _ eq_refl).
Defined.

Lemma isPointInTriangle_convex_witness :
  let p1 := mkVertex 1 (@mkPoint R 0%R 0%R 0%R) in
  let p2 := mkVertex 2 (@mkPoint R 1%R 0%R 0%R) in
  let p3 := mkVertex 3 (@mkPoint R 0%R 1%R 0%R) in
  let point := @mkPoint R (1 / 4)%R (1 / 4)%R 0%R in
  containmentDenominator (px p1) (py p1) (px p2) (py p2) (px p3) (py p3) <> 0%R /\
  (isPointInTriangle (newTriangle [p1; p2; p3] [None; None; None]) point = Ok true <->
   exists a b c : R,
     (0 <= a /\ 0 <= b /\ 0 <= c /\ a + b + c = 1 /\
      px point = a * px p1 + b * px p2 + c * px p3 /\
      py point = a * py p1 + b * py p2 + c * py p3)%R).
Proof.
  intros p1 p2 p3 point.
  assert (HD : containmentDenominator (px p1) (py p1) (px p2) (py p2) (px p3) (py p3)
               <> 0%R).
  { unfold containmentDenominator, p1, p2, p3.
    cbn [px py vpoint nadd nsub nmul realNumber]. lra. }
  split; [exact HD|].
  exact (isPointInTriangle_convex p1 p2 p3 [None; None; None] point HD).
Defined.

(** ** Cells in good shape *)

Section Sound.
Context {F : Type} {NF : Number F}.
Variable P : Vertex F -> Prop.
Implicit Types (h : Heap F) (d : Delaunay F) (tri : Triangle F).

Lemma soundHeap_update h t tri' :
  soundHeap P h -> cellSound P tri' -> soundHeap P (<[t := tri']> h).
Proof.
  intros W Hc u a Hu. destruct (decide (t = u)) as [->|Hne].
  - assert (Hlt : (u < length h)%nat).
    { pose proof (lookup_lt_Some _ _ _ Hu) as Hlt. now rewrite length_insert in Hlt. }
    rewrite list_lookup_insert_eq in Hu by exact Hlt. now injection Hu as <-.
  - rewrite list_lookup_insert_ne in Hu by exact Hne. eauto.
Qed.

Lemma cellSound_with_search tri (s : option nat) :
  cellSound P tri -> cellSound P (with_search tri s).
Proof. intros H. exact H. Qed.

Lemma getCenter_sound h t c h' :
  getCenter h t = Ok (c, h') -> soundHeap P h -> soundHeap P h'.
Proof.
  unfold getCenter. intros H W. res_inv H. apply getTriangle_Ok in E as [Ht _].
  destruct (center a) eqn:Hc; injection H as <- <-; [exact W|].
  apply soundHeap_update; [exact W|].
  destruct (W t a Ht) as (S1 & S2 & S3 & S4 & S5 & S6).
  repeat split; auto. simpl. intros c [= <-]. reflexivity.
Qed.

Lemma getCircumcenter_sound h t c h' :
  getCircumcenter h t = Ok (c, h') -> soundHeap P h ->
  soundHeap P h' /\
  exists tri, h !! t = Some tri /\ calculateCircumcentre (points tri) = Ok c /\
              exists tri', h' !! t = Some tri' /\ points tri' = points tri.
Proof.
  unfold getCircumcenter. intros H W. res_inv H. apply getTriangle_Ok in E as [Ht Hlt].
  destruct (W t a Ht) as (S1 & S2 & S3 & S4 & S5 & S6).
  destruct (circumcenter a) eqn:Hc.
  - injection H as <- <-. split; [exact W|]. exists a. split; [exact Ht|].
    split; [auto|]. exists a. auto.
  - res_inv H. injection H as <- <-. split.
    + apply soundHeap_update; [exact W|].
      repeat split; auto; simpl; rewrite E; [intros c [= <-]; reflexivity|exact S6].
    + exists a. split; [exact Ht|]. split; [exact E|].
      eexists. split; [apply list_lookup_insert_eq; exact Hlt|reflexivity].
Qed.

Lemma getRadius_sound h t r h' :
  getRadius h t = Ok (r, h') -> soundHeap P h -> soundHeap P h'.
Proof.
  unfold getRadius. intros H W. res_inv H.
  destruct (radius a) eqn:Hr; [injection H as <- <-; exact W|].
  res_inv H. injection H as <- <-.
  apply getTriangle_Ok in E as [Ht _].
  destruct (getCircumcenter_sound _ _ _ _ E0 W) as (W1 & tri & Ht' & Hcc & tri' & Ht1 & Hp).
  rewrite Ht in Ht'. injection Ht' as <-.
  apply getTriangle_Ok in E2 as [Ht2 _]. rewrite Ht1 in Ht2. injection Ht2 as <-.
  apply soundHeap_update; [exact W1|].
  destruct (W1 t tri' Ht1) as (S1 & S2 & S3 & S4 & S5 & S6).
  repeat split; auto. simpl. intros r [= <-].
  exists p, a0. rewrite Hp. unfold getPoint, deref in E1.
  destruct (points a !! 0%nat) eqn:H0; [|discriminate]. injection E1 as ->. auto.
Qed.

Lemma distanceToCircumcenter_sound h t (p : Point F) x h' :
  distanceToCircumcenter h t p = Ok (x, h') -> soundHeap P h -> soundHeap P h'.
Proof.
  unfold distanceToCircumcenter. intros H W. res_inv H. injection H as <- <-.
  eapply getCircumcenter_sound; eauto.
Qed.

Lemma setPoint_sound h t i (p : Vertex F) h' :
  setPoint h t i p = Ok h' -> P p -> soundHeap P h -> soundHeap P h'.
Proof.
  unfold setPoint. intros H Hp W. res_inv H. injection H as <-.
  apply getTriangle_Ok in E as [Ht _].
  destruct (W t a Ht) as (S1 & S2 & S3 & S4 & S5 & S6).
  apply soundHeap_update; [exact W|].
  repeat split; simpl; try discriminate.
  - rewrite length_insert. exact S1.
  - exact S2.
  - apply Forall_insert; auto.
Qed.

Lemma setNeighbor_sound h t i (v : option nat) h' :
  setNeighbor h t i v = Ok h' -> (i < 3)%nat -> soundHeap P h -> soundHeap P h'.
Proof.
  unfold setNeighbor. intros H Hi W. res_inv H. injection H as <-.
  apply getTriangle_Ok in E as [Ht _].
  destruct (W t a Ht) as (S1 & S2 & S3 & S4 & S5 & S6).
  apply soundHeap_update; [exact W|].
  repeat split; simpl; auto. rewrite array_set_length_lt; lia.
Qed.

Lemma indexOf_lt {A} (same : A -> A -> bool) (a : list A) (v : A) (i : nat) :
  indexOf same a v = Some i -> (i < length a)%nat.
Proof.
  revert i. induction a as [|e a IH]; intros i; simpl; [discriminate|].
  destruct (same e v); [intros [= <-]; lia|].
  destruct (indexOf same a v) as [j|]; simpl; [|discriminate].
  intros [= <-]. specialize (IH j eq_refl). lia.
Qed.

Lemma replaceNeighbor_sound h (nb : option nat) (old new : nat) h' :
  replaceNeighbor h nb old new = Ok h' -> soundHeap P h -> soundHeap P h'.
Proof.
  unfold replaceNeighbor. destruct nb as [t|]; [|intros [= <-]; auto].
  intros H W. res_inv H.
  destruct (indexOf _ (neighbors a) (Some old)) as [index|] eqn:Hi;
    [|injection H as <-; auto].
  apply getTriangle_Ok in E as [Ht _]. destruct (W t a Ht) as (_ & S2 & _).
  apply indexOf_lt in Hi. eapply setNeighbor_sound; eauto. lia.
Qed.

Lemma findRemainingIndexFrom_lt (pts : list (Vertex F)) (p1 p2 : Vertex F) :
  forall i k, findRemainingIndexFrom i pts p1 p2 = Some k -> (i <= k < i + length pts)%nat.
Proof.
  induction pts as [|p pts IH]; intros i k; simpl; [discriminate|].
  destruct (negb (same_vertex p p1) && negb (same_vertex p p2)); [intros [= <-]; lia|].
  intros H. apply IH in H. lia.
Qed.

Lemma soundHeap_point h t tri i (p : Vertex F) :
  soundHeap P h -> h !! t = Some tri -> points tri !! i = Some p -> P p.
Proof.
  intros W Ht Hp. destruct (W t tri Ht) as (_ & _ & S3 & _).
  rewrite Forall_forall in S3. apply S3. eapply list_elem_of_lookup_2; eauto.
Qed.

Lemma getPoint_Ok (pts : list (Vertex F)) (i : nat) (p : Vertex F) :
  getPoint pts i = Ok p -> pts !! i = Some p.
Proof. unfold getPoint, deref. destruct (pts !! i); [intros [= ->]; reflexivity|discriminate]. Qed.

Lemma flip_sound h (t1 t2 : nat) h' : flip h t1 t2 = Ok h' -> soundHeap P h -> soundHeap P h'.
Proof.
  unfold flip. intros H W. res_inv H.
  apply getTriangle_Ok in E as [T1 _]. apply getTriangle_Ok in E0 as [T2 _].
  destruct (W t2 a0 T2) as (S1 & _).
  apply getPoint_Ok in E3.
  pose proof (soundHeap_point _ _ _ _ _ W T2 E3) as Poff2.
  assert (Hs2 : (a5 < 3)%nat).
  { unfold deref in E5. destruct (findRemainingIndex _ _ _) as [k|] eqn:Hk; [|discriminate].
    injection E5 as ->. apply findRemainingIndexFrom_lt in Hk. lia. }
  pose proof (Nat.mod_upper_bound (a1 + 1) 3 ltac:(lia)).
  pose proof (Nat.mod_upper_bound ((a1 + 1) mod 3 + 2) 3 ltac:(lia)).
  pose proof (Nat.mod_upper_bound (a5 + 2) 3 ltac:(lia)).
  pose proof (setPoint_sound _ _ _ _ _ E6 Poff2 W) as W6.
  apply getTriangle_Ok in E7 as [T7 _]. apply getPoint_Ok in E8.
  pose proof (soundHeap_point _ _ _ _ _ W6 T7 E8) as Poff1.
  pose proof (setPoint_sound _ _ _ _ _ E9 Poff1 W6) as W9.
  pose proof (replaceNeighbor_sound _ _ _ _ _ E13 W9) as W13.
  pose proof (setNeighbor_sound _ _ _ _ _ E14 ltac:(lia) W13) as W14.
  pose proof (setNeighbor_sound _ _ _ _ _ E15 ltac:(lia) W14) as W15.
  pose proof (replaceNeighbor_sound _ _ _ _ _ E17 W15) as W17.
  pose proof (setNeighbor_sound _ _ _ _ _ E18 ltac:(lia) W17) as W18.
  exact (setNeighbor_sound _ _ _ _ _ H ltac:(lia) W18).
Qed.

Lemma investigateLoop_sound (t n : nat) (pts : list (Vertex F)) :
  forall h b h', investigateLoop h t n pts = Ok (b, h') -> soundHeap P h -> soundHeap P h'.
Proof.
  induction pts as [|p pts IH]; intros h b h'; simpl.
  - intros [= _ <-]. auto.
  - intros H W. res_inv H.
    apply distanceToCircumcenter_sound in E; [|exact W].
    apply getRadius_sound in E0; [|exact E].
    destruct (strictlyLessThan f f0).
    + res_inv H. injection H as _ <-. eapply flip_sound; eauto.
    + eapply IH; eauto.
Qed.

Lemma findAndFixFrom_sound (fuel : nat) :
  forall h (t i : nat) h', findAndFixFrom fuel h t i = Ok h' -> soundHeap P h -> soundHeap P h'.
Proof.
  induction fuel as [|fuel IH]; intros h t i h'; simpl; [discriminate|].
  intros H W. res_inv H.
  destruct (decide (i < length (neighbors a))%nat); [|injection H as <-; exact W].
  destruct (array_get (neighbors a) i) as [n|]; [|eapply IH; eauto].
  res_inv H. unfold investigateAndFixTriangle in E0. res_inv E0.
  apply investigateLoop_sound in E0; [|exact W]. destruct b.
  - res_inv H. eapply IH; [exact H|]. eapply IH; eauto.
  - eapply IH; eauto.
Qed.

Lemma splitTriangle_sound (fuel : nat) h (t : nat) (p : Vertex F) (r : nat) h' :
  splitTriangle fuel h t p = Ok (r, h') -> P p -> soundHeap P h -> soundHeap P h'.
Proof.
  unfold splitTriangle, findAndFixViolatedTriangles. intros H Hp W. res_inv H.
  injection H as <- <-.
  apply getTriangle_Ok in E as [Ht _].
  apply getPoint_Ok in E0, E1, E2.
  pose proof (soundHeap_point _ _ _ _ _ W Ht E0) as P0.
  pose proof (soundHeap_point _ _ _ _ _ W Ht E1) as P1.
  pose proof (soundHeap_point _ _ _ _ _ W Ht E2) as P2.
  set (h0 := h ++ _) in *.
  assert (W0 : soundHeap P h0).
  { intros u tri Hu. unfold h0 in Hu.
    apply lookup_app_Some in Hu as [Hu|[_ Hu]]; [eauto|].
    assert (Hin : In tri
        [newTriangle [a0; a1; p] [None; None; None];
         newTriangle [p; a1; a2] [None; None; None];
         newTriangle [a0; p; a2] [None; None; None]]).
    { apply list_elem_of_In. eapply list_elem_of_lookup_2; eauto. }
    destruct Hin as [<-|[<-|[<-|[]]]];
      (repeat split; simpl; try discriminate; auto). }
  pose proof (setNeighbor_sound _ _ _ _ _ E3 ltac:(lia) W0) as W3.
  pose proof (setNeighbor_sound _ _ _ _ _ E4 ltac:(lia) W3) as W4.
  pose proof (setNeighbor_sound _ _ _ _ _ E5 ltac:(lia) W4) as W5.
  pose proof (replaceNeighbor_sound _ _ _ _ _ E7 W5) as W7.
  pose proof (setNeighbor_sound _ _ _ _ _ E8 ltac:(lia) W7) as W8.
  pose proof (setNeighbor_sound _ _ _ _ _ E9 ltac:(lia) W8) as W9.
  pose proof (setNeighbor_sound _ _ _ _ _ E10 ltac:(lia) W9) as W10.
  pose proof (replaceNeighbor_sound _ _ _ _ _ E12 W10) as W12.
  pose proof (setNeighbor_sound _ _ _ _ _ E13 ltac:(lia) W12) as W13.
  pose proof (setNeighbor_sound _ _ _ _ _ E14 ltac:(lia) W13) as W14.
  pose proof (setNeighbor_sound _ _ _ _ _ E15 ltac:(lia) W14) as W15.
  pose proof (replaceNeighbor_sound _ _ _ _ _ E17 W15) as W17.
  pose proof (findAndFixFrom_sound _ _ _ _ _ E18 W17) as W18.
  pose proof (findAndFixFrom_sound _ _ _ _ _ E19 W18) as W19.
  exact (findAndFixFrom_sound _ _ _ _ _ E20 W19).
Qed.

Lemma restampedHeap_sound s h h' : restampedHeap s h h' -> soundHeap P h -> soundHeap P h'.
Proof.
  intros [L R] W t b Hb.
  assert (Hlt : (t < length h)%nat) by (rewrite <- L; eapply lookup_lt_Some; eauto).
  destruct (lookup_lt_is_Some_2 h t Hlt) as [a Ha].
  destruct (R t a Ha) as (b' & Hb' & Rab). rewrite Hb in Hb'. injection Hb' as <-.
  destruct Rab as [->| ->]; [eauto|]. apply cellSound_with_search. eauto.
Qed.

End Sound.

(** ** The harvest: no duplicates, closed under adjacency *)

Section HarvestInvariant.
Context {F : Type} {NF : Number F}.
Variable d : Delaunay F.
Variable s : nat.
Variable I : list nat -> Heap F -> Prop.
Hypothesis I_add : forall triangles h t b triangles' h',
  addTriangle d s triangles h t = Ok (b, triangles', h') -> I triangles h -> I triangles' h'.

Lemma addRootLoop_inv
    (rec : list nat -> Heap F -> option nat -> res (bool * list nat * Heap F)) :
  (forall triangles h rt b triangles' h',
      rec triangles h rt = Ok (b, triangles', h') -> I triangles h -> I triangles' h') ->
  forall (nbs : list (option nat)) triangles h b triangles' h',
    addRootLoop rec s triangles h nbs = Ok (b, triangles', h') ->
    I triangles h -> I triangles' h'.
Proof.
  intros Hrec nbs. induction nbs as [|[n|] nbs IH]; intros triangles h b triangles' h'; simpl.
  - intros [= _ <- <-]. auto.
  - destruct (getTriangle h n) as [tn| |]; simpl; try discriminate.
    destruct (stamped tn s); simpl; [apply IH|].
    destruct (rec triangles h (Some n)) as [[[found trs1] h1]| |] eqn:Hr;
      simpl; try discriminate.
    destruct found.
    + intros [= _ <- <-]. eapply Hrec; eauto.
    + intros Hl Hi. eapply IH; eauto.
  - apply IH.
Qed.

Lemma addRoot_inv (fuel : nat) :
  forall triangles h rt b triangles' h',
    addRoot fuel d s triangles h rt = Ok (b, triangles', h') ->
    I triangles h -> I triangles' h'.
Proof using I_add.
  induction fuel as [|fuel IH]; intros triangles h rt b triangles' h'; simpl;
    [discriminate|].
  destruct (addTriangle d s triangles h rt) as [[[added trs1] h1]| |] eqn:Ha;
    simpl; try discriminate.
  destruct added.
  - intros [= _ <- <-]. eapply I_add; eauto.
  - destruct rt as [r|]; [|intros [= _ <- <-]; eapply I_add; eauto].
    destruct (getTriangle h1 r) as [tri| |]; simpl; try discriminate.
    intros Hl Hi. eapply (addRootLoop_inv _ IH); eauto.
Qed.

Lemma addNeighborsLoop_inv (nbs : list (option nat)) :
  forall triangles h triangles' h',
    addNeighborsLoop d s triangles h nbs = Ok (triangles', h') ->
    I triangles h -> I triangles' h'.
Proof using I_add.
  induction nbs as [|nb nbs IH]; intros triangles h triangles' h'; simpl.
  - intros [= <- <-]. auto.
  - destruct (addTriangle d s triangles h nb) as [[[b trs1] h1]| |] eqn:Ha;
      simpl; try discriminate.
    intros Hl Hi. eapply IH; eauto.
Qed.

Lemma addNeighbors_inv triangles h (t : nat) triangles' h' :
  addNeighbors d s triangles h t = Ok (triangles', h') ->
  I triangles h -> I triangles' h'.
Proof using I_add.
  unfold addNeighbors. destruct (getTriangle h t) as [tri| |]; simpl; try discriminate.
  apply addNeighborsLoop_inv.
Qed.

Lemma collectLoop_inv (fuel : nat) :
  forall (i : nat) triangles h triangles' h',
    collectLoop fuel d s i triangles h = Ok (triangles', h') ->
    I triangles h -> I triangles' h'.
Proof using I_add.
  induction fuel as [|fuel IH]; intros i triangles h triangles' h'; simpl; [discriminate|].
  destruct (triangles !! i) as [t|]; [|intros [= <- <-]; auto].
  destruct (addNeighbors d s triangles h t) as [[trs1 h1]| |] eqn:Ha;
    simpl; try discriminate.
  intros Hl Hi. eapply IH; eauto. eapply addNeighbors_inv; eauto.
Qed.

Lemma collectTriangles_inv (fuel : nat) (rt : option nat) h triangles' h' :
  collectTriangles fuel d s rt h = Ok (triangles', h') ->
  I [] h -> I triangles' h'.
Proof using I_add.
  unfold collectTriangles.
  destruct (addRoot fuel d s [] h rt) as [[[b trs1] h1]| |] eqn:Ha; simpl; try discriminate.
  intros Hl Hi. eapply collectLoop_inv; eauto. eapply addRoot_inv; eauto.
Qed.

End HarvestInvariant.

Section HarvestFacts.
Context {F : Type} {NF : Number F}.
Implicit Types (h : Heap F) (d : Delaunay F) (tri : Triangle F).

Lemma stamped_with_search tri (s : nat) : stamped (with_search tri (Some s)) s = true.
Proof. unfold stamped. simpl. apply Nat.eqb_refl. Qed.

Lemma addTriangle_harvested d s triangles h (t : option nat) b triangles' h' :
  addTriangle d s triangles h t = Ok (b, triangles', h') ->
  harvested d s triangles h -> harvested d s triangles' h'.
Proof.
  unfold addTriangle. destruct t as [t|]; [|intros [= _ <- <-]; auto].
  unfold getTriangle. destruct (h !! t) as [tri|] eqn:Ht; simpl; [|discriminate].
  destruct (stamped tri s) eqn:Hst; simpl; [intros [= _ <- <-]; auto|].
  pose proof (lookup_lt_Some _ _ _ Ht) as Hlt.
  intros Hres (Hnd & Hin & Hall).
  assert (Hnew : ~ In t triangles).
  { intros Hc. destruct (Hin t Hc) as (tri' & Ht' & Hs'). congruence. }
  assert (Hin' : forall u, In u triangles ->
            exists tri0, <[t := with_search tri (Some s)]> h !! u = Some tri0 /\
                         stamped tri0 s = true).
  { intros u Hu. destruct (decide (t = u)) as [->|Hne]; [contradiction|].
    rewrite list_lookup_insert_ne by exact Hne. auto. }
  assert (Hall' : forall u tri0, <[t := with_search tri (Some s)]> h !! u = Some tri0 ->
            stamped tri0 s = true -> t <> u -> avoidsFormingPoints d tri0 = true ->
            In u triangles).
  { intros u tri0 Hu Hs Hne. rewrite list_lookup_insert_ne in Hu by exact Hne. eauto. }
  destruct (avoidsFormingPoints d tri) eqn:Hav; injection Hres as _ <- <-.
  - split; [|split].
    + apply NoDup_app. split; [exact Hnd|]. split.
      * intros x Hx Hx'. apply list_elem_of_In in Hx, Hx'.
        destruct Hx' as [<-|[]]. contradiction.
      * apply NoDup_singleton.
    + intros u Hu. apply in_app_or in Hu as [Hu|[<-|[]]]; [auto|].
      exists (with_search tri (Some s)).
      split; [apply list_lookup_insert_eq; exact Hlt|apply stamped_with_search].
    + intros u tri0 Hu Hs Hav0. apply in_or_app.
      destruct (decide (t = u)) as [->|Hne]; [right; now left|left; eauto].
  - split; [exact Hnd|]. split; [exact Hin'|].
    intros u tri0 Hu Hs Hav0. destruct (decide (t = u)) as [->|Hne]; [|eauto].
    rewrite list_lookup_insert_eq in Hu by exact Hlt. injection Hu as <-.
    unfold avoidsFormingPoints in *. simpl in Hav0. congruence.
Qed.

Lemma restampedHeap_stamped s h h' (n : nat) tn :
  restampedHeap s h h' -> h !! n = Some tn -> stamped tn s = true ->
  exists tn', h' !! n = Some tn' /\ stamped tn' s = true.
Proof.
  intros [_ R] Hn Hs. destruct (R n tn Hn) as (b & Hb & [->| ->]).
  - eauto.
  - exists (with_search tn (Some s)). split; [exact Hb|apply stamped_with_search].
Qed.

Lemma restampedHeap_expanded s h h' (t : nat) :
  restampedHeap s h h' -> expanded s h t -> expanded s h' t.
Proof.
  intros R (tri & Ht & Hn). destruct (proj2 R t tri Ht) as (b & Hb & Rb).
  exists b. split; [exact Hb|]. rewrite (restamped_neighbors _ _ _ Rb).
  intros n Hin. destruct (Hn n Hin) as (tn & Htn & Hs).
  eapply restampedHeap_stamped; eauto.
Qed.

Lemma addTriangle_appends d s triangles h (t : option nat) b triangles' h' :
  addTriangle d s triangles h t = Ok (b, triangles', h') ->
  exists more, triangles' = triangles ++ more.
Proof.
  unfold addTriangle. destruct t as [t|]; [|intros [= _ <- _]; exists []; now rewrite app_nil_r].
  destruct (getTriangle h t) as [tri| |]; simpl; try discriminate.
  destruct (stamped tri s); simpl; [intros [= _ <- _]; exists []; now rewrite app_nil_r|].
  destruct (avoidsFormingPoints d tri); intros [= _ <- _]; [eauto|].
  exists []. now rewrite app_nil_r.
Qed.

Lemma addTriangle_stamps d s triangles h (n : nat) b triangles' h' :
  addTriangle d s triangles h (Some n) = Ok (b, triangles', h') ->
  exists tn, h' !! n = Some tn /\ stamped tn s = true.
Proof.
  unfold addTriangle, getTriangle. destruct (h !! n) as [tri|] eqn:Hn; simpl; [|discriminate].
  pose proof (lookup_lt_Some _ _ _ Hn) as Hlt.
  destruct (stamped tri s) eqn:Hs; simpl; [intros [= _ _ <-]; eauto|].
  destruct (avoidsFormingPoints d tri); intros [= _ _ <-];
    (exists (with_search tri (Some s));
     split; [apply list_lookup_insert_eq; exact Hlt|apply stamped_with_search]).
Qed.

Lemma addNeighborsLoop_stamps d s (nbs : list (option nat)) :
  forall triangles h triangles' h',
    addNeighborsLoop d s triangles h nbs = Ok (triangles', h') ->
    forall n, In (Some n) nbs -> exists tn, h' !! n = Some tn /\ stamped tn s = true.
Proof.
  induction nbs as [|nb nbs IH]; intros triangles h triangles' h'; simpl; [intros _ n []|].
  destruct (addTriangle d s triangles h nb) as [[[b trs1] h1]| |] eqn:Ha;
    simpl; try discriminate.
  intros Hl n [->|Hin]; [|eapply IH; eauto].
  apply addTriangle_stamps in Ha as (tn & Htn & Hs).
  apply addNeighborsLoop_step in Hl as (R & _).
  eapply restampedHeap_stamped; eauto.
Qed.

Lemma harvest_prefix_add d s (triangles0 : list nat) triangles h (t : option nat) b
    triangles' h' :
  addTriangle d s triangles h t = Ok (b, triangles', h') ->
  (exists more, triangles = triangles0 ++ more) ->
  exists more, triangles' = triangles0 ++ more.
Proof.
  intros Ha [m1 ->]. apply addTriangle_appends in Ha as [m2 ->].
  exists (m1 ++ m2). now rewrite app_assoc.
Qed.

Lemma collectLoop_expands d s (fuel : nat) :
  forall (i : nat) triangles h triangles' h',
    collectLoop fuel d s i triangles h = Ok (triangles', h') ->
    (forall k t, (k < i)%nat -> triangles !! k = Some t -> expanded s h t) ->
    forall t, In t triangles' -> expanded s h' t.
Proof.
  induction fuel as [|fuel IH]; intros i triangles h triangles' h'; simpl; [discriminate|].
  destruct (triangles !! i) as [t|] eqn:Hi.
  2:{ intros [= <- <-] Hp t Ht. apply list_elem_of_In, list_elem_of_lookup in Ht as [k Hk].
      apply (Hp k t); [|exact Hk]. apply lookup_ge_None in Hi.
      apply lookup_lt_Some in Hk. lia. }
  destruct (addNeighbors d s triangles h t) as [[trs1 h1]| |] eqn:Ha;
    simpl; try discriminate.
  intros Hl Hp. apply (IH _ _ _ _ _ Hl).
  pose proof (addNeighbors_step _ _ _ _ _ _ _ Ha) as (R & _).
  assert (Hpre : exists more, trs1 = triangles ++ more).
  { apply (addNeighbors_inv d s (fun trs _ => exists more, trs = triangles ++ more)
             (harvest_prefix_add d s triangles) _ _ _ _ _ Ha).
    exists []. now rewrite app_nil_r. }
  destruct Hpre as [more ->].
  intros k u Hk Hu. destruct (decide (k = i)) as [->|Hne].
  - rewrite lookup_app_l in Hu by (eapply lookup_lt_Some; eauto).
    rewrite Hi in Hu. injection Hu as <-.
    unfold addNeighbors in Ha.
    destruct (getTriangle h t) as [tri| |] eqn:Ht; simpl in Ha; try discriminate.
    apply getTriangle_Ok in Ht as [Ht _].
    destruct (proj2 R t tri Ht) as (b & Hb & Rb).
    exists b. split; [exact Hb|]. rewrite (restamped_neighbors _ _ _ Rb).
    eapply addNeighborsLoop_stamps; eauto.
  - assert (Hki : (k < i)%nat) by lia.
    rewrite lookup_app_l in Hu by (apply lookup_lt_Some in Hi; lia).
    eapply restampedHeap_expanded; eauto.
Qed.

Lemma addRoot_stamps d s (fuel : nat) triangles h (r : nat) b triangles' h' :
  addRoot fuel d s triangles h (Some r) = Ok (b, triangles', h') ->
  exists tn, h' !! r = Some tn /\ stamped tn s = true.
Proof.
  destruct fuel as [|fuel]; cbn [addRoot]; [discriminate|].
  destruct (addTriangle d s triangles h (Some r)) as [[[added trs1] h1]| |] eqn:Ha;
    cbn [rbind]; try discriminate.
  apply addTriangle_stamps in Ha as (tn & Htn & Hs).
  destruct added; [intros [= _ _ <-]; eauto|].
  destruct (getTriangle h1 r) as [tri| |]; cbn [rbind]; try discriminate.
  intros Hl. apply (addRootLoop_step d s _ (addRoot_step d s fuel)) in Hl as (R & _).
  eapply restampedHeap_stamped; eauto.
Qed.

Lemma getTriangles_harvested (fuel : nat) d (triangles : list nat) d' :
  getTriangles fuel d = Ok (triangles, d') ->
  (forall t tri, heap d !! t = Some tri -> stamped tri (searchId d) = false) ->
  harvested d (searchId d) triangles (heap d') /\
  forall t, In t triangles -> expanded (searchId d) (heap d') t.
Proof.
  unfold getTriangles. intros H Hfresh. res_inv H. injection H as <- <-. simpl.
  split.
  - apply (collectTriangles_inv d (searchId d) (harvested d (searchId d))
             (addTriangle_harvested d (searchId d)) _ _ _ _ _ E).
    split; [constructor|]. split; [intros t []|].
    intros t tri Ht Hs. rewrite (Hfresh t tri Ht) in Hs. discriminate.
  - unfold collectTriangles in E. res_inv E.
    eapply collectLoop_expands; [exact E|]. intros k t Hk. lia.
Qed.

Lemma wfEngine_fresh d :
  wfEngine d -> forall t tri, heap d !! t = Some tri -> stamped tri (searchId d) = false.
Proof.
  intros [_ W] t tri Ht. destruct (W t tri Ht) as [_ Hs]. unfold stamped.
  destruct (search tri) as [s'|]; [|reflexivity].
  specialize (Hs s' eq_refl). apply Nat.eqb_neq. lia.
Qed.

(** X16.  [getTriangles] never returns the same cell twice. *)
Theorem getTriangles_no_duplicates (fuel : nat) d (triangles : list nat) d' :
  getTriangles fuel d = Ok (triangles, d') -> NoDup triangles.
Proof.
  unfold getTriangles. intros H. res_inv H. injection H as <- _.
  refine (proj1 (collectTriangles_inv d (searchId d)
            (fun trs h => NoDup trs /\
               forall t, In t trs -> exists tri, h !! t = Some tri /\
                                                 stamped tri (searchId d) = true)
            _ _ _ _ _ _ E _)).
  - clear. intros triangles h t b triangles' h'. unfold addTriangle.
    destruct t as [t|]; [|intros [= _ <- <-]; auto].
    unfold getTriangle. destruct (h !! t) as [tri|] eqn:Ht; simpl; [|discriminate].
    destruct (stamped tri (searchId d)) eqn:Hst; simpl; [intros [= _ <- <-]; auto|].
    pose proof (lookup_lt_Some _ _ _ Ht) as Hlt.
    intros Hres (Hnd & Hin).
    assert (Hnew : ~ In t triangles).
    { intros Hc. destruct (Hin t Hc) as (tri' & Ht' & Hs'). congruence. }
    assert (Hin' : forall u, In u triangles ->
              exists tri0, <[t := with_search tri (Some (searchId d))]> h !! u = Some tri0 /\
                           stamped tri0 (searchId d) = true).
    { intros u Hu. destruct (decide (t = u)) as [->|Hne]; [contradiction|].
      rewrite list_lookup_insert_ne by exact Hne. auto. }
    destruct (avoidsFormingPoints d tri); injection Hres as _ <- <-; [|auto].
    split.
    + apply NoDup_app. split; [exact Hnd|]. split; [|apply NoDup_singleton].
      intros x Hx Hx'. apply list_elem_of_In in Hx, Hx'.
      destruct Hx' as [<-|[]]. contradiction.
    + intros u Hu. apply in_app_or in Hu as [Hu|[<-|[]]]; [auto|].
      exists (with_search tri (Some (searchId d))).
      split; [apply list_lookup_insert_eq; exact Hlt|apply stamped_with_search].
  - split; [constructor|intros t []].
Qed.

(** X17.  In a reachable state the harvest is closed under adjacency: a
    neighbour of a returned cell is returned too, unless one of its
    vertices is a forming point; and the root is returned if none of its
    vertices is. *)
Theorem getTriangles_closed_under_neighbors (fuel : nat) d (triangles : list nat) d' :
  reachable d ->
  getTriangles fuel d = Ok (triangles, d') ->
  (forall t tri n tn,
      In t triangles -> heap d' !! t = Some tri -> In (Some n) (neighbors tri) ->
      heap d' !! n = Some tn -> avoidsFormingPoints d tn = true -> In n triangles) /\
  (forall tri, heap d' !! root d = Some tri -> avoidsFormingPoints d tri = true ->
               In (root d) triangles).
Proof.
  intros Hr H. pose proof (wfEngine_fresh d (reachable_wf d Hr)) as Hfresh.
  destruct (getTriangles_harvested _ _ _ _ H Hfresh) as ((_ & _ & Hall) & Hexp).
  split.
  - intros t tri n tn Ht Htri Hn Htn Hav.
    destruct (Hexp t Ht) as (tri' & Htri' & Hst). rewrite Htri in Htri'.
    injection Htri' as <-. destruct (Hst n Hn) as (tn' & Htn' & Hs).
    rewrite Htn in Htn'. injection Htn' as <-. eauto.
  - intros tri Htri Hav. apply (Hall _ tri Htri); [|exact Hav].
    unfold getTriangles in H. res_inv H. injection H as _ <-. simpl in Htri.
    unfold collectTriangles in E. res_inv E.
    apply collectLoop_step in E as (R & _).
    apply addRoot_stamps in E0 as (tn & Htn & Hs).
    destruct (restampedHeap_stamped _ _ _ _ _ R Htn Hs) as (tn' & Htn' & Hs').
    congruence.
Qed.

End HarvestFacts.

(** ** The locator: what it returns *)

Section QueueMembers.
Context {F : Type} {NF : Number F} {A : Type}.
Variable compare : option A -> option A -> res F.

Lemma insert_members (q q' : Queue A) (e : A) :
  insert compare q e = Ok q' ->
  forall x, In (Some x) (elements q') -> x = e \/ In (Some x) (elements q).
Proof.
  unfold insert.
  destruct (cascadeUp compare (S (length (elements q))) (elements q ++ [Some e])
              (length (elements q))) as [els| |] eqn:Hc; simpl; try discriminate.
  intros [= <-] x Hx. simpl in Hx.
  apply cascadeUp_rearranged in Hc as [P _]; [|rewrite length_app; simpl; lia].
  apply list_elem_of_In in Hx. rewrite P in Hx. apply elem_of_app in Hx as [Hx|Hx].
  - right. apply list_elem_of_In. exact Hx.
  - apply list_elem_of_singleton in Hx. left. congruence.
Qed.

Lemma pop_members (q q' : Queue A) (value : option A) :
  isEmpty q = false ->
  pop compare q = Ok (value, q') ->
  In value (elements q) /\
  forall x, In (Some x) (elements q') -> In (Some x) (elements q).
Proof.
  unfold isEmpty. intros Hq Hpop. apply Nat.leb_gt in Hq.
  destruct (decide (3 <= length (elements q))%nat) as [H3|H3].
  - destruct (pop_rearranged compare q q' value H3 Hpop) as (x0 & y & l & -> & P & _).
    split; [right; now left|]. intros x Hx. apply list_elem_of_In in Hx.
    rewrite P in Hx. apply list_elem_of_In.
    apply elem_of_cons in Hx as [Hx|Hx]; [rewrite Hx; apply list_elem_of_here|].
    apply elem_of_cons in Hx as [Hx|Hx].
    + rewrite Hx. do 2 apply list_elem_of_further. apply elem_of_app. right.
      apply list_elem_of_here.
    + do 2 apply list_elem_of_further. apply elem_of_app. now left.
  - destruct (elements q) as [|x0 [|x1 [|x2 l]]] eqn:Hel; simpl in *; try lia.
    unfold pop in Hpop. rewrite Hel in Hpop. vm_compute in Hpop.
    injection Hpop as <- <-. simpl. split; [right; now left|auto].
Qed.

End QueueMembers.

Section LocatorSound.
Context {F : Type} {NF : Number F}.
Implicit Types (h : Heap F) (d : Delaunay F) (tri : Triangle F).

Lemma reachableCell_step h (t u m : nat) tri :
  reachableCell h t u -> h !! u = Some tri -> In (Some m) (neighbors tri) ->
  reachableCell h t m.
Proof.
  induction 1 as [t|t n u a Ha Hn _ IH]; intros Hu Hm.
  - eapply reach_link; eauto. apply reach_here.
  - eapply reach_link; eauto.
Qed.

Lemma enqueueNeighbors_members s (point : Point F) (nbs : list (option nat)) :
  forall h (q : Queue nat) h' q',
    enqueueNeighbors s point h q nbs = Ok (h', q') ->
    forall x, In (Some x) (elements q') -> In (Some x) nbs \/ In (Some x) (elements q).
Proof.
  induction nbs as [|[n|] nbs IH]; intros h q h' q'; simpl.
  - intros [= _ <-]. auto.
  - intros H. res_inv H. destruct (stamped a s); simpl in H.
    + intros x Hx. destruct (IH _ _ _ _ H x Hx); auto.
    + res_inv H. intros x Hx. destruct (IH _ _ _ _ H x Hx) as [?|Hq]; auto.
      apply (insert_members _ _ _ _ E0) in Hq as [->|?]; auto.
  - intros H x Hx. destruct (IH _ _ _ _ H x Hx); auto.
Qed.

Lemma findLoop_reaches s (point : Point F) (h0 : Heap F) (r : nat) (fuel : nat) :
  forall h (q : Queue nat) (t : nat) h',
    restampedHeap s h0 h ->
    (forall n, In (Some n) (elements q) -> reachableCell h0 r n) ->
    findLoop fuel s point h q = Ok (Some t, h') ->
    reachableCell h0 r t.
Proof.
  induction fuel as [|fuel IH]; intros h q t h' R Hq; simpl; [discriminate|].
  destruct (isEmpty q) eqn:Hemp; [discriminate|].
  intros H. res_inv H.
  destruct (pop_members _ _ _ _ Hemp E) as [Hv Hrest].
  unfold deref in E0. destruct o as [u|]; [|discriminate]. injection E0 as ->.
  destruct a0.
  - injection H as -> _. auto.
  - res_inv H. apply getTriangle_Ok in E0 as [Hu Hlt].
    pose proof (enqueueNeighbors_restamps _ _ _ _ _ _ _ E2) as R2.
    eapply IH; [|  |exact H].
    + eapply restampedHeap_trans; eauto.
    + intros n Hn. apply (enqueueNeighbors_members _ _ _ _ _ _ _ E2) in Hn as [Hn|Hn]; [|auto].
      assert (Hlt0 : (a < length h0)%nat) by (destruct R as [L _]; lia).
      destruct (lookup_lt_is_Some_2 h0 a Hlt0) as [c0 Ha0].
      destruct (proj2 R a c0 Ha0) as (b & Hb & Rb). rewrite Hu in Hb. injection Hb as <-.
      rewrite (restamped_neighbors _ _ _ Rb) in Hn.
      eapply reachableCell_step; eauto.
Qed.

(** X15.  What the locator returns is right, and it touches nothing but
    stamps: the returned cell passes the containment test for the point, it
    is linked to the start cell over neighbour references, and every cell
    keeps its vertices, links and caches. *)
Theorem findContainingTriangle_sound (fuel s : nat) (rt : option nat) (point : Point F)
    h (t : nat) h' :
  findContainingTriangle fuel s rt point h = Ok (Some t, h') ->
  (exists tri, h' !! t = Some tri /\ isPointInTriangle tri point = Ok true) /\
  (exists r, rt = Some r /\ reachableCell h r t) /\
  restampedHeap s h h'.
Proof.
  unfold findContainingTriangle. destruct rt as [r|]; [|discriminate].
  intros H. res_inv H. destruct (stamped a s); [discriminate|].
  res_inv H. pose proof (findLoop_restamps _ _ _ _ _ _ _ H) as [R Hfound].
  split; [eauto|]. split; [|exact R]. exists r. split; [reflexivity|].
  eapply (findLoop_reaches s point h r); [apply restampedHeap_refl| |exact H].
  intros n Hn. apply (insert_members _ _ _ _ E0) in Hn as [->|Hn]; [apply reach_here|].
  destruct Hn as [Hn|[]]. discriminate Hn.
Qed.

Lemma findContainingTriangle_restamps (fuel s : nat) (rt : option nat) (point : Point F)
    h r h' :
  findContainingTriangle fuel s rt point h = Ok (r, h') -> restampedHeap s h h'.
Proof.
  unfold findContainingTriangle. destruct rt as [t|]; [|intros [= _ <-]; apply restampedHeap_refl].
  intros H. res_inv H. destruct (stamped a s); [injection H as _ <-; apply restampedHeap_refl|].
  res_inv H. apply findLoop_restamps in H as [R _]. exact R.
Qed.

End LocatorSound.

(** ** Reachable states *)

Section EngineSound.
Context {F : Type} {NF : Number F}.
Implicit Types (h : Heap F) (d : Delaunay F) (tri : Triangle F).

Lemma insertPoint_sound (P : Vertex F -> Prop) (fuel : nat) d (point : Vertex F) d' :
  insertPoint fuel d point = Ok d' -> P point ->
  soundHeap P (heap d) -> soundHeap P (heap d').
Proof.
  unfold insertPoint. intros H Hp W. res_inv H.
  apply findContainingTriangle_restamps in E.
  pose proof (restampedHeap_sound P _ _ _ E W) as W1.
  destruct o as [t|].
  - res_inv H. injection H as <-. simpl. eapply splitTriangle_sound; eauto.
  - injection H as <-. exact W1.
Qed.

Lemma insertPoints_sound (P : Vertex F -> Prop) (fuel : nat) (pts : list (Vertex F)) :
  forall d d', insertPoints fuel d pts = Ok d' -> Forall P pts ->
               soundHeap P (heap d) -> soundHeap P (heap d').
Proof.
  induction pts as [|p pts IH]; intros d d'; simpl.
  - intros [= <-]. auto.
  - intros H HP W. res_inv H. apply Forall_cons in HP as [Hp HP].
    eapply IH; eauto. eapply insertPoint_sound; eauto.
Qed.

Lemma soundHeap_weaken (P Q : Vertex F -> Prop) h :
  (forall p, P p -> Q p) -> soundHeap P h -> soundHeap Q h.
Proof.
  intros HPQ W t tri Ht. destruct (W t tri Ht) as (S1 & S2 & S3 & S4 & S5 & S6).
  repeat split; auto. eapply Forall_impl; eauto.
Qed.

Lemma reachable_sound d : reachable d -> soundHeap (fun _ => True) (heap d).
Proof.
  induction 1 as [a b c e| fuel d pts d' _ IH H | fuel d trs d' _ IH H].
  - intros [|t] tri; simpl; [|discriminate]. intros [= <-].
    repeat split; simpl; try discriminate; auto.
  - eapply insertPoints_sound; eauto. apply Forall_forall. auto.
  - unfold getTriangles in H. res_inv H. injection H as _ <-. simpl.
    apply collectTriangles_step in E as (R & _). eapply restampedHeap_sound; eauto.
Qed.

(** X18.  In every reachable state every cell has exactly three vertices and
    exactly three neighbour slots: no store of [splitTriangle], [flip],
    [replaceNeighbor] or [setPoint] changes the length of either array.  (A
    [replaceNeighbor] that does not find the old neighbour stores under
    the key "-1", which is no element of the array.) *)
Theorem reachable_cells_are_triangles d (t : nat) tri :
  reachable d -> heap d !! t = Some tri ->
  length (points tri) = 3%nat /\ length (neighbors tri) = 3%nat.
Proof.
  intros Hr Ht. destruct (reachable_sound d Hr t tri Ht) as (S1 & S2 & _). auto.
Qed.


(** X20.  [insert] invents no vertex: after it, every vertex of every cell was a
    vertex of some cell before, or is one of the inserted points. *)
Theorem insert_invents_no_vertex (fuel : nat) d (pts : list (Vertex F)) d' :
  reachable d ->
  insertPoints fuel d pts = Ok d' ->
  forall (t : nat) tri (v : Vertex F),
    heap d' !! t = Some tri -> In v (points tri) ->
    In v pts \/ exists t0 tri0, heap d !! t0 = Some tri0 /\ In v (points tri0).
Proof.
  intros Hr H t tri v Ht Hv.
  set (P := fun v : Vertex F =>
              In v pts \/ exists t0 tri0, heap d !! t0 = Some tri0 /\ In v (points tri0)).
  assert (W : soundHeap P (heap d)).
  { intros u a Hu. destruct (reachable_sound d Hr u a Hu) as (S1 & S2 & S3 & S4 & S5 & S6).
    repeat split; auto. apply Forall_forall. intros p Hp. right.
    exists u, a. split; [exact Hu|apply list_elem_of_In; exact Hp]. }
  assert (W' : soundHeap P (heap d')).
  { eapply insertPoints_sound; eauto. apply Forall_forall. intros p Hp. left.
    apply list_elem_of_In. exact Hp. }
  destruct (W' t tri Ht) as (_ & _ & S3 & _). rewrite Forall_forall in S3.
  apply S3. apply list_elem_of_In. exact Hv.
Qed.

End EngineSound.

(** ** The edge flip *)

Section IndexSearches.
Context {F : Type} {NF : Number F}.

Lemma findNotContainedPointFrom_first (points2 : list (Vertex F)) :
  forall (points1 : list (Vertex F)) (i : nat),
    match findNotContainedPointFrom i points1 points2 with
    | Some k =>
        exists (j : nat) (p : Vertex F),
          k = (i + j)%nat /\ points1 !! j = Some p /\ notIn points2 p = true /\
          forall j' q, (j' < j)%nat -> points1 !! j' = Some q -> notIn points2 q = false
    | None => forall q, In q points1 -> notIn points2 q = false
    end.
Proof.
  induction points1 as [|p points1 IH]; intros i; simpl; [tauto|].
  destruct (indexOf same_vertex points2 p) as [m|] eqn:Hp.
  - specialize (IH (S i)).
    destruct (findNotContainedPointFrom (S i) points1 points2) as [k|].
    + destruct IH as (j & q & -> & Hq & Hn & Hbefore).
      exists (S j), q. split; [lia|]. split; [exact Hq|]. split; [exact Hn|].
      intros [|j'] q' Hj; simpl.
      * intros [= <-]. unfold notIn. rewrite Hp. reflexivity.
      * apply Hbefore. lia.
    + intros q [<-|Hq]; [unfold notIn; rewrite Hp; reflexivity|auto].
  - exists 0%nat, p. split; [lia|]. split; [reflexivity|].
    split; [unfold notIn; rewrite Hp; reflexivity|]. intros j' q Hj. lia.
Qed.

Lemma findRemainingIndexFrom_first (point1 point2 : Vertex F) :
  forall (pts : list (Vertex F)) (i : nat),
    match findRemainingIndexFrom i pts point1 point2 with
    | Some k =>
        exists (j : nat) (p : Vertex F),
          k = (i + j)%nat /\ pts !! j = Some p /\
          vid p <> vid point1 /\ vid p <> vid point2 /\
          forall j' q, (j' < j)%nat -> pts !! j' = Some q ->
                       vid q = vid point1 \/ vid q = vid point2
    | None => forall q, In q pts -> vid q = vid point1 \/ vid q = vid point2
    end.
Proof.
  induction pts as [|p pts IH]; intros i; simpl; [tauto|].
  unfold same_vertex at 1 2.
  destruct (Nat.eqb_spec (vid p) (vid point1)) as [E1|E1];
    [|destruct (Nat.eqb_spec (vid p) (vid point2)) as [E2|E2]]; simpl.
  3:{ exists 0%nat, p. split; [lia|]. repeat split; auto. intros j' q Hj. lia. }
  all: specialize (IH (S i));
    destruct (findRemainingIndexFrom (S i) pts point1 point2) as [k|];
    [ destruct IH as (j & q & -> & Hq & H1 & H2 & Hbefore);
      exists (S j), q; split; [lia|]; repeat split; auto;
      intros [|j'] q' Hj; simpl; [intros [= <-]; auto|apply Hbefore; lia]
    | intros q [<-|Hq]; auto ].
Qed.

(** X22.  The two index searches of [flip] return the first position that
    qualifies, and [null] only when none does: [findNotContainedPoint] the
    first point of the first array that is not in the second (by
    identity), [findRemainingIndex] the first point that is neither of the
    two given ones. *)
Theorem index_searches_find_first (points1 points2 : list (Vertex F))
    (point1 point2 : Vertex F) :
  match findNotContainedPoint points1 points2 with
  | Some k =>
      exists p : Vertex F,
        points1 !! k = Some p /\ notIn points2 p = true /\
        forall j q, (j < k)%nat -> points1 !! j = Some q -> notIn points2 q = false
  | None => forall q, In q points1 -> notIn points2 q = false
  end /\
  match findRemainingIndex points1 point1 point2 with
  | Some k =>
      exists p : Vertex F,
        points1 !! k = Some p /\ vid p <> vid point1 /\ vid p <> vid point2 /\
        forall j q, (j < k)%nat -> points1 !! j = Some q ->
                    vid q = vid point1 \/ vid q = vid point2
  | None => forall q, In q points1 -> vid q = vid point1 \/ vid q = vid point2
  end.
Proof.
  split.
  - unfold findNotContainedPoint.
    pose proof (findNotContainedPointFrom_first points2 points1 0) as H.
    destruct (findNotContainedPointFrom 0 points1 points2) as [k|]; [|exact H].
    destruct H as (j & p & -> & H). exists p. exact H.
  - unfold findRemainingIndex.
    pose proof (findRemainingIndexFrom_first point1 point2 points1 0) as H.
    destruct (findRemainingIndexFrom 0 points1 point1 point2) as [k|]; [|exact H].
    destruct H as (j & p & -> & H). exists p. exact H.
Qed.

End IndexSearches.

Section FlipFacts.
Context {F : Type} {NF : Number F}.
Implicit Types (h : Heap F) (tri : Triangle F).

Lemma setNeighbor_points h t i (v : option nat) h' :
  setNeighbor h t i v = Ok h' -> forall u, pointsOf h' u = pointsOf h u.
Proof.
  unfold setNeighbor. intros H u. res_inv H. injection H as <-.
  apply getTriangle_Ok in E as [Ht Hlt]. unfold pointsOf.
  destruct (decide (t = u)) as [->|Hne].
  - rewrite list_lookup_insert_eq by exact Hlt. rewrite Ht. reflexivity.
  - rewrite list_lookup_insert_ne by exact Hne. reflexivity.
Qed.

Lemma replaceNeighbor_points h (nb : option nat) (old new : nat) h' :
  replaceNeighbor h nb old new = Ok h' -> forall u, pointsOf h' u = pointsOf h u.
Proof.
  unfold replaceNeighbor. destruct nb as [t|]; [|intros [= <-]; auto].
  intros H. res_inv H.
  destruct (indexOf _ (neighbors a) (Some old)) as [index|]; [|injection H as <-; auto].
  eapply setNeighbor_points; eauto.
Qed.

Lemma setPoint_points h t i (p : Vertex F) h' :
  setPoint h t i p = Ok h' ->
  forall u, pointsOf h' u = if decide (u = t) then <[i := p]> (pointsOf h t) else pointsOf h u.
Proof.
  unfold setPoint. intros H u. res_inv H. injection H as <-.
  apply getTriangle_Ok in E as [Ht Hlt]. unfold pointsOf.
  destruct (decide (u = t)) as [->|Hne].
  - rewrite list_lookup_insert_eq by exact Hlt. rewrite Ht. reflexivity.
  - rewrite list_lookup_insert_ne by auto. reflexivity.
Qed.

(** The vertices after a flip, as the code computes them. *)
Lemma flip_points h (t1 t2 : nat) h' :
  flip h t1 t2 = Ok h' -> t1 <> t2 ->
  exists (index1 index2 swapIndex2 : nat) (off1 off2 shared : Vertex F),
    findNotContainedPoint (pointsOf h t1) (pointsOf h t2) = Some index1 /\
    findNotContainedPoint (pointsOf h t2) (pointsOf h t1) = Some index2 /\
    pointsOf h t2 !! index2 = Some off2 /\
    pointsOf h t1 !! ((index1 + 1) mod 3)%nat = Some shared /\
    findRemainingIndex (pointsOf h t2) off2 shared = Some swapIndex2 /\
    <[((index1 + 1) mod 3)%nat := off2]> (pointsOf h t1) !! index1 = Some off1 /\
    pointsOf h' t1 = <[((index1 + 1) mod 3)%nat := off2]> (pointsOf h t1) /\
    pointsOf h' t2 = <[swapIndex2 := off1]> (pointsOf h t2) /\
    forall u, u <> t1 -> u <> t2 -> pointsOf h' u = pointsOf h u.
Proof.
  unfold flip. intros H Hne. res_inv H.
  apply getTriangle_Ok in E as [T1 _]. apply getTriangle_Ok in E0 as [T2 _].
  assert (P1 : pointsOf h t1 = points a) by (unfold pointsOf; rewrite T1; reflexivity).
  assert (P2 : pointsOf h t2 = points a0) by (unfold pointsOf; rewrite T2; reflexivity).
  unfold deref in E1, E2, E5.
  destruct (findNotContainedPoint (points a) (points a0)) as [i1|] eqn:F1; [|discriminate].
  destruct (findNotContainedPoint (points a0) (points a)) as [i2|] eqn:F2; [|discriminate].
  injection E1 as <-. injection E2 as <-.
  destruct (findRemainingIndex (points a0) a3 a4) as [k|] eqn:F3; [|discriminate].
  injection E5 as <-.
  apply getPoint_Ok in E3, E4, E8.
  apply getTriangle_Ok in E7 as [T7 _].
  pose proof (setPoint_points _ _ _ _ _ E6) as Q6.
  pose proof (setPoint_points _ _ _ _ _ E9) as Q9.
  pose proof (replaceNeighbor_points _ _ _ _ _ E13) as Q13.
  pose proof (setNeighbor_points _ _ _ _ _ E14) as Q14.
  pose proof (setNeighbor_points _ _ _ _ _ E15) as Q15.
  pose proof (replaceNeighbor_points _ _ _ _ _ E17) as Q17.
  pose proof (setNeighbor_points _ _ _ _ _ E18) as Q18.
  pose proof (setNeighbor_points _ _ _ _ _ H) as Q19.
  assert (Q : forall u, pointsOf h' u = pointsOf a9 u).
  { intros u. rewrite Q19, Q18, Q17, Q15, Q14, Q13. reflexivity. }
  assert (E8' : <[((i1 + 1) mod 3)%nat := a3]> (pointsOf h t1) !! i1 = Some a8).
  { specialize (Q6 t1). rewrite decide_True in Q6 by reflexivity. rewrite <- Q6.
    unfold pointsOf. rewrite T7. exact E8. }
  exists i1, i2, k, a8, a3, a4. rewrite P1, P2.
  rewrite P1 in E8'.
  repeat split; auto.
  - rewrite Q, Q9. rewrite decide_False by exact Hne. rewrite Q6, decide_True by reflexivity.
    rewrite P1. reflexivity.
  - rewrite Q, Q9. rewrite decide_True by reflexivity. rewrite Q6.
    rewrite decide_False by auto. rewrite P2. reflexivity.
  - intros u H1 H2. rewrite Q, Q9. rewrite decide_False by exact H2.
    rewrite Q6. rewrite decide_False by exact H1. reflexivity.
Qed.

Lemma Permutation_three {A} (l : list A) (x y z : A) :
  l ≡ₚ [x; y; z] ->
  l = [x; y; z] \/ l = [x; z; y] \/ l = [y; x; z] \/ l = [y; z; x] \/
  l = [z; x; y] \/ l = [z; y; x].
Proof.
  intros HP.
  apply Permutation_cons_inv_r in HP as (l1 & l2 & -> & HP).
  apply Permutation_length_2_inv in HP.
  destruct l1 as [|u [|v [|w l1]]]; simpl in HP; destruct HP as [HP|HP];
    try discriminate; simplify_eq; simpl; tauto.
Qed.

(** X21.  A flip of two cells that share the edge [a b], with [c] and [d] across
    it, replaces that edge by the edge [c d]: afterwards one cell has the
    vertices [c], [d], [a] and the other [c], [d], [b], and no other cell
    has changed its vertices. *)
Theorem flip_exchanges_diagonal h (t1 t2 : nat) h' tri1 tri2 (a b c d : Vertex F) :
  flip h t1 t2 = Ok h' -> t1 <> t2 ->
  h !! t1 = Some tri1 -> h !! t2 = Some tri2 ->
  NoDup [vid a; vid b; vid c; vid d] ->
  points tri1 ≡ₚ [c; a; b] -> points tri2 ≡ₚ [d; a; b] ->
  (exists tri1' tri2' (s1 s2 : Vertex F),
     h' !! t1 = Some tri1' /\ h' !! t2 = Some tri2' /\
     (s1 = a /\ s2 = b \/ s1 = b /\ s2 = a) /\
     points tri1' ≡ₚ [c; d; s1] /\ points tri2' ≡ₚ [c; d; s2]) /\
  (forall u, u <> t1 -> u <> t2 -> pointsOf h' u = pointsOf h u).
Proof.
  intros Hflip Hne T1 T2 Hnd HP1 HP2.
  pose proof (flip_keeps 0 _ _ _ _ Hflip) as [L _].
  destruct (flip_points _ _ _ _ Hflip Hne)
    as (i1 & i2 & k & off1 & off2 & sh & F1 & F2 & O2 & Sh & F3 & O1 & Q1 & Q2 & Qo).
  split; [|exact Qo].
  assert (B1 : (t1 < length h')%nat) by (rewrite L; eapply lookup_lt_Some; eauto).
  assert (B2 : (t2 < length h')%nat) by (rewrite L; eapply lookup_lt_Some; eauto).
  destruct (lookup_lt_is_Some_2 h' t1 B1) as [tri1' T1'].
  destruct (lookup_lt_is_Some_2 h' t2 B2) as [tri2' T2'].
  unfold pointsOf in F1, F2, O2, Sh, F3, O1, Q1, Q2.
  rewrite ?T1, ?T2, ?T1', ?T2' in *.
  apply NoDup_cons in Hnd as [Na Hnd]. apply NoDup_cons in Hnd as [Nb Hnd].
  apply NoDup_cons in Hnd as [Nc _].
  apply not_elem_of_cons in Na as [Nab Na]. apply not_elem_of_cons in Na as [Nac Na].
  apply not_elem_of_cons in Na as [Nad _].
  apply not_elem_of_cons in Nb as [Nbc Nb]. apply not_elem_of_cons in Nb as [Nbd _].
  apply not_elem_of_cons in Nc as [Ncd _].
  assert (Eab : Nat.eqb (vid a) (vid b) = false) by (apply Nat.eqb_neq; auto).
  assert (Eac : Nat.eqb (vid a) (vid c) = false) by (apply Nat.eqb_neq; auto).
  assert (Ead : Nat.eqb (vid a) (vid d) = false) by (apply Nat.eqb_neq; auto).
  assert (Ebc : Nat.eqb (vid b) (vid c) = false) by (apply Nat.eqb_neq; auto).
  assert (Ebd : Nat.eqb (vid b) (vid d) = false) by (apply Nat.eqb_neq; auto).
  assert (Ecd : Nat.eqb (vid c) (vid d) = false) by (apply Nat.eqb_neq; auto).
  assert (Eba : Nat.eqb (vid b) (vid a) = false) by (apply Nat.eqb_neq; auto).
  assert (Eca : Nat.eqb (vid c) (vid a) = false) by (apply Nat.eqb_neq; auto).
  assert (Eda : Nat.eqb (vid d) (vid a) = false) by (apply Nat.eqb_neq; auto).
  assert (Ecb : Nat.eqb (vid c) (vid b) = false) by (apply Nat.eqb_neq; auto).
  assert (Edb : Nat.eqb (vid d) (vid b) = false) by (apply Nat.eqb_neq; auto).
  assert (Edc : Nat.eqb (vid d) (vid c) = false) by (apply Nat.eqb_neq; auto).
  exists tri1', tri2'.
  apply Permutation_three in HP1, HP2.
  unfold findNotContainedPoint, findRemainingIndex in *.
  destruct HP1 as [HP1|[HP1|[HP1|[HP1|[HP1|HP1]]]]];
  destruct HP2 as [HP2|[HP2|[HP2|[HP2|[HP2|HP2]]]]];
    rewrite HP1, HP2 in *;
    cbn [findNotContainedPointFrom indexOf] in F1, F2; unfold same_vertex in F1, F2;
    rewrite ?Nat.eqb_refl, ?Eab, ?Eac, ?Ead, ?Ebc, ?Ebd, ?Ecd, ?Eba, ?Eca, ?Eda, ?Ecb, ?Edb, ?Edc in F1; rewrite ?Nat.eqb_refl, ?Eab, ?Eac, ?Ead, ?Ebc, ?Ebd, ?Ecd, ?Eba, ?Eca, ?Eda, ?Ecb, ?Edb, ?Edc in F2;
    simpl in F1, F2;
    injection F1 as <-; injection F2 as <-;
    simpl in Sh, O2; injection Sh as <-; injection O2 as <-;
    cbn [findRemainingIndexFrom] in F3; unfold same_vertex in F3;
    rewrite ?Nat.eqb_refl, ?Eab, ?Eac, ?Ead, ?Ebc, ?Ebd, ?Ecd, ?Eba, ?Eca, ?Eda, ?Ecb, ?Edb, ?Edc in F3;
    simpl in F3; injection F3 as <-;
    simpl in O1, Q1, Q2; injection O1 as <-; rewrite Q1, Q2.
  all: first
    [ exists a, b; split; [reflexivity|]; split; [reflexivity|];
      split; [left; split; reflexivity|]; split; solve [perm_three]
    | exists b, a; split; [reflexivity|]; split; [reflexivity|];
      split; [right; split; reflexivity|]; split; solve [perm_three] ].
Qed.

End FlipFacts.

(** ** The locator over the sorted array *)

Section SortedLocator.
Context {F : Type} {NF : Number F}.
Implicit Types (h : Heap F) (tri : Triangle F).

Lemma compareTriangles_Ok h (point : Point F) (t1 t2 : nat) :
  comparable h t1 -> comparable h t2 ->
  exists c, compareTriangles h point (Some t1) (Some t2) = Ok c.
Proof.
  intros (tri1 & p1 & H1 & P1) (tri2 & p2 & H2 & P2).
  unfold compareTriangles, getTriangle, minimalDistance, getPoint.
  cbn [deref rbind]. rewrite H1. cbn [deref rbind]. rewrite P1. cbn [deref rbind].
  rewrite H2. cbn [deref rbind]. rewrite P2. cbn [deref rbind]. eauto.
Qed.

Lemma searchLoop_total {A} (compare : option A -> option A -> res F) (fuel : nat)
    (elements : list A) (element : A) :
  (forall x, In x elements -> exists c, compare (Some element) (Some x) = Ok c) ->
  forall begin end_ j : Z,
    (0 <= begin <= end_)%Z -> (end_ <= Z.of_nat (length elements))%Z ->
    (begin < Z.of_nat (length elements))%Z ->
    (potential begin end_ j < Z.of_nat fuel)%Z ->
    exists i, SortedQueue.searchLoop compare fuel elements element begin end_ j = Ok i.
Proof.
  intros Hcmp. induction fuel as [|fuel IH]; intros begin end_ j Hb He Hl Hp.
  - unfold potential in Hp. destruct (_ =? _)%Z; lia.
  - cbn [SortedQueue.searchLoop].
    pose proof (middle_bounds begin end_ (proj2 Hb)) as Hm. cbv zeta in Hm.
    unfold potential in Hp.
    set (m := (begin + (end_ - begin) / 2)%Z) in *.
    destruct (nth_slot_Some elements m) as (x & Hx & Hlx); [lia|].
    rewrite Hx. destruct (Hcmp x) as [c Hc].
    { apply list_elem_of_In. eapply list_elem_of_lookup_2; eauto. }
    rewrite Hc. cbn [rbind].
    destruct (Z.eqb_spec m j) as [Hj|Hj].
    + destruct (nlt (nconst 0) c); [|destruct (nlt c (nconst 0))]; eauto.
    + destruct (nlt (nconst 0) c).
      * apply IH; try lia. unfold potential.
        pose proof (middle_bounds m end_ ltac:(lia)) as Hm'. cbv zeta in Hm'.
        destruct (Z.eqb_spec (m + (end_ - m) / 2) m); lia.
      * destruct (nlt c (nconst 0)); [|eauto].
        apply IH; try lia. unfold potential.
        pose proof (middle_bounds begin m ltac:(lia)) as Hm'. cbv zeta in Hm'.
        destruct (Z.eqb_spec (begin + (m - begin) / 2) m); lia.
Qed.

Lemma sorted_insert_total {A} (compare : option A -> option A -> res F)
    (q : SortedQueue.Queue A) (element : A) :
  (forall x, In x (SortedQueue.elements q) ->
             exists c, compare (Some element) (Some x) = Ok c) ->
  exists q', SortedQueue.insert compare q element = Ok q' /\
             SortedQueue.elements q' ≡ₚ element :: SortedQueue.elements q.
Proof.
  intros Hcmp. unfold SortedQueue.insert, SortedQueue.searchBinary.
  destruct (Z.leb_spec (Z.of_nat (length (SortedQueue.elements q))) 0) as [H0|H0].
  - cbn [rbind]. eexists. split; [reflexivity|]. apply splice_Permutation.
  - destruct (searchLoop_total compare (2 * length (SortedQueue.elements q) + 2)
                (SortedQueue.elements q) element Hcmp 0
                (Z.of_nat (length (SortedQueue.elements q))) 0) as [i Hi]; try lia.
    { unfold potential. destruct (_ =? _)%Z; lia. }
    rewrite Hi. cbn [rbind]. eexists. split; [reflexivity|]. apply splice_Permutation.
Qed.

Lemma nowhere_comparable (point : Point F) h (t : nat) :
  nowhere point h -> (t < length h)%nat -> comparable h t.
Proof.
  intros Hn Ht. destruct (lookup_lt_is_Some_2 h t Ht) as [tri Htri].
  destruct (Hn t tri Htri) as ((p0 & Hp) & _). exists tri, p0. auto.
Qed.

Lemma nowhere_restamped s (point : Point F) h h' :
  restampedHeap s h h' -> nowhere point h -> nowhere point h'.
Proof.
  intros [L R] Hn t b Hb.
  assert (Hlt : (t < length h)%nat) by (rewrite <- L; eapply lookup_lt_Some; eauto).
  destruct (lookup_lt_is_Some_2 h t Hlt) as [a Ha].
  destruct (R t a Ha) as (b' & Hb' & Rab). rewrite Hb in Hb'. injection Hb' as <-.
  destruct (Hn t a Ha) as (H1 & H2 & H3). rewrite L.
  destruct Rab as [->| ->]; auto.
Qed.

Lemma enqueueNeighborsSorted_total s (point : Point F) (nbs : list (option nat)) :
  forall h (q : SortedQueue.Queue nat),
    nowhere point h ->
    (forall x, In x (SortedQueue.elements q) -> (x < length h)%nat) ->
    (forall m, In (Some m) nbs -> (m < length h)%nat) ->
    exists h' q',
      enqueueNeighborsSorted s point h q nbs = Ok (h', q') /\
      restampedHeap s h h' /\
      (forall x, In x (SortedQueue.elements q') -> (x < length h')%nat) /\
      (length (SortedQueue.elements q') + unstamped s h' =
       length (SortedQueue.elements q) + unstamped s h)%nat.
Proof.
  induction nbs as [|[n|] nbs IH]; intros h q Hn Hq Hnbs; cbn [enqueueNeighborsSorted].
  - exists h, q. split; [reflexivity|]. split; [apply restampedHeap_refl|auto].
  - assert (Hlt : (n < length h)%nat) by (apply Hnbs; now left).
    destruct (lookup_lt_is_Some_2 h n Hlt) as [tn Htn].
    unfold getTriangle. rewrite Htn. cbn [deref rbind].
    destruct (stamped tn s) eqn:Hs; cbn [negb].
    + apply IH; auto. intros m Hm. apply Hnbs. now right.
    + pose proof (restampedHeap_stamp s h n tn Htn) as R1.
      pose proof (nowhere_restamped _ _ _ _ R1 Hn) as Hn1.
      set (h1 := <[n := with_search tn (Some s)]> h) in *.
      assert (L1 : length h1 = length h) by apply length_insert.
      destruct (sorted_insert_total (compareTriangles h1 point) q n) as (q1 & Hq1 & P1).
      { intros x Hx. apply compareTriangles_Ok; apply (nowhere_comparable point); auto;
          rewrite L1; auto. }
      rewrite Hq1. cbn [rbind].
      destruct (IH h1 q1 Hn1) as (h' & q' & He & R & Hq' & Hm).
      { intros x Hx. apply list_elem_of_In in Hx. rewrite P1 in Hx.
        apply elem_of_cons in Hx as [->|Hx]; [lia|].
        rewrite L1. apply Hq. apply list_elem_of_In. exact Hx. }
      { intros m Hm. rewrite L1. apply Hnbs. now right. }
      exists h', q'. split; [exact He|]. split; [eapply restampedHeap_trans; eauto|].
      split; [exact Hq'|].
      rewrite Hm. apply Permutation_length in P1. rewrite P1. simpl.
      pose proof (unstamped_stamp s h n tn Htn Hs). fold h1 in H. lia.
  - apply IH; auto. intros m Hm. apply Hnbs. now right.
Qed.

Lemma findLoopSorted_exhausts s (point : Point F) (fuel : nat) :
  forall h (q : SortedQueue.Queue nat),
    nowhere point h ->
    (forall x, In x (SortedQueue.elements q) -> (x < length h)%nat) ->
    (length (SortedQueue.elements q) + unstamped s h < fuel)%nat ->
    exists h', findLoopSorted fuel s point h q = Ok (None, h') /\ restampedHeap s h h'.
Proof.
  induction fuel as [|fuel IH]; intros h q Hn Hq Hf; [lia|].
  cbn [findLoopSorted]. unfold SortedQueue.isEmpty.
  destruct (Nat.eqb_spec (length (SortedQueue.elements q)) 0) as [H0|H0].
  { exists h. split; [reflexivity|apply restampedHeap_refl]. }
  unfold SortedQueue.pop.
  destruct (SortedQueue.elements q) as [|t l _] eqn:Hel using rev_ind; [simpl in H0; lia|].
  rewrite last_snoc, removelast_last. cbn [deref rbind].
  assert (Hlt : (t < length h)%nat).
  { apply Hq. apply in_or_app. right. now left. }
  destruct (lookup_lt_is_Some_2 h t Hlt) as [tri Htri].
  destruct (Hn t tri Htri) as (_ & Hnb & Hout).
  unfold containsPoint, getTriangle. rewrite Htri. cbn [deref rbind].
  rewrite Hout. cbn [rbind].
  destruct (enqueueNeighborsSorted_total s point (neighbors tri) h (SortedQueue.mkQueue l) Hn)
    as (h1 & q1 & He & R & Hq1 & Hm); auto.
  { intros x Hx. apply Hq. apply in_or_app. now left. }
  rewrite He. cbn [rbind].
  destruct (IH h1 q1) as (h' & Hl & R'); auto.
  - eapply nowhere_restamped; eauto.
  - rewrite Hm. cbn [SortedQueue.elements]. rewrite length_app in Hf. simpl in Hf. lia.
  - exists h'. split; [exact Hl|]. eapply restampedHeap_trans; eauto.
Qed.

(** X23.  With the sorted-array queue the search for a point that no cell
    contains comes to an end: the queue runs empty and the answer is
    [null], after at most one round per cell and one more. *)
Theorem findContainingTriangleSorted_returns_null (fuel s r : nat) (point : Point F) h :
  nowhere point h ->
  (r < length h)%nat ->
  (length h + 2 <= fuel)%nat ->
  exists h', findContainingTriangleSorted fuel s (Some r) point h = Ok (None, h') /\
             restampedHeap s h h'.
Proof.
  intros Hn Hr Hf. unfold findContainingTriangleSorted.
  destruct (lookup_lt_is_Some_2 h r Hr) as [tri Htri].
  unfold getTriangle. rewrite Htri. cbn [deref rbind].
  destruct (stamped tri s); [exists h; split; [reflexivity|apply restampedHeap_refl]|].
  destruct (sorted_insert_total (compareTriangles h point) SortedQueue.newQueue r)
    as (q & Hq & P); [intros x []|].
  rewrite Hq. cbn [rbind].
  apply findLoopSorted_exhausts; auto.
  - intros x Hx. apply list_elem_of_In in Hx. rewrite P in Hx.
    apply elem_of_cons in Hx as [->|Hx]; [exact Hr|]. inversion Hx.
  - apply Permutation_length in P. rewrite P. simpl.
    pose proof (unstamped_le_length s h). lia.
Qed.

End SortedLocator.

(** ** Instances on concrete engines *)

Lemma engineFour_reachable : reachable engineFour.
Proof.
  apply (reach_insert 100 engine10 fourPoints); [apply reach_new|].
  vm_compute. reflexivity.
Qed.

Lemma findContainingTriangle_sound_witness :
  findContainingTriangle 100 0 (Some 0%nat) (fpoint 5 5 0) (heap engine10)
  = Ok (Some 0%nat, heap engine10) /\
  (exists tri, heap engine10 !! 0%nat = Some tri /\
               isPointInTriangle tri (fpoint 5 5 0) = Ok true) /\
  (exists r, Some 0%nat = Some r /\ reachableCell (heap engine10) r 0) /\
  restampedHeap 0 (heap engine10) (heap engine10).
Proof.
  assert (H : findContainingTriangle 100 0 (Some 0%nat) (fpoint 5 5 0) (heap engine10)
              = Ok (Some 0%nat, heap engine10)) by (vm_compute; reflexivity).
  split; [exact H|].
  exact (findContainingTriangle_sound 100 0 (Some 0%nat) (fpoint 5 5 0) (heap engine10)
           0 (heap engine10) H).
Defined.

Lemma getTriangles_no_duplicates_witness :
  getTriangles 15 engineFour = Ok ([7; 12]%nat, engineFourHarvested) /\
  NoDup [7; 12]%nat.
Proof.
  assert (H : getTriangles 15 engineFour = Ok ([7; 12]%nat, engineFourHarvested))
    by (vm_compute; reflexivity).
  split; [exact H|].
  exact (getTriangles_no_duplicates 15 engineFour [7; 12]%nat engineFourHarvested H).
Defined.

Lemma getTriangles_closed_under_neighbors_witness :
  reachable engineFour /\
  getTriangles 15 engineFour = Ok ([7; 12]%nat, engineFourHarvested) /\
  (forall t tri n tn,
      In t [7; 12]%nat -> heap engineFourHarvested !! t = Some tri ->
      In (Some n) (neighbors tri) -> heap engineFourHarvested !! n = Some tn ->
      avoidsFormingPoints engineFour tn = true -> In n [7; 12]%nat) /\
  (forall tri, heap engineFourHarvested !! root engineFour = Some tri ->
               avoidsFormingPoints engineFour tri = true ->
               In (root engineFour) [7; 12]%nat).
Proof.
  assert (H : getTriangles 15 engineFour = Ok ([7; 12]%nat, engineFourHarvested))
    by (vm_compute; reflexivity).
  split; [exact engineFour_reachable|]. split; [exact H|].
  exact (getTriangles_closed_under_neighbors 15 engineFour [7; 12]%nat engineFourHarvested
           engineFour_reachable H).
Defined.

Lemma reachable_cells_are_triangles_witness :
  reachable engineFour /\
  exists tri, heap engineFour !! 7%nat = Some tri /\
              length (points tri) = 3%nat /\ length (neighbors tri) = 3%nat.
Proof.
  split; [exact engineFour_reachable|].
  destruct (heap engineFour !! 7%nat) as [tri|] eqn:E; [|vm_compute in E; discriminate E].
  exists tri. split; [reflexivity|].
  exact (reachable_cells_are_triangles engineFour 7 tri engineFour_reachable E).
Defined.


Lemma insert_invents_no_vertex_witness :
  reachable engine10 /\
  insertPoints 100 engine10 fourPoints = Ok engineFour /\
  forall (t : nat) (tri : Triangle float) (v : Vertex float),
    heap engineFour !! t = Some tri -> In v (points tri) ->
    In v fourPoints \/
    exists t0 tri0, heap engine10 !! t0 = Some tri0 /\ In v (points tri0).
Proof.
  assert (Hr : reachable engine10) by apply reach_new.
  assert (H : insertPoints 100 engine10 fourPoints = Ok engineFour)
    by (vm_compute; reflexivity).
  split; [exact Hr|]. split; [exact H|].
  exact (insert_invents_no_vertex 100 engine10 fourPoints engineFour Hr H).
Defined.

Lemma flip_exchanges_diagonal_witness :
  let a := fvertex 1 0 4 0 in
  let b := fvertex 2 4 0 0 in
  let c := fvertex 3 0 0 0 in
  let d := fvertex 4 4 4 0 in
  let tri1 := newTriangle [c; a; b] [None; Some 1%nat; None] in
  let tri2 := newTriangle [d; b; a] [None; Some 0%nat; None] in
  flip flipHeap 0 1 = Ok flippedHeap /\ 0%nat <> 1%nat /\
  flipHeap !! 0%nat = Some tri1 /\ flipHeap !! 1%nat = Some tri2 /\
  NoDup [vid a; vid b; vid c; vid d] /\
  points tri1 ≡ₚ [c; a; b] /\ points tri2 ≡ₚ [d; a; b] /\
  (exists tri1' tri2' (s1 s2 : Vertex float),
     flippedHeap !! 0%nat = Some tri1' /\ flippedHeap !! 1%nat = Some tri2' /\
     (s1 = a /\ s2 = b \/ s1 = b /\ s2 = a) /\
     points tri1' ≡ₚ [c; d; s1] /\ points tri2' ≡ₚ [c; d; s2]) /\
  (forall u, u <> 0%nat -> u <> 1%nat -> pointsOf flippedHeap u = pointsOf flipHeap u).
Proof.
  intros a b c d tri1 tri2.
  assert (H : flip flipHeap 0 1 = Ok flippedHeap) by (vm_compute; reflexivity).
  assert (Hne : 0%nat <> 1%nat) by lia.
  assert (T1 : flipHeap !! 0%nat = Some tri1) by reflexivity.
  assert (T2 : flipHeap !! 1%nat = Some tri2) by reflexivity.
  assert (Hnd : NoDup [vid a; vid b; vid c; vid d]).
  { simpl. repeat (apply NoDup_cons; split;
      [rewrite ?elem_of_cons; intros Hx; decompose [or] Hx; try discriminate;
       match goal with H0 : _ ∈ [] |- _ => inversion H0 end|]).
    apply NoDup_nil. exact I. }
  assert (P1 : points tri1 ≡ₚ [c; a; b]) by reflexivity.
  assert (P2 : points tri2 ≡ₚ [d; a; b]) by (simpl; perm_three).
  split; [exact H|]. split; [exact Hne|]. split; [exact T1|]. split; [exact T2|].
  split; [exact Hnd|]. split; [exact P1|]. split; [exact P2|].
  exact (flip_exchanges_diagonal flipHeap 0 1 flippedHeap tri1 tri2 a b c d
           H Hne T1 T2 Hnd P1 P2).
Defined.

Lemma engineFour_nowhere_outside : nowhere (fpoint 50 50 0) (heap engineFour).
Proof.
  intros t tri H.
  do 13 (destruct t as [|t];
    [injection H as <-; split; [eexists; reflexivity|];
     split; [|vm_compute; reflexivity];
     intros m Hm; cbn in Hm;
     repeat (destruct Hm as [Hm|Hm]; [try discriminate Hm; injection Hm as <-; cbn; lia|]);
     destruct Hm|]).
  discriminate H.
Qed.

Lemma findContainingTriangleSorted_returns_null_witness :
  nowhere (fpoint 50 50 0) (heap engineFour) /\
  (root engineFour < length (heap engineFour))%nat /\
  (length (heap engineFour) + 2 <= 15)%nat /\
  exists h', findContainingTriangleSorted 15 4 (Some (root engineFour)) (fpoint 50 50 0)
               (heap engineFour) = Ok (None, h') /\
             restampedHeap 4 (heap engineFour) h'.
Proof.
  assert (Hr : (root engineFour < length (heap engineFour))%nat) by (vm_compute; lia).
  assert (Hf : (length (heap engineFour) + 2 <= 15)%nat) by (vm_compute; lia).
  split; [exact engineFour_nowhere_outside|]. split; [exact Hr|]. split; [exact Hf|].
  exact (findContainingTriangleSorted_returns_null 15 4 (root engineFour) (fpoint 50 50 0)
           (heap engineFour) engineFour_nowhere_outside Hr Hf).
Defined.
